(** * Order of Merit: the competition acquisition and caching pipeline

    A shallow embedding of [competition.go] (package [oom]) and of the
    dispatch loop of [main], together with the properties of the design
    document that concern them.

    Conventions.
    - A Go [string] / [[]byte] is a list of bytes, [list ascii].
    - A Go [int] is a [Z]; the 64-bit range matters in [strconv.Atoi],
      whose range checks are written out, and in the sums of package
      [main], which wrap around.
    - A function that can panic, call [log.Fatal] or [os.Exit] returns a
      [result]; code that touches the file system or the network is a
      function from [World] to a [result] and a [World].
    - A Go [map[string]T] is a [gmap (list ascii) T]; wherever the code
      ranges over a map, the order chosen by the runtime is an explicit
      argument (a permutation of the entries). *)

From Stdlib Require Import ZArith Ascii String List Lia.
From stdpp Require Import base list gmap strings sorting.

Local Open Scope string_scope.
Local Open Scope Z_scope.
Local Open Scope list_scope.

Set Warnings "-clear-no-such-hyp".

(** ** Go strings *)

Abbreviation gostring := (list ascii).

(** A string literal of the source, as bytes. *)
Coercion list_ascii_of_string : string >-> list.

Definition len (s : gostring) : Z := Z.of_nat (length s).

(** Why a run stopped early. *)
Inductive fatal_kind :=
  | FatalOpen                       (* parseKeysFromFile: os.Open failed *)
  | FatalScan                       (* log.Fatal(scanner.Err()) *)
  | FatalFetch                      (* MustFetch: login or page fetch failed *)
  | FatalNullKey                    (* Load: empty competition key *)
  | FatalMissingComp (key : gostring). (* FetchCompDescriptions *)

Inductive fault :=
  | RuntimePanic                    (* slice or index out of range *)
  | LogFatal (k : fatal_kind)       (* log.Fatal: message, then exit 1 *)
  | OsExit (printed : gostring) (code : Z) (* fmt.Println(printed); os.Exit(code) *)
  | OutOfFuel.                      (* the model's loop bound was too small *)

Inductive result (A : Type) :=
  | Ok (a : A)
  | Fail (f : fault).
Arguments Ok {A} a.
Arguments Fail {A} f.

Global Instance result_ret : MRet result := fun A a => Ok a.
Global Instance result_bind : MBind result := fun A B k r =>
  match r with
  | Ok a => k a
  | Fail f => Fail f
  end.

(** [s[lo:hi]]: panics unless [0 <= lo <= hi <= len(s)]. *)
Definition slice (s : gostring) (lo hi : Z) : result gostring :=
  if (0 <=? lo) && (lo <=? hi) && (hi <=? len s)
  then Ok (take (Z.to_nat (hi - lo)) (drop (Z.to_nat lo) s))
  else Fail RuntimePanic.

(** [s[lo:]] and [s[:hi]]. *)
Definition slice_from (s : gostring) (lo : Z) : result gostring :=
  slice s lo (len s).
Definition slice_to (s : gostring) (hi : Z) : result gostring :=
  slice s 0 hi.

(** [l[i]] on a slice of strings: panics when out of range. *)
Definition index_at (l : list gostring) (i : nat) : result gostring :=
  match l !! i with
  | Some x => Ok x
  | None => Fail RuntimePanic
  end.

Fixpoint has_prefix (p s : gostring) : bool :=
  match p, s with
  | [], _ => true
  | _ :: _, [] => false
  | a :: p', b :: s' => Ascii.eqb a b && has_prefix p' s'
  end.

Definition bytes_eqb (a b : gostring) : bool :=
  bool_decide (a = b).

(** [strings.Index(s, tok)]: the first [i] with [s[i:]] starting with
    [tok], [-1] when there is none. *)
Fixpoint index_from (tok s : gostring) (i : Z) : Z :=
  if has_prefix tok s then i
  else match s with
       | [] => -1
       | _ :: s' => index_from tok s' (i + 1)
       end.

Definition strings_Index (s tok : gostring) : Z := index_from tok s 0.

(** [strings.LastIndex(s, tok)]: the last such [i], [-1] when none. *)
Fixpoint last_index_from (tok s : gostring) (i acc : Z) : Z :=
  let acc' := if has_prefix tok s then i else acc in
  match s with
  | [] => acc'
  | _ :: s' => last_index_from tok s' (i + 1) acc'
  end.

Definition strings_LastIndex (s tok : gostring) : Z :=
  last_index_from tok s 0 (-1).

(** [strings.Split(s, sep)] for a one-byte separator, the only use in
    the source ([","]): always at least one field. *)
Fixpoint strings_Split (s : gostring) (sep : ascii) : list gostring :=
  match s with
  | [] => [[]]
  | a :: s' =>
      if Ascii.eqb a sep then [] :: strings_Split s' sep
      else match strings_Split s' sep with
           | h :: t => (a :: h) :: t
           | [] => [[a]]
           end
  end.

(** [strings.TrimSpace]: leading and trailing white space removed, "as
    defined by Unicode".  On bytes: a rune decoded at the start (or, with
    [DecodeLastRuneInString], at the end) of a string is white space
    exactly when the string starts (ends) with the UTF-8 encoding of one
    of the code points of [unicode.White_Space]. *)
Definition byte (n : nat) : ascii := ascii_of_nat n.

Definition white_space : list gostring :=
  [ [byte 9]; [byte 10]; [byte 11]; [byte 12]; [byte 13]; [byte 32];
    [byte 194; byte 133];            (* U+0085 *)
    [byte 194; byte 160];            (* U+00A0 *)
    [byte 225; byte 154; byte 128];  (* U+1680 *)
    [byte 226; byte 128; byte 128];  (* U+2000 .. U+200A *)
    [byte 226; byte 128; byte 129];
    [byte 226; byte 128; byte 130];
    [byte 226; byte 128; byte 131];
    [byte 226; byte 128; byte 132];
    [byte 226; byte 128; byte 133];
    [byte 226; byte 128; byte 134];
    [byte 226; byte 128; byte 135];
    [byte 226; byte 128; byte 136];
    [byte 226; byte 128; byte 137];
    [byte 226; byte 128; byte 138];
    [byte 226; byte 128; byte 168];  (* U+2028 *)
    [byte 226; byte 128; byte 169];  (* U+2029 *)
    [byte 226; byte 128; byte 175];  (* U+202F *)
    [byte 226; byte 129; byte 159];  (* U+205F *)
    [byte 227; byte 128; byte 128]   (* U+3000 *) ].

(** The rest of [s] after the first of [ws] that [s] starts with. *)
Fixpoint strip_one (ws : list gostring) (s : gostring) : option gostring :=
  match ws with
  | [] => None
  | w :: ws' =>
      if has_prefix w s then Some (drop (length w) s) else strip_one ws' s
  end.

Fixpoint trim_left_fuel (fuel : nat) (ws : list gostring) (s : gostring)
  : gostring :=
  match fuel with
  | O => s
  | S fuel' =>
      match strip_one ws s with
      | Some s' => trim_left_fuel fuel' ws s'
      | None => s
      end
  end.

Definition trim_left (ws : list gostring) (s : gostring) : gostring :=
  trim_left_fuel (length s) ws s.

Definition trim_right (ws : list gostring) (s : gostring) : gostring :=
  rev (trim_left (map (@rev ascii) ws) (rev s)).

Definition strings_TrimSpace (s : gostring) : gostring :=
  trim_right white_space (trim_left white_space s).

(** ** Numbers and formatting *)

Definition is_digit (c : ascii) : bool :=
  ((48 <=? nat_of_ascii c) && (nat_of_ascii c <=? 57))%nat.

Definition digit_val (c : ascii) : Z := Z.of_nat (nat_of_ascii c) - 48.

(** The number that a string of decimal digits stands for. *)
Definition decimal_value (ds : gostring) : Z :=
  fold_left (fun n ch => n * 10 + digit_val ch) ds 0.

(** The errors of package [strconv]. *)
Inductive num_error := ErrSyntax | ErrRange.

Definition maxUint64 : Z := 2 ^ 64 - 1.

(** The loop of [strconv.ParseUint(s, 10, 64)], [n] being the [uint64]
    read so far.  The bytes are taken from left to right: a byte that is
    no decimal digit is a syntax error, with the value 0; a value that
    leaves 64 bits is a range error, with the value [2^64 - 1]; the first
    of them ends the loop, and what follows is not read. *)
Fixpoint parse_uint_loop (n : Z) (s : gostring) : Z * option num_error :=
  match s with
  | [] => (n, None)
  | c :: s' =>
      if negb (is_digit c) then (0, Some ErrSyntax)
      else if maxUint64 / 10 + 1 <=? n      (* n*base overflows *)
      then (maxUint64, Some ErrRange)
      else
        let n := n * 10 in
        let n1 := (n + digit_val c) mod 2 ^ 64 in
        if (n1 <? n) || (maxUint64 <? n1)   (* n+d overflows *)
        then (maxUint64, Some ErrRange)
        else parse_uint_loop n1 s'
  end.

Definition strconv_ParseUint (s : gostring) : Z * option num_error :=
  match s with
  | [] => (0, Some ErrSyntax)
  | _ :: _ => parse_uint_loop 0 s
  end.

(** [strconv.ParseInt(s, 10, 0)] with a 64-bit [int]: the sign is picked
    off, the rest goes to [ParseUint]; its syntax error is returned with
    the value 0, after its range error the value is the nearest bound. *)
Definition strconv_ParseInt (s : gostring) : Z * option num_error :=
  match s with
  | [] => (0, Some ErrSyntax)
  | c :: r =>
      let neg := Ascii.eqb c "-" in
      let s := if Ascii.eqb c "+" || neg then r else s in
      let '(un, err) := strconv_ParseUint s in
      match err with
      | Some ErrSyntax => (0, err)
      | _ =>
          let cutoff := 2 ^ 63 in
          if negb neg && (cutoff <=? un) then (cutoff - 1, Some ErrRange)
          else if neg && (cutoff <? un) then (- cutoff, Some ErrRange)
          else (if neg then - un else un, None)
      end
  end.

(** [strconv.Atoi] with a 64-bit [int], which is [ParseInt(s, 10, 0)]:
    the value and whether [err] is [nil]. *)
Definition strconv_Atoi (s : gostring) : Z * bool :=
  let '(i, err) := strconv_ParseInt s in
  (i, match err with None => true | Some _ => false end).

(** The path that recent releases of [strconv.Atoi] take for a string of
    1 to 18 bytes, which cannot leave the range of an [int]: the sign,
    then [n = n*10 + int(ch)] over the digits. *)
Fixpoint atoi_fast_loop (n : Z) (s : gostring) : option Z :=
  match s with
  | [] => Some n
  | ch :: s' =>
      if is_digit ch then atoi_fast_loop (n * 10 + digit_val ch) s' else None
  end.

Definition atoi_fast (s0 : gostring) : Z * bool :=
  match s0 with
  | [] => (0, false)
  | c :: r =>
      let signed := Ascii.eqb c "-" || Ascii.eqb c "+" in
      let s := if signed then r else s0 in
      if signed && (len s <? 1) then (0, false)
      else
        match atoi_fast_loop 0 s with
        | None => (0, false)
        | Some n => (if Ascii.eqb c "-" then - n else n, true)
        end
  end.

Definition digit_char (d : Z) : ascii := ascii_of_nat (Z.to_nat (48 + d)).

Fixpoint digits_fuel (fuel : nat) (n : Z) : gostring :=
  match fuel with
  | O => []
  | S fuel' =>
      if n <? 10 then [digit_char n]
      else digits_fuel fuel' (n / 10) ++ [digit_char (n mod 10)]
  end.

Definition format_uint (n : Z) : gostring :=
  digits_fuel (S (Z.to_nat (Z.log2 n))) n.

(** The verb [%v] (and [fmt.Fprint]) on an [int]: decimal, with a minus
    sign when negative. *)
Definition format_int (n : Z) : gostring :=
  if n <? 0 then "-"%char :: format_uint (- n) else format_uint n.

Definition in_range (lo hi : nat) (c : ascii) : bool :=
  ((lo <=? nat_of_ascii c) && (nat_of_ascii c <=? hi))%nat.

(** The table [first] of package [utf8]: for a lead byte, the size of the
    encoding and the range accepted for its second byte. *)
Definition utf8_first (c : ascii) : option (nat * nat * nat) :=
  if in_range 194 223 c then Some (2, 128, 191)%nat
  else if in_range 224 224 c then Some (3, 160, 191)%nat
  else if in_range 225 236 c then Some (3, 128, 191)%nat
  else if in_range 237 237 c then Some (3, 128, 159)%nat
  else if in_range 238 239 c then Some (3, 128, 191)%nat
  else if in_range 240 240 c then Some (4, 144, 191)%nat
  else if in_range 241 243 c then Some (4, 128, 191)%nat
  else if in_range 244 244 c then Some (4, 128, 143)%nat
  else None.

(** How many bytes the loop of [utf8.RuneCountInString] steps over at the
    start of [s]: 1 for an ASCII byte and for an invalid or short
    encoding. *)
Definition utf8_rune_width (s : gostring) : nat :=
  match s with
  | [] => 0%nat
  | c :: r =>
      if in_range 0 127 c then 1%nat
      else match utf8_first c with
           | None => 1%nat
           | Some (size, lo, hi) =>
               if (length s <? size)%nat then 1%nat
               else match r with
                    | c1 :: r1 =>
                        if negb (in_range lo hi c1) then 1%nat
                        else if (size =? 2)%nat then 2%nat
                        else match r1 with
                             | c2 :: r2 =>
                                 if negb (in_range 128 191 c2) then 1%nat
                                 else if (size =? 3)%nat then 3%nat
                                 else match r2 with
                                      | c3 :: _ =>
                                          if negb (in_range 128 191 c3)
                                          then 1%nat else 4%nat
                                      | [] => 1%nat
                                      end
                             | [] => 1%nat
                             end
                    | [] => 1%nat
                    end
           end
  end.

Fixpoint rune_count_fuel (fuel : nat) (s : gostring) : nat :=
  match fuel with
  | O => 0%nat
  | S fuel' =>
      match s with
      | [] => 0%nat
      | _ :: _ => S (rune_count_fuel fuel' (drop (utf8_rune_width s) s))
      end
  end.

Definition utf8_RuneCountInString (s : gostring) : nat :=
  rune_count_fuel (length s) s.

(** A verb with a width, [%10v]: spaces on the left up to [w] runes. *)
Definition pad_left (w : nat) (s : gostring) : gostring :=
  replicate (w - utf8_RuneCountInString s) " "%char ++ s.

Definition eol : gostring := [byte 13; byte 10].

(** ** [bufio.Scanner]

    The scanner is modelled by the input it has not yet consumed.  A
    split function is offered ever longer prefixes of that input with
    [atEOF = false] and, once the reader is exhausted, all of it with
    [atEOF = true]; the buffer never grows beyond [MaxScanTokenSize]
    bytes.  For the split functions used here (a token is cut at the
    first occurrence of a marker, and a split function that returns no
    token returns no advance) this is the same as offering the first
    [MaxScanTokenSize] bytes at once. *)

Definition SplitFunc := gostring -> bool -> Z * option gostring.

Definition MaxScanTokenSize : Z := 65536.

Inductive scan_error := ErrTooLong | ErrNegativeAdvance | ErrAdvanceTooFar.

Record Scanner := {
  sc_input : gostring;          (* buffered and unread input *)
  sc_token : gostring;          (* Text() *)
  sc_err : option scan_error    (* Err(); reaching the end is no error *)
}.

Definition NewScanner (data : gostring) : Scanner :=
  {| sc_input := data; sc_token := []; sc_err := None |}.

Definition Text (s : Scanner) : gostring := sc_token s.

Definition Err (s : Scanner) : option scan_error := sc_err s.

Definition setErr (s : Scanner) (e : scan_error) : option scan_error :=
  match sc_err s with
  | None => Some e
  | Some e0 => Some e0
  end.

(** [scanner.Scan()].  After an error the buffer is kept and no more
    input is read, so the next call offers the buffer with [atEOF]. *)
Definition Scan (split : SplitFunc) (s : Scanner) : bool * Scanner :=
  let window := take (Z.to_nat MaxScanTokenSize) (sc_input s) in
  let atEOF :=
    bool_decide (is_Some (sc_err s)) || (len (sc_input s) <? MaxScanTokenSize) in
  let '(advance, token) := split window atEOF in
  if advance <? 0 then
    (false, {| sc_input := window; sc_token := sc_token s;
               sc_err := setErr s ErrNegativeAdvance |})
  else if len window <? advance then
    (false, {| sc_input := window; sc_token := sc_token s;
               sc_err := setErr s ErrAdvanceTooFar |})
  else
    match token with
    | Some t =>
        (true, {| sc_input := drop (Z.to_nat advance) (sc_input s);
                  sc_token := t; sc_err := sc_err s |})
    | None =>
        if atEOF
        then (false, {| sc_input := []; sc_token := []; sc_err := sc_err s |})
        else (false, {| sc_input := window; sc_token := [];
                        sc_err := Some ErrTooLong |})
    end.

(** [bufio.ScanLines], the default split function. *)
Definition dropCR (data : gostring) : gostring :=
  match last data with
  | Some c => if Ascii.eqb c (byte 13) then removelast data else data
  | None => data
  end.

Definition ScanLines : SplitFunc := fun data atEOF =>
  if atEOF && (len data =? 0) then (0, None)
  else
    let i := strings_Index data [byte 10] in
    if 0 <=? i then (i + 1, Some (dropCR (take (Z.to_nat i) data)))
    else if atEOF then (len data, Some (dropCR data))
    else (0, None).

(** [for scanner.Scan() { body(scanner.Text()) }]: the tokens in order,
    and the scanner the loop leaves behind.  [None] if [fuel] calls did
    not reach the end of the input. *)
Fixpoint scan_loop (fuel : nat) (split : SplitFunc) (s : Scanner)
  : option (list gostring * Scanner) :=
  match fuel with
  | O => None
  | S fuel' =>
      let '(more, s') := Scan split s in
      if more then
        match scan_loop fuel' split s' with
        | Some (toks, s'') => Some (Text s' :: toks, s'')
        | None => None
        end
      else Some ([], s')
  end.

(** Every split function of this program advances by at least one byte
    with each token, so one call more than there are bytes suffices. *)
Definition scan_all (split : SplitFunc) (s : Scanner)
  : option (list gostring * Scanner) :=
  scan_loop (S (length (sc_input s))) split s.

(** ** Data model *)

Module PlayerResult.
Record t := mk {
  Name : gostring;      (* used as key *)
  OOMPoints : Z;
  Rank : Z;
  Result : gostring     (* the result as displayed on the web *)
}.
End PlayerResult.

Module Competition.
Record t := mk {
  Key : gostring;
  Name : gostring;
  Date : gostring;
  URL : gostring;
  NumPlayers : Z;
  Results : gmap gostring PlayerResult.t   (* keyed by player name *)
}.
End Competition.

(** [Competition{Key: compid}]: every other field has its zero value. *)
Definition new_competition (key : gostring) : Competition.t :=
  Competition.mk key [] [] [] 0 ∅.

(** ** Extracting a player's name and result from a fragment *)

Definition playerDetail (s : gostring) : result (gostring * gostring) :=
  let start := strings_Index s ">" in
  let end_ := strings_Index s "</a>" in
  name ← slice s (start + 1) end_;
  s1 ← slice_from s end_;
  let end1 := strings_Index s1 "</a></td>" in
  s2 ← slice_to s1 end1;
  let start2 := strings_LastIndex s2 ">" in
  score ← slice_from s2 (start2 + 1);
  Ok (name, score).

Definition champDetail (s : gostring) : result (gostring * gostring) :=
  let start := strings_Index s ">" in
  let end0 := strings_Index s "<" in
  let end2 := strings_Index s "(" in
  let end_ := if negb (end2 =? -1) && (end2 <? end0) then end2 else end0 in
  name0 ← slice s (start + 1) end_;
  let name := strings_TrimSpace name0 in
  s1 ← slice_from s end_;
  let end1 := strings_Index s1 "</td></tr>" in
  if end1 =? -1 then Fail (OsExit (s1 ++ [byte 10]) 1)
  else
    s2 ← slice_to s1 end1;
    tl ← slice_from s2 (len s2 - 7);
    s3 ← (if bytes_eqb "</span>" tl then slice_to s2 (len s2 - 7) else Ok s2);
    let start3 := strings_LastIndex s3 ">" in
    score ← slice_from s3 (start3 + 1);
    Ok (name, if bytes_eqb "&nbsp;" score then "NS" : gostring else score).

(** ** Cutting a results page into fragments *)

(** [compSplitFunc] and [champSplitFunc] differ only in the marker they
    look for.  The token ends before the marker, and the scanner advances
    one byte into it, so the next search finds the following marker. *)
Definition marker_split (marker : gostring) : SplitFunc := fun data atEOF =>
  if atEOF && (len data =? 0) then (0, None)
  else
    let i := strings_Index data marker in
    if 0 <=? i then (i + 1, Some (take (Z.to_nat i) data))
    else if atEOF then (len data, Some data)
    else (0, None).

Definition compSplitFunc : SplitFunc := marker_split "?playerid=".

Definition dquote : ascii := byte 34.

Definition namecol_marker : gostring :=
  "class=" ++ dquote :: "namecol" ++ dquote :: ">".

Definition champSplitFunc : SplitFunc := marker_split namecol_marker.

(** ** Scoring a results page *)

(** The state of the scanning loop of [populateResultsFromWeb]. *)
Record scan_state := {
  first : bool;
  numPlayers : Z;
  res : list PlayerResult.t
}.

(** One turn of [for scanner.Scan() { ... }] on the token [text]. *)
Definition scan_body (detail : gostring -> result (gostring * gostring))
    (st : scan_state) (text : gostring) : result scan_state :=
  if first st then
    Ok {| first := false; numPlayers := numPlayers st; res := res st |}
  else
    let n := numPlayers st + 1 in
    '(name, score) ← detail text;
    Ok {| first := false; numPlayers := n;
          res := res st ++ [PlayerResult.mk name 0 n score] |}.

Fixpoint scan_players (detail : gostring -> result (gostring * gostring))
    (st : scan_state) (toks : list gostring) : result scan_state :=
  match toks with
  | [] => Ok st
  | text :: toks' =>
      st' ← scan_body detail st text;
      scan_players detail st' toks'
  end.

(** The body of [for n, p := range res]: the entry as it is stored. *)
Definition score_entry (numPlayers n : Z) (p : PlayerResult.t)
  : PlayerResult.t :=
  let points := numPlayers - n in
  let points := if snd (strconv_Atoi (PlayerResult.Result p))
                then points else 0 in   (* DQ, NR... *)
  PlayerResult.mk (PlayerResult.Name p) points
                  (PlayerResult.Rank p) (PlayerResult.Result p).

Fixpoint store_results (numPlayers n : Z) (res : list PlayerResult.t)
    (m : gmap gostring PlayerResult.t) : gmap gostring PlayerResult.t :=
  match res with
  | [] => m
  | p :: res' =>
      store_results numPlayers (n + 1) res'
        (<[PlayerResult.Name p := score_entry numPlayers n p]> m)
  end.

(** The entries in page order, as scored by the second loop. *)
Fixpoint scored (numPlayers n : Z) (res : list PlayerResult.t)
  : list PlayerResult.t :=
  match res with
  | [] => []
  | p :: res' => score_entry numPlayers n p :: scored numPlayers (n + 1) res'
  end.

(** The fragments of a page: the tokens of the scanner with the layout's
    split function, the first of which is the page header. *)
Definition is_standard (data : gostring) : bool :=
  negb (strings_Index data "?playerid=" =? -1).

Definition page_tokens (data : gostring) : option (list gostring) :=
  let splitfn := if is_standard data then compSplitFunc else champSplitFunc in
  fst <$> scan_all splitfn (NewScanner data).

(** [populateResultsFromWeb] once the page [data] has been fetched. *)
Definition populate_from_page (comp : Competition.t) (data : gostring)
  : result Competition.t :=
  let detail := if is_standard data then playerDetail else champDetail in
  match page_tokens data with
  | None => Fail OutOfFuel
  | Some toks =>
      st ← scan_players detail
             {| first := true; numPlayers := 0; res := [] |} toks;
      Ok (Competition.mk (Competition.Key comp) (Competition.Name comp)
            (Competition.Date comp) (Competition.URL comp)
            (numPlayers st)
            (store_results (numPlayers st) 0 (res st) ∅))
  end.

(** ** The per-competition cache file *)

(** [strings.TrimSpace(strings.Split(line, ",")[i])]. *)
Definition field (line : gostring) (i : nat) : result gostring :=
  x ← index_at (strings_Split line ","%char) i;
  Ok (strings_TrimSpace x).

(** [for scanner.Text()[0:1] == "#" { _ = scanner.Scan() }]. *)
Fixpoint skip_comments (fuel : nat) (sc : Scanner) : result Scanner :=
  match fuel with
  | O => Fail OutOfFuel
  | S fuel' =>
      h ← slice (Text sc) 0 1;
      if bytes_eqb h "#" then skip_comments fuel' (snd (Scan ScanLines sc))
      else Ok sc
  end.

(** One player row of the cache file. *)
Definition read_row (text : gostring) : result PlayerResult.t :=
  let s := strings_Split text ","%char in
  s3 ← index_at s 3;
  s2 ← index_at s 2;
  rank ← field text 1;
  points ← field text 0;
  Ok (PlayerResult.mk (strings_TrimSpace s3) (fst (strconv_Atoi points))
        (fst (strconv_Atoi rank)) (strings_TrimSpace s2)).

Fixpoint read_rows (rows : list gostring) (m : gmap gostring PlayerResult.t)
  : result (gmap gostring PlayerResult.t) :=
  match rows with
  | [] => Ok m
  | text :: rows' =>
      p ← read_row text;
      read_rows rows' (<[PlayerResult.Name p := p]> m)
  end.

(** [readCached] once the file has been opened, on its content. *)
Definition parse_cache (content : gostring) : result Competition.t :=
  let sc := snd (Scan ScanLines (NewScanner content)) in
  sc ← skip_comments (S (S (length content))) sc;
  key ← field (Text sc) 1;
  let sc := snd (Scan ScanLines sc) in
  name ← field (Text sc) 1;
  let sc := snd (Scan ScanLines sc) in
  date ← field (Text sc) 1;
  let sc := snd (Scan ScanLines sc) in
  url ← field (Text sc) 1;
  let sc := snd (Scan ScanLines sc) in
  n ← field (Text sc) 1;
  let sc := snd (Scan ScanLines sc) in   (* ignore the header row *)
  match scan_all ScanLines sc with
  | None => Fail OutOfFuel
  | Some (rows, sc') =>
      results ← read_rows rows ∅;
      match Err sc' with
      | Some _ => Fail (LogFatal FatalScan)
      | None =>
          Ok (Competition.mk key name date url (fst (strconv_Atoi n)) results)
      end
  end.

(** One row as [saveComp] prints it:
    [Sprintf("%10v, %12v, %8v, %v, %s", OOMPoints, Rank, Result, Name, eol)]. *)
Definition format_row (p : PlayerResult.t) : gostring :=
  pad_left 10 (format_int (PlayerResult.OOMPoints p)) ++ ", " ++
  pad_left 12 (format_int (PlayerResult.Rank p)) ++ ", " ++
  pad_left 8 (PlayerResult.Result p) ++ ", " ++
  PlayerResult.Name p ++ ", " ++ eol.

Definition header_row : gostring :=
  "oom_points, rank_in_comp, igresult, name - row per player".

(** The order in which the runtime visits a map in a [range] loop: some
    rearrangement of its entries, not fixed by the language. *)
Definition range_order : Type :=
  forall V : Type, list (gostring * V) -> list (gostring * V).

Definition valid_order (ord : range_order) : Prop :=
  forall V (l : list (gostring * V)), ord V l ≡ₚ l.

Definition range_map {V} (ord : range_order) (m : gmap gostring V)
  : list (gostring * V) :=
  ord V (map_to_list m).

(** What [saveComp] writes. *)
Definition cache_text (ord : range_order) (comp : Competition.t) : gostring :=
  "key, " ++ Competition.Key comp ++ eol ++
  "name, " ++ Competition.Name comp ++ eol ++
  "date, " ++ Competition.Date comp ++ eol ++
  "url, " ++ Competition.URL comp ++ eol ++
  "number of players, " ++ format_int (Competition.NumPlayers comp) ++ eol ++
  header_row ++ eol ++
  concat (map (fun kp => format_row (snd kp))
              (range_map ord (Competition.Results comp))).

(** ** Files and the network *)

Record World := {
  files : gmap gostring gostring;      (* the working directory *)
  web : gostring -> option gostring;   (* the page at a URL, if it can be fetched *)
  fetched : list gostring              (* calls of MustFetch, latest first *)
}.

Definition M (A : Type) : Type := World -> result A * World.

Global Instance M_ret : MRet M := fun A a w => (Ok a, w).
Global Instance M_bind : MBind M := fun A B k m w =>
  match m w with
  | (Ok a, w') => k a w'
  | (Fail f, w') => (Fail f, w')
  end.

Definition lift {A} (r : result A) : M A := fun w => (r, w).

Definition ReadFile (fname : gostring) : M (option gostring) :=
  fun w => (Ok (files w !! fname), w).

Definition WriteFile (fname data : gostring) : M unit :=
  fun w => (Ok tt, {| files := <[fname := data]> (files w);
                      web := web w; fetched := fetched w |}).

(** [MustFetch]: the page, or the run dies. *)
Definition MustFetch (urlString : gostring) : M gostring :=
  fun w =>
    let w' := {| files := files w; web := web w;
                 fetched := urlString :: fetched w |} in
    match web w urlString with
    | Some data => (Ok data, w')
    | None => (Fail (LogFatal FatalFetch), w')
    end.

Definition cache_name (key : gostring) : gostring := key ++ ".txt".

(** [readCached]: [None] stands for the result [false]. *)
Definition readCached (comp : Competition.t) : M (option Competition.t) :=
  f ← ReadFile (cache_name (Competition.Key comp));
  match f with
  | None => mret None
  | Some content => c ← lift (parse_cache content); mret (Some c)
  end.

Definition saveComp (ord : range_order) (comp : Competition.t) : M unit :=
  WriteFile (cache_name (Competition.Key comp)) (cache_text ord comp).

Definition populateResultsFromWeb (comp : Competition.t) : M Competition.t :=
  data ← MustFetch (Competition.URL comp);
  lift (populate_from_page comp data).

Definition Load (ord : range_order) (comp : Competition.t) : M Competition.t :=
  if bytes_eqb (Competition.Key comp) "" then lift (Fail (LogFatal FatalNullKey))
  else
    cached ← readCached comp;
    match cached with
    | Some c => mret c
    | None =>
        c ← populateResultsFromWeb comp;
        _ ← saveComp ord c;
        mret c
    end.

(** ** The list of competitions of interest *)

(** The loop of [endInt], on the bytes from [start] on. *)
Fixpoint endInt_from (rest : gostring) (start : Z) : Z :=
  match rest with
  | c :: rest' => if is_digit c then endInt_from rest' (start + 1) else start
  | [] => start
  end.

Definition endInt (s : gostring) (start : Z) : Z :=
  endInt_from (drop (Z.to_nat start) s) start.

Definition parseNextCompKey (s : gostring) (from : Z) : result (gostring * Z) :=
  let tok : gostring := "?compid=" in
  sub ← slice_from s from;
  let start := strings_Index sub tok in
  if start =? -1 then Ok ([], -1)
  else
    let start := start + (from + len tok) in
    let end_ := endInt s start in
    key ← slice s start end_;
    Ok (key, end_).

(** What the program reads of the value of [url.Parse]: its scheme.
    [url.Parse] itself is a parameter of the functions below ([None] for
    a non-nil error). *)
Record URL := { Scheme : gostring }.

Definition url_parser : Type := gostring -> option URL.

(** The body of the loop of [parseKeysFromFile] on one line: the
    descriptor to append, if any. *)
Definition parse_key_line (url_Parse : url_parser) (text : gostring)
  : result (option Competition.t) :=
  '(compid, _) ← parseNextCompKey text 0;
  if bytes_eqb compid "" then Ok None
  else
    s ← field text 1;
    let url : gostring :=
      match url_Parse s with
      | Some u => if bytes_eqb (Scheme u) "http" then s else []
      | None => []
      end in
    Ok (Some (Competition.mk compid [] [] url 0 ∅)).

Fixpoint parse_key_lines (url_Parse : url_parser) (lines : list gostring)
    (ret : list Competition.t) : result (list Competition.t) :=
  match lines with
  | [] => Ok ret
  | text :: lines' =>
      d ← parse_key_line url_Parse text;
      parse_key_lines url_Parse lines'
        (match d with Some desc => ret ++ [desc] | None => ret end)
  end.

(** [parseKeysFromFile] on the content of the file. *)
Definition parse_keys (url_Parse : url_parser) (content : gostring)
  : result (list Competition.t) :=
  match scan_all ScanLines (NewScanner content) with
  | None => Fail OutOfFuel
  | Some (lines, sc) =>
      ret ← parse_key_lines url_Parse lines [];
      match Err sc with
      | Some _ => Fail (LogFatal FatalScan)
      | None => Ok ret
      end
  end.

Definition parseKeysFromFile (url_Parse : url_parser) (fname : gostring)
  : M (list Competition.t) :=
  f ← ReadFile fname;
  match f with
  | None => lift (Fail (LogFatal FatalOpen))
  | Some content => lift (parse_keys url_Parse content)
  end.

(** ** The listing of all competitions *)

Definition tokenStart (s tok : gostring) : Z :=
  let i := strings_Index s tok in
  if i =? -1 then -1 else i + len tok.

Definition tokenEnd (s : gostring) (start : Z) (terminator : gostring)
  : result Z :=
  sub ← slice_from s start;
  let i := strings_Index sub terminator in
  Ok (if i =? -1 then -1 else start + i).

Definition comp_url_prefix : gostring :=
  "http://www.colchestergolfclub.com/competition.php?compid=".

Fixpoint parseWebComps_loop (fuel : nat) (compstr : gostring)
    (ret : gmap gostring Competition.t) : result (gmap gostring Competition.t) :=
  match fuel with
  | O => Fail OutOfFuel
  | S fuel' =>
      let start := tokenStart compstr "?compid=" in
      if start =? -1 then Ok ret
      else
        end_ ← tokenEnd compstr start [dquote];
        compid ← slice compstr start end_;
        compstr ← slice_from compstr end_;
        let start := tokenStart compstr (dquote :: ">") in
        end_ ← tokenEnd compstr start "</a>";
        compname ← slice compstr start end_;
        compstr ← slice_from compstr end_;
        let start := tokenStart compstr "<td>" in
        end_ ← tokenEnd compstr start "</td>";
        compdate ← slice compstr start end_;
        compstr ← slice_from compstr end_;
        parseWebComps_loop fuel' compstr
          (<[compid := Competition.mk compid compname compdate
                         (comp_url_prefix ++ compid) 0 ∅]> ret)
  end.

(** Every turn of the loop drops at least the marker it found. *)
Definition parseWebComps (compstr : gostring)
  : result (gmap gostring Competition.t) :=
  parseWebComps_loop (S (length compstr)) compstr ∅.

Definition listing_cache_name (year : Z) : gostring :=
  "all_comps_" ++ format_int year ++ ".dat".

Definition listing_url (year : Z) : gostring :=
  "http://www.colchestergolfclub.com/competition.php?showall=1&time=&show=&year="
  ++ format_int year.

Definition fetchAllCompsPage (year : Z) (useCached : bool)
  : M (gostring * bool) :=
  cached ← (if useCached then ReadFile (listing_cache_name year)
            else mret None);
  match cached with
  | Some d1 => mret (d1, true)
  | None =>
      d ← MustFetch (listing_url year);
      _ ← WriteFile (listing_cache_name year) d;
      mret (d, false)
  end.

(** ** Resolving the descriptors *)

(** The first key of [c] that is not in [m]. *)
Fixpoint firstMissingKey (c : list Competition.t)
    (m : gmap gostring Competition.t) : bool * gostring :=
  match c with
  | [] => (false, [])
  | cComp :: c' =>
      match m !! Competition.Key cComp with
      | None => (true, Competition.Key cComp)
      | Some _ => firstMissingKey c' m
      end
  end.

(** The body of the inner loop: [cur] is [oomCompetitions[n]], [key] the
    key of the loop's copy of it. *)
Definition update_desc (key : gostring) (cur competition : Competition.t)
  : Competition.t :=
  if bytes_eqb key (Competition.Key competition) then
    Competition.mk (Competition.Key cur)
      (Competition.Name competition) (Competition.Date competition)
      (if bytes_eqb (Competition.URL cur) ""
       then Competition.URL competition ++ "&sort=1"
       else Competition.URL cur)
      (Competition.NumPlayers cur) (Competition.Results cur)
  else cur.

Definition update_descs (ord : range_order)
    (allCompetitions : gmap gostring Competition.t)
    (oomCompetitions : list Competition.t) : list Competition.t :=
  map (fun oomCompetition =>
         fold_left (fun cur kv => update_desc (Competition.Key oomCompetition)
                                    cur (snd kv))
                   (range_map ord allCompetitions) oomCompetition)
      oomCompetitions.

Definition FetchCompDescriptions (ord : range_order) (url_Parse : url_parser)
    (year : Z) (fname : gostring) : M (list Competition.t) :=
  oomCompetitions ← parseKeysFromFile url_Parse fname;
  '(d, fromCache) ← fetchAllCompsPage year true;
  allCompetitions ← lift (parseWebComps d);
  let '(missing, missingKey) := firstMissingKey oomCompetitions allCompetitions in
  if missing && negb fromCache then
    lift (Fail (LogFatal (FatalMissingComp missingKey)))
  else
    allCompetitions ←
      (if missing && fromCache then
         '(d, fromCache) ← fetchAllCompsPage year false;
         allCompetitions ← lift (parseWebComps d);
         let '(missing, missingKey) :=
           firstMissingKey oomCompetitions allCompetitions in
         if missing && negb fromCache then
           lift (Fail (LogFatal (FatalMissingComp missingKey)))
         else mret allCompetitions
       else mret allCompetitions);
    mret (update_descs ord allCompetitions oomCompetitions).

(** ** Dispatching the loads ([main])

    The dispatch loop, its goroutines and the two buffered channels as a
    transition system: one step is one channel operation, one [go]
    statement, or the start or the end of one call of [oom.Load], taken by
    whichever of [main] and the goroutines the scheduler picks.  A channel
    of [int]s that only ever carries 1 is the number of values it
    buffers. *)

Definition slots_capacity : nat := 10.   (* make(chan int, 10) *)

(** Where a goroutine stands. *)
Inductive task_pc :=
  | TStart        (* started, [oom.Load] not yet called *)
  | TLoading      (* inside [oom.Load(comp)] *)
  | TLoaded       (* [Load] has returned; about to [completed <- 1] *)
  | TSignalled    (* about to [<- slots] *)
  | TDone.        (* slot released *)

(** Where [main] stands. *)
Inductive main_pc :=
  | MSend (i : nat)   (* top of the first loop with index [i] *)
  | MGo (i : nat)     (* [slots <- 1] done; about to start goroutine [i] *)
  | MWait (j : nat)   (* in the second loop, [j] values received *)
  | MPast.            (* past the second loop *)

Record sched := {
  main : main_pc;
  tasks : list task_pc;   (* the goroutines started so far, in order *)
  slots : nat;            (* values buffered in [slots] *)
  completed : nat;        (* values buffered in [completed] *)
  aborted : bool          (* a [Load] ended the process *)
}.

Definition sched_init : sched :=
  {| main := MSend 0; tasks := []; slots := 0; completed := 0;
     aborted := false |}.

(** [n] is [len(theOOM.Competitions)], also the capacity of [completed]. *)
Inductive step (n : nat) : sched -> sched -> Prop :=
  | step_send i ts sl c :
      (i < n)%nat -> (sl < slots_capacity)%nat ->
      step n (Build_sched (MSend i) ts sl c false)
             (Build_sched (MGo i) ts (S sl) c false)
  | step_go i ts sl c :
      step n (Build_sched (MGo i) ts sl c false)
             (Build_sched (MSend (S i)) (ts ++ [TStart]) sl c false)
  | step_leave i ts sl c :
      ¬ (i < n)%nat ->
      step n (Build_sched (MSend i) ts sl c false)
             (Build_sched (MWait 0) ts sl c false)
  | step_call m ts k sl c :
      ts !! k = Some TStart ->
      step n (Build_sched m ts sl c false)
             (Build_sched m (<[k := TLoading]> ts) sl c false)
  | step_return m ts k sl c :
      ts !! k = Some TLoading ->
      step n (Build_sched m ts sl c false)
             (Build_sched m (<[k := TLoaded]> ts) sl c false)
  | step_fatal m ts k sl c :
      ts !! k = Some TLoading ->
      step n (Build_sched m ts sl c false)
             (Build_sched m ts sl c true)
  | step_signal m ts k sl c :
      ts !! k = Some TLoaded -> (c < n)%nat ->
      step n (Build_sched m ts sl c false)
             (Build_sched m (<[k := TSignalled]> ts) sl (S c) false)
  | step_release m ts k sl c :
      ts !! k = Some TSignalled ->
      step n (Build_sched m ts (S sl) c false)
             (Build_sched m (<[k := TDone]> ts) sl c false)
  | step_receive j ts sl c :
      (j < n)%nat ->
      step n (Build_sched (MWait j) ts sl (S c) false)
             (Build_sched (MWait (S j)) ts sl c false)
  | step_join j ts sl c :
      ¬ (j < n)%nat ->
      step n (Build_sched (MWait j) ts sl c false)
             (Build_sched MPast ts sl c false).

Definition reachable (n : nat) (s : sched) : Prop := rtc (step n) sched_init s.

Definition is_loading (t : task_pc) : bool :=
  match t with TLoading => true | _ => false end.

Definition holds_slot (t : task_pc) : bool :=
  match t with TDone => false | _ => true end.

Definition has_signalled (t : task_pc) : bool :=
  match t with TSignalled | TDone => true | _ => false end.

Fixpoint count_tasks (f : task_pc -> bool) (ts : list task_pc) : nat :=
  match ts with
  | [] => 0%nat
  | t :: ts' => ((if f t then 1 else 0) + count_tasks f ts')%nat
  end.

(** The calls of [oom.Load] in progress. *)
Definition in_flight (s : sched) : nat := count_tasks is_loading (tasks s).

Definition received (m : main_pc) (n : nat) : nat :=
  match m with
  | MSend _ | MGo _ => 0%nat
  | MWait j => j
  | MPast => n
  end.

(** What every reachable state of the dispatch satisfies. *)
Record sched_inv (n : nat) (s : sched) : Prop := {
  inv_slots :
    slots s = (count_tasks holds_slot (tasks s)
               + match main s with MGo _ => 1 | _ => 0 end)%nat;
  inv_cap : (slots s <= slots_capacity)%nat;
  inv_started :
    match main s with
    | MSend i => length (tasks s) = i /\ (i <= n)%nat
    | MGo i => length (tasks s) = i /\ (i < n)%nat
    | MWait j => length (tasks s) = n /\ (j <= n)%nat
    | MPast => length (tasks s) = n
    end;
  inv_completed :
    (completed s + received (main s) n)%nat
    = count_tasks has_signalled (tasks s);
  inv_aborted :
    aborted s = true -> exists k, tasks s !! k = Some TLoading
}.

(** [tok] occurs in [s]. *)
Definition occurs (tok s : gostring) : Prop :=
  exists pre post : gostring, s = pre ++ tok ++ post.

(** The first occurrence: [tok] starts right after [pre] and nowhere
    earlier. *)
Definition first_occurrence (tok pre s : gostring) : Prop :=
  has_prefix tok (drop (length pre) s) = true /\
  take (length pre) s = pre /\
  forall k, (k < length pre)%nat -> has_prefix tok (drop k s) = false.

(** The text after the last [>] of [s], all of [s] when it has none. *)
Definition after_last_gt (s res : gostring) : Prop :=
  (">"%char ∉ res) /\ (s = res \/ exists body, s = body ++ ">" ++ res).

(** [s] with the suffix [suf] removed if it ends with it. *)
Definition without_suffix (suf s s' : gostring) : Prop :=
  s = s' ++ suf \/ (¬ (suf `suffix_of` s) /\ s' = s).

(** A row of a championship page, as [champSplitFunc] cuts it. *)
Definition champ_fragment_example : gostring :=
  "lass=" ++ dquote :: "namecol" ++ dquote ::
  ">Jo Mager (16)</td><td>75</td></tr>".

(** A split function under which every token consumes input. *)
Definition advancing (split : SplitFunc) : Prop :=
  forall s s', Scan split s = (true, s') ->
               (length (sc_input s') < length (sc_input s))%nat.

(** The layout's extractor, as [populateResultsFromWeb] selects it. *)
Definition page_detail (data : gostring)
  : gostring -> result (gostring * gostring) :=
  if is_standard data then playerDetail else champDetail.

(** The last entry of [es] that carries the name [name]. *)
Definition last_named (name : gostring) (es : list PlayerResult.t)
  : option PlayerResult.t :=
  last (filter (fun e => PlayerResult.Name e = name) es).

(** A standard-format page with three players, in finishing order. *)
Definition standard_page_example : gostring :=
  "<html><table><tr><td><a href=" ++ dquote :: "viewplayer.php?playerid=1" ++
  dquote :: ">Alice</a>(16)</td><td><a href=x>72</a></td><td></td></tr>" ++
  "<tr><td><a href=" ++ dquote :: "viewplayer.php?playerid=2" ++
  dquote :: ">Bob</a>(9)</td><td><a href=x>75</a></td><td></td></tr>" ++
  "<tr><td><a href=" ++ dquote :: "viewplayer.php?playerid=3" ++
  dquote :: ">Carol</a>(20)</td><td><a href=x>DQ</a></td><td></td></tr>".

(** A page on which one name appears twice. *)
Definition repeated_name_page : gostring :=
  "<table>?playerid=1>Ann</a><a>70</a></td>?playerid=2>Ann</a><a>71</a></td>".

(** Every key requested is in the listing. *)
Definition all_listed (c : list Competition.t)
    (m : gmap gostring Competition.t) : Prop :=
  Forall (fun d => is_Some (m !! Competition.Key d)) c.

(** The world after one live fetch of the listing: the page is in the
    cache file and the fetch is on record. *)
Definition fetched_listing (year : Z) (d : gostring) (w : World) : World :=
  {| files := <[listing_cache_name year := d]> (files w); web := web w;
     fetched := listing_url year :: fetched w |}.

(** Every entry of the listing sits under its own key. *)
Definition keyed (m : gmap gostring Competition.t) : Prop :=
  forall k e, m !! k = Some e -> Competition.Key e = k.

(** The descriptor [d] once resolved against the listing entry [e]. *)
Definition resolved (d e : Competition.t) : Competition.t :=
  Competition.mk (Competition.Key d) (Competition.Name e) (Competition.Date e)
    (if decide (Competition.URL d = []) then Competition.URL e ++ "&sort=1"
     else Competition.URL d)
    (Competition.NumPlayers d) (Competition.Results d).

(** A run of the design document's scenario: the configuration asks for
    100 and 200, the cached listing is stale and has only 100, the live
    listing has both. *)
Definition identity_order : range_order := fun V l => l.

Definition example_url_Parse : url_parser := fun s =>
  Some {| Scheme := if has_prefix "http:" s then "http" : gostring else [] |}.

Definition listing_row (id name date : gostring) : gostring :=
  "<tr><td><a href=" ++ dquote :: "competition.php?compid=" ++ id ++
  dquote :: ">" ++ name ++ "</a></td><td>" ++ date ++ "</td></tr>".

Definition stale_listing : gostring :=
  listing_row "100" "Monthly Medal" "Sat 2nd April".

Definition live_listing : gostring :=
  listing_row "100" "Monthly Medal" "Sat 2nd April" ++
  listing_row "200" "Spring Open" "Sun 8th May".

Definition example_conf_lines : list gostring :=
  [ "monthly medal, ?compid=100" : gostring;
    "spring open, http://www.colchestergolfclub.com/competition.php?compid=200&sort=0"
    : gostring;
    "winter league: no results page yet" : gostring ].

Definition example_conf : gostring :=
  concat (map (fun l => l ++ [byte 10]) example_conf_lines).

Definition stale_world : World :=
  {| files := {[ ("oom.conf" : gostring) := example_conf;
                 listing_cache_name 2016 := stale_listing ]};
     web := fun u => if bytes_eqb u (listing_url 2016)
                     then Some live_listing else None;
     fetched := [] |}.

Definition LF : ascii := byte 10.

(** A line the scanner can return: no line feed in it, and the line feed
    that ends it within the first [MaxScanTokenSize] bytes. *)
Definition fits (l : gostring) : Prop :=
  (LF ∉ l) /\ len l < MaxScanTokenSize.

Definition unlines (ls : list gostring) : gostring :=
  concat (map (fun l => l ++ [LF]) ls).

Definition scanner_at (input tok : gostring) : Scanner :=
  {| sc_input := input; sc_token := tok; sc_err := None |}.

Definition compid_tok : gostring := "?compid=".

(** [post] does not go on with a digit. *)
Definition no_digit_ahead (post : gostring) : Prop :=
  forall c post', post = c :: post' -> is_digit c = false.

(** The line holds the identifier [digits]: the digits that follow the
    first [?compid=]. *)
Definition identifier (line digits : gostring) : Prop :=
  exists pre post,
    line = pre ++ compid_tok ++ digits ++ post /\
    first_occurrence compid_tok pre line /\
    digits <> [] /\ Forall (fun c => is_digit c = true) digits /\
    no_digit_ahead post.

(** The line holds no identifier: no [?compid=], or no digit after the
    first one. *)
Definition unidentified (line : gostring) : Prop :=
  ¬ occurs compid_tok line \/
  exists pre post,
    line = pre ++ compid_tok ++ post /\
    first_occurrence compid_tok pre line /\ no_digit_ahead post.

(** What a line of the configuration contributes. *)
Definition line_result (url_Parse : url_parser) (line : gostring)
    (o : option Competition.t) : Prop :=
  (unidentified line /\ o = None) \/
  (exists digits second url,
     identifier line digits /\
     strings_Split line ","%char !! 1%nat = Some second /\
     ((exists u, url_Parse (strings_TrimSpace second) = Some u /\
                 Scheme u = "http") ->
      url = strings_TrimSpace second) /\
     (¬ (exists u, url_Parse (strings_TrimSpace second) = Some u /\
                   Scheme u = "http") -> url = []) /\
     o = Some (Competition.mk digits [] [] url 0 ∅)).

(** ** What a cache file says *)

(** The entries [ps] stored one after the other under their names. *)
Definition insert_all (ps : list PlayerResult.t)
    (m : gmap gostring PlayerResult.t) : gmap gostring PlayerResult.t :=
  fold_left (fun m p => <[PlayerResult.Name p := p]> m) ps m.

(** A player row: points, rank, result, name, separated by commas. *)
Definition row_describes (row : gostring) (p : PlayerResult.t) : Prop :=
  field row 3 = Ok (PlayerResult.Name p) /\
  field row 2 = Ok (PlayerResult.Result p) /\
  (exists r, field row 1 = Ok r /\
             PlayerResult.Rank p = fst (strconv_Atoi r)) /\
  (exists q, field row 0 = Ok q /\
             PlayerResult.OOMPoints p = fst (strconv_Atoi q)).

Definition comment_line (l : gostring) : Prop :=
  exists r, l = "#"%char :: r.

Definition data_line (l : gostring) : Prop :=
  exists c r, l = c :: r /\ c <> "#"%char.

(** The file [content] is a record of the competition [c]: comment
    lines, then the five labelled fields, the header line, and one row
    per player; the value of a field is what stands between the first and
    the second comma of its line, trimmed. *)
Definition describes (content : gostring) (c : Competition.t) : Prop :=
  exists comments kl nl dl ul cl hl rows (ps : list PlayerResult.t) n,
    content = unlines (comments ++ kl :: nl :: dl :: ul :: cl :: hl :: rows) /\
    Forall fits (comments ++ kl :: nl :: dl :: ul :: cl :: hl :: rows) /\
    Forall (fun l => comment_line (dropCR l)) comments /\
    data_line (dropCR kl) /\
    field (dropCR kl) 1 = Ok (Competition.Key c) /\
    field (dropCR nl) 1 = Ok (Competition.Name c) /\
    field (dropCR dl) 1 = Ok (Competition.Date c) /\
    field (dropCR ul) 1 = Ok (Competition.URL c) /\
    field (dropCR cl) 1 = Ok n /\
    Competition.NumPlayers c = fst (strconv_Atoi n) /\
    Forall2 row_describes (map dropCR rows) ps /\
    Competition.Results c = insert_all ps ∅.

(** The world after [MustFetch url]. *)
Definition after_fetch (url : gostring) (w : World) : World :=
  {| files := files w; web := web w; fetched := url :: fetched w |}.

(** The world after [saveComp]. *)
Definition after_save (ord : range_order) (c : Competition.t) (w : World)
  : World :=
  {| files := <[cache_name (Competition.Key c) := cache_text ord c]> (files w);
     web := web w; fetched := fetched w |}.

(** A cache file edited by hand, and a directory that holds it; nothing
    can be fetched there. *)
Definition cache_file_example : gostring :=
  concat (map (fun l => l ++ eol)
    [ "# match play result entered by hand" : gostring;
      "key, 5462" : gostring;
      "name, Monthly Medal" : gostring;
      "date, Sat 2nd April" : gostring;
      "url, http://www.colchestergolfclub.com/competition.php?compid=5462&sort=1"
      : gostring;
      "number of players, 2" : gostring;
      header_row;
      "         2,            1,       72, Alice, " : gostring;
      "         1,            2,       75, Bob, " : gostring ]).

Definition cached_world : World :=
  {| files := {[ cache_name "5462" := cache_file_example ]};
     web := fun _ => None;
     fetched := [] |}.

Definition cached_competition : Competition.t :=
  Competition.mk "5462" "Monthly Medal" "Sat 2nd April"
    "http://www.colchestergolfclub.com/competition.php?compid=5462&sort=1" 2
    (<[("Bob" : gostring) := PlayerResult.mk "Bob" 1 2 "75"]>
       (<[("Alice" : gostring) := PlayerResult.mk "Alice" 2 1 "72"]> ∅)).

(** A cache file whose numbers were edited by hand: points that do not
    fit an [int], with a stray byte after them, and a rank that is no
    number. *)
Definition edited_cache_file : gostring :=
  concat (map (fun l => l ++ eol)
    [ "key, 9" : gostring;
      "name, Medal" : gostring;
      "date, Sat 2nd April" : gostring;
      "url, http://club/9" : gostring;
      "number of players, 1" : gostring;
      header_row;
      "99999999999999999999x, first, 72, Alice, " : gostring ]).

(** A directory without cache file, and the page on the web. *)
Definition uncached_world : World :=
  {| files := ∅;
     web := fun u => if bytes_eqb u "http://club/competition.php?compid=5462"
                     then Some standard_page_example else None;
     fetched := [] |}.

(** [c] begins none of the encodings [ws]. *)
Definition leads_none (ws : list gostring) (c : ascii) : bool :=
  forallb (fun w => match w with
                    | b :: _ => negb (Ascii.eqb b c)
                    | [] => false
                    end) ws.

(** A byte that neither begins nor ends the encoding of a white space
    character. *)
Definition word_byte (c : ascii) : bool :=
  leads_none white_space c && leads_none (map (@rev ascii) white_space) c.

Definition SP : ascii := " "%char.

Definition CR : ascii := byte 13.

Definition COMMA : ascii := ","%char.

(** A 64-bit [int]. *)
Definition is_int (n : Z) : Prop := - 2 ^ 63 <= n < 2 ^ 63.

(** The bytes of a formatted [int]. *)
Definition numeric_byte (c : ascii) : bool := is_digit c || Ascii.eqb c "-".

(** ** What can be written to a cache file and read back *)

(** Text that a field of the cache file gives back unchanged: no comma,
    no line feed, no white space at either end. *)
Definition clean (x : gostring) : Prop :=
  (COMMA ∉ x) /\ (LF ∉ x) /\ strings_TrimSpace x = x.

(** A row as [saveComp] prints it, without the line feed that ends it. *)
Definition row_line (p : PlayerResult.t) : gostring :=
  pad_left 10 (format_int (PlayerResult.OOMPoints p)) ++ ", " ++
  pad_left 12 (format_int (PlayerResult.Rank p)) ++ ", " ++
  pad_left 8 (PlayerResult.Result p) ++ ", " ++
  PlayerResult.Name p ++ ", " ++ [CR].

(** The lines of the file before the rows, and the rows in the order
    [ord]. *)
Definition cache_header (c : Competition.t) : list gostring :=
  [ "key, " ++ Competition.Key c ++ [CR];
    "name, " ++ Competition.Name c ++ [CR];
    "date, " ++ Competition.Date c ++ [CR];
    "url, " ++ Competition.URL c ++ [CR];
    "number of players, " ++ format_int (Competition.NumPlayers c) ++ [CR];
    header_row ++ [CR] ].

Definition cache_rows (ord : range_order) (c : Competition.t)
  : list gostring :=
  map (fun kp => row_line (snd kp)) (range_map ord (Competition.Results c)).

Record cacheable (c : Competition.t) : Prop := {
  clean_key : clean (Competition.Key c);
  clean_name : clean (Competition.Name c);
  clean_date : clean (Competition.Date c);
  clean_url : clean (Competition.URL c);
  int_players : is_int (Competition.NumPlayers c);
  clean_results :
    forall name p, Competition.Results c !! name = Some p ->
      PlayerResult.Name p = name /\
      clean (PlayerResult.Name p) /\ clean (PlayerResult.Result p) /\
      is_int (PlayerResult.Rank p) /\ is_int (PlayerResult.OOMPoints p)
}.

(** No line of the file is longer than the scanner's limit. *)
Definition lines_fit (ord : range_order) (c : Competition.t) : Prop :=
  Forall (fun l => len l < MaxScanTokenSize)
         (cache_header c ++ cache_rows ord c).

(** Another order in which a map may be visited. *)
Definition reverse_order : range_order := fun V l => rev l.

(** A competition whose name holds a comma. *)
Definition comma_competition : Competition.t :=
  Competition.mk "77" "Seniors Open, Round 2" "Sun 8th May" "http://club/77" 0 ∅.

(** A result of the program itself: not an artefact of a loop bound of
    this model. *)
Definition within_fuel {A} (r : result A) : Prop := r <> Fail OutOfFuel.

(** ** Measuring the dispatch *)

(** How far a goroutine and [main] are from their end, in steps. *)
Definition task_weight (t : task_pc) : nat :=
  match t with
  | TStart => 4 | TLoading => 3 | TLoaded => 2 | TSignalled => 1 | TDone => 0
  end.

Definition main_weight (n : nat) (m : main_pc) : nat :=
  match m with
  | MSend i => 6 * (n - i) + n + 2
  | MGo i => 6 * (n - i) + n + 1
  | MWait j => (n - j) + 1
  | MPast => 0
  end.

Definition sched_weight (n : nat) (s : sched) : nat :=
  if aborted s then 0
  else main_weight n (main s) + sum_list (map task_weight (tasks s)).


(** A task that has not signalled yet. *)
Definition can_move (t : task_pc) : bool :=
  match t with TStart | TLoading | TLoaded => true | _ => false end.

(** ** The shape of the listing page *)

(** Three steps of [parseWebComps] that belong together: find the
    terminator from [start] on, take the text before it, and go on from
    the terminator. *)
Definition take_until (compstr : gostring) (start : Z) (terminator : gostring)
  : result (gostring * gostring) :=
  end_ ← tokenEnd compstr start terminator;
  x ← slice compstr start end_;
  rest ← slice_from compstr end_;
  Ok (x, rest).

(** One turn of the loop of [parseWebComps]: the entry read and the text
    left. *)
Definition listing_entry (compstr : gostring)
  : result (Competition.t * gostring) :=
  '(compid, compstr) ←
    take_until compstr (tokenStart compstr "?compid=") [dquote];
  '(compname, compstr) ←
    take_until compstr (tokenStart compstr (dquote :: ">")) "</a>";
  '(compdate, compstr) ←
    take_until compstr (tokenStart compstr "<td>") "</td>";
  Ok (Competition.mk compid compname compdate (comp_url_prefix ++ compid) 0 ∅,
      compstr).

(** [s] is [a], then the first [tok] of [s], then [s1]. *)
Definition after (tok a s s1 : gostring) : Prop :=
  s = a ++ tok ++ s1 /\ first_occurrence tok a s.

(** [s] is [x] followed by [rest], which starts with the first
    [terminator] of [s]. *)
Definition cut (terminator x s rest : gostring) : Prop :=
  s = x ++ rest /\ first_occurrence terminator x s.

(** The text [compstr] starts with a row for the competition [id]:
    anything, [?compid=], the identifier up to the next double quote,
    anything up to the next double quote followed by [>], the name up to
    the next [</a>],
    anything up to the next [<td>], the date up to the next [</td>];
    [rest] is the text from that [</td>] on. *)
Definition row_of (compstr id name date rest : gostring) : Prop :=
  exists a s1 r1 q s2 r2 c s3,
    after "?compid=" a compstr s1 /\ cut [dquote] id s1 r1 /\
    after (dquote :: ">") q r1 s2 /\ cut "</a>" name s2 r2 /\
    after "<td>" c r2 s3 /\ cut "</td>" date s3 rest.

(** The text is a sequence of such rows, and holds no [?compid=] after
    the last of them. *)
Inductive rows_of : gostring -> list (gostring * gostring * gostring) -> Prop :=
  | rows_of_nil s : ¬ occurs "?compid=" s -> rows_of s []
  | rows_of_cons s id name date rest rows :
      row_of s id name date rest -> rows_of rest rows ->
      rows_of s ((id, name, date) :: rows).

Definition listing_item (r : gostring * gostring * gostring) : Competition.t :=
  let '(id, name, date) := r in
  Competition.mk id name date (comp_url_prefix ++ id) 0 ∅.

(** The map of the rows: a later row replaces an earlier one with the
    same identifier. *)
Definition listing_fold (rows : list (gostring * gostring * gostring))
    (ret : gmap gostring Competition.t) : gmap gostring Competition.t :=
  fold_left (fun m r => <[Competition.Key (listing_item r) := listing_item r]> m)
            rows ret.

(** [FetchAllCompDesc]: every competition of the listing, in the order
    in which the map is ranged over. *)
Definition FetchAllCompDesc (ord : range_order) (year : Z)
  : M (list Competition.t) :=
  '(d, _) ← fetchAllCompsPage year true;
  cMap ← lift (parseWebComps d);
  mret (map snd (range_map ord cMap)).

(** ** Loading twice, pages without players, short cache files *)

(** The marker that [populateResultsFromWeb] cuts the page [data] at. *)
Definition page_marker (data : gostring) : gostring :=
  if is_standard data then "?playerid=" else namecol_marker.

(** The scanner after its first call of [Scan] on the lines [ls]. *)
Definition scanned (ls : list gostring) : Scanner :=
  match ls with
  | [] => scanner_at [] []
  | l :: ls' => scanner_at (unlines ls') (dropCR l)
  end.

(** A page of the standard layout, and a directory in which the
    competition 5462 has been loaded from it. *)
Definition loaded_competition : Competition.t :=
  Competition.mk "5462" [] [] "http://club/competition.php?compid=5462" 3
    (<[("Carol" : gostring) := PlayerResult.mk "Carol" 0 3 "DQ"]>
       (<[("Bob" : gostring) := PlayerResult.mk "Bob" 2 2 "75"]>
          (<[("Alice" : gostring) := PlayerResult.mk "Alice" 3 1 "72"]> ∅))).

Definition loaded_world : World :=
  after_save identity_order loaded_competition
    (after_fetch "http://club/competition.php?compid=5462" uncached_world).

(** ** The order of merit (package [main]) *)

(** Arithmetic on a Go [int] wraps around at 64 bits. *)
Definition wrap_int (z : Z) : Z := (z + 2 ^ 63) mod 2 ^ 64 - 2 ^ 63.

Module PlayerOOM.
Record t := mk {
  Name : gostring;
  Rank : Z;
  OOMPoints : Z;
  NumCompetitions : Z;
  PlayerByComp : gmap gostring PlayerResult.t   (* keyed on comp key *)
}.
End PlayerOOM.

(** The body of the inner loop of [populateOOMWithCompetitions]: the
    result [result] of the player [name] in the competition [compKey]. *)
Definition add_result (compKey : gostring)
    (OOMResults : gmap gostring PlayerOOM.t)
    (entry : gostring * PlayerResult.t) : gmap gostring PlayerOOM.t :=
  let '(name, result) := entry in
  let playerOOM :=
    match OOMResults !! name with
    | Some p => p
    | None => PlayerOOM.mk name 0 0 0 ∅   (* not seen before *)
    end in
  <[name :=
      PlayerOOM.mk (PlayerOOM.Name playerOOM) (PlayerOOM.Rank playerOOM)
        (wrap_int (PlayerOOM.OOMPoints playerOOM
                   + PlayerResult.OOMPoints result))
        (wrap_int (PlayerOOM.NumCompetitions playerOOM + 1))
        (<[compKey := PlayerResult.mk name (PlayerResult.OOMPoints result)
                        (PlayerResult.Rank result)
                        (PlayerResult.Result result)]>
           (PlayerOOM.PlayerByComp playerOOM))]> OOMResults.

(** [populateOOMWithCompetitions]: the competitions in slice order, the
    results of each in the order the runtime ranges over the map. *)
Definition populateOOMWithCompetitions (ord : range_order)
    (Competitions : list Competition.t) : gmap gostring PlayerOOM.t :=
  fold_left
    (fun OOMResults comp =>
       fold_left (add_result (Competition.Key comp))
                 (range_map ord (Competition.Results comp)) OOMResults)
    Competitions ∅.

(** The results of the player [name], competition by competition. *)
Definition results_of (name : gostring) (Competitions : list Competition.t)
  : list (gostring * PlayerResult.t) :=
  omap (fun comp => (fun r => (Competition.Key comp, r))
                      <$> Competition.Results comp !! name)
       Competitions.

Definition sum_points (rs : list (gostring * PlayerResult.t)) : Z :=
  foldr (fun kr acc => PlayerResult.OOMPoints (snd kr) + acc) 0 rs.

(** The entry kept for the player [name] under the competition key
    [k]: the one of the last competition with that key. *)
Definition by_comp (name k : gostring) (rs : list (gostring * PlayerResult.t))
  : option PlayerResult.t :=
  (fun kr => PlayerResult.mk name (PlayerResult.OOMPoints (snd kr))
               (PlayerResult.Rank (snd kr)) (PlayerResult.Result (snd kr)))
    <$> last (filter (fun kr => fst kr = k) rs).

(** The entry of a player after one more result. *)
Definition with_result (compKey name : gostring) (o : option PlayerOOM.t)
    (result : PlayerResult.t) : PlayerOOM.t :=
  let playerOOM := default (PlayerOOM.mk name 0 0 0 ∅) o in
  PlayerOOM.mk (PlayerOOM.Name playerOOM) (PlayerOOM.Rank playerOOM)
    (wrap_int (PlayerOOM.OOMPoints playerOOM + PlayerResult.OOMPoints result))
    (wrap_int (PlayerOOM.NumCompetitions playerOOM + 1))
    (<[compKey := PlayerResult.mk name (PlayerResult.OOMPoints result)
                    (PlayerResult.Rank result) (PlayerResult.Result result)]>
       (PlayerOOM.PlayerByComp playerOOM)).

(** The closed form of a player's entry after the results [rs], starting
    from the entry [p0]. *)
Definition after_results (name : gostring) (p0 : PlayerOOM.t)
    (rs : list (gostring * PlayerResult.t)) : PlayerOOM.t :=
  PlayerOOM.mk (PlayerOOM.Name p0) (PlayerOOM.Rank p0)
    (wrap_int (PlayerOOM.OOMPoints p0 + sum_points rs))
    (wrap_int (PlayerOOM.NumCompetitions p0 + Z.of_nat (length rs)))
    (fold_left
       (fun m kr => <[fst kr := PlayerResult.mk name
                                  (PlayerResult.OOMPoints (snd kr))
                                  (PlayerResult.Rank (snd kr))
                                  (PlayerResult.Result (snd kr))]> m)
       rs (PlayerOOM.PlayerByComp p0)).

(** Two competitions of a season. *)
Definition season_example : list Competition.t :=
  [ cached_competition;
    Competition.mk "5470" "Spring Open" "Sun 8th May" "http://club/5470" 2
      (<[("Carol" : gostring) := PlayerResult.mk "Carol" 2 1 "70"]>
         (<[("Alice" : gostring) := PlayerResult.mk "Alice" 1 2 "74"]> ∅)) ].

(** ** Ranking the players *)

(** [sort.Sort] on a [rankSlice] (a name and its points) is a parameter
    of [calculateOOMRank]. *)
Definition sorter : Type := list (gostring * Z) -> list (gostring * Z).

(** What package [sort] promises of [sort.Sort(sort.Reverse(rs))] with
    the [Less] of [rankSlice]: the elements rearranged so that none has
    fewer points than a later one. *)
Definition sorts_descending (srt : sorter) : Prop :=
  forall l, srt l ≡ₚ l /\ StronglySorted (fun a b => snd b <= snd a) (srt l).

(** The body of the second loop of [calculateOOMRank]. *)
Definition set_rank (OOMResults : gmap gostring PlayerOOM.t) (n : nat)
    (name : gostring) : gmap gostring PlayerOOM.t :=
  let pOOM := default (PlayerOOM.mk [] 0 0 0 ∅) (OOMResults !! name) in
  <[name := PlayerOOM.mk (PlayerOOM.Name pOOM) (1 + Z.of_nat n)
              (PlayerOOM.OOMPoints pOOM) (PlayerOOM.NumCompetitions pOOM)
              (PlayerOOM.PlayerByComp pOOM)]> OOMResults.

(** [for n, p := range rs], from the index [n] on. *)
Fixpoint assign_ranks (n : nat) (names : list gostring)
    (OOMResults : gmap gostring PlayerOOM.t) : gmap gostring PlayerOOM.t :=
  match names with
  | [] => OOMResults
  | name :: names' => assign_ranks (S n) names' (set_rank OOMResults n name)
  end.

(** [calculateOOMRank]: the ranked players and the results with their
    ranks. *)
Definition calculateOOMRank (ord : range_order) (srt : sorter)
    (OOMResults : gmap gostring PlayerOOM.t)
  : list gostring * gmap gostring PlayerOOM.t :=
  let rs := srt (map (fun kv => (fst kv, PlayerOOM.OOMPoints (snd kv)))
                     (range_map ord OOMResults)) in
  let rankedPlayers := map fst rs in
  (rankedPlayers, assign_ranks 0 rankedPlayers OOMResults).

(** The entry [p] with the rank [r]. *)
Definition ranked (p : PlayerOOM.t) (r : Z) : PlayerOOM.t :=
  PlayerOOM.mk (PlayerOOM.Name p) r (PlayerOOM.OOMPoints p)
    (PlayerOOM.NumCompetitions p) (PlayerOOM.PlayerByComp p).


(** A sort that keeps the promise, and three players, two of them
    level on points. *)
Definition example_sort : sorter :=
  @merge_sort _ (fun a b => snd b <= snd a)
    (fun a b => decide (snd b <= snd a)).

Definition three_players : gmap gostring PlayerOOM.t :=
  <[("Carol" : gostring) := PlayerOOM.mk "Carol" 0 2 1 ∅]>
    (<[("Bob" : gostring) := PlayerOOM.mk "Bob" 0 5 2 ∅]>
       (<[("Alice" : gostring) := PlayerOOM.mk "Alice" 0 5 2 ∅]> ∅)).

(** ** Printing the order of merit *)

(** [formatPlayerResult], [flagDetail] being the value of the flag
    [-detail]. *)
Definition formatPlayerResult (flagDetail : bool) (p : PlayerResult.t)
  : result gostring :=
  if bool_decide (flagDetail = false)
  then Ok (format_int (PlayerResult.OOMPoints p))
  else
    let nth : gostring := "th" in
    let s := format_int (PlayerResult.Rank p) in
    l ← slice_from s (len s - 1);
    let nth : gostring := if bytes_eqb l "1" then "st" else nth in
    let nth : gostring := if bytes_eqb l "2" then "nd" else nth in
    let nth : gostring := if bytes_eqb l "3" then "rd" else nth in
    let nth : gostring :=
      if (10 <? PlayerResult.Rank p) && (PlayerResult.Rank p <? 20)
      then "th" else nth in
    Ok (format_int (PlayerResult.OOMPoints p) ++ " (" ++
        format_int (PlayerResult.Rank p) ++ nth ++ " " ++
        PlayerResult.Result p ++ ")").

(** The ending that [formatPlayerResult] gives a rank: by its last
    digit, except from 11 to 19. *)
Definition rank_ending (rank : Z) : gostring :=
  if (10 <? rank) && (rank <? 20) then "th"
  else if Z.abs rank mod 10 =? 1 then "st"
  else if Z.abs rank mod 10 =? 2 then "nd"
  else if Z.abs rank mod 10 =? 3 then "rd"
  else "th".

(** What [formatPlayerResult] prints. *)
Definition formatted (flagDetail : bool) (p : PlayerResult.t) : gostring :=
  if flagDetail
  then format_int (PlayerResult.OOMPoints p) ++ " (" ++
       format_int (PlayerResult.Rank p) ++
       rank_ending (PlayerResult.Rank p) ++ " " ++
       PlayerResult.Result p ++ ")"
  else format_int (PlayerResult.OOMPoints p).

Module OOM.
Record t := mk {
  Year : Z;
  Competitions : list Competition.t;
  RankedPlayers : list gostring;              (* first to last in results *)
  OOMResults : gmap gostring PlayerOOM.t      (* keyed by player name *)
}.
End OOM.

(** [os.Create] and [fmt.Fprint] on the file it returns: the file is
    emptied, then grows by what is printed. *)
Definition Create (fname : gostring) : M unit := WriteFile fname [].

Definition Fprint (fname s : gostring) : M unit :=
  fun w => (Ok tt,
            {| files := <[fname := default [] (files w !! fname) ++ s]> (files w);
               web := web w; fetched := fetched w |}).

(** [for _, a := range l { body }]. *)
Fixpoint for_each {A} (l : list A) (body : A -> M unit) : M unit :=
  match l with
  | [] => mret tt
  | a :: l' => _ ← body a; for_each l' body
  end.

Definition out_csv : gostring := "out.csv".

(** [printOOM]. *)
Definition printOOM (flagDetail : bool) (theOOM : OOM.t) : M unit :=
  _ ← Create out_csv;
  _ ← Fprint out_csv ("Year " ++ format_int (OOM.Year theOOM) ++ [LF]);
  _ ← Fprint out_csv ",,,,";
  _ ← for_each (OOM.Competitions theOOM)
        (fun comp => Fprint out_csv (Competition.Key comp ++ ","));
  _ ← Fprint out_csv [LF];
  _ ← Fprint out_csv ",,,,";
  _ ← for_each (OOM.Competitions theOOM)
        (fun comp => Fprint out_csv (Competition.Date comp ++ ","));
  _ ← Fprint out_csv [LF];
  _ ← Fprint out_csv "rank, name, oomPts, #Comp,";
  _ ← for_each (OOM.Competitions theOOM)
        (fun comp => Fprint out_csv (Competition.Name comp ++ ","));
  _ ← Fprint out_csv [LF];
  for_each (OOM.RankedPlayers theOOM)
    (fun player =>
       let p := default (PlayerOOM.mk [] 0 0 0 ∅)
                        (OOM.OOMResults theOOM !! player) in
       _ ← Fprint out_csv
             (format_int (PlayerOOM.Rank p) ++ "," ++ PlayerOOM.Name p ++ "," ++
              format_int (PlayerOOM.OOMPoints p) ++ "," ++
              format_int (PlayerOOM.NumCompetitions p));
       _ ← for_each (OOM.Competitions theOOM)
             (fun comp =>
                match PlayerOOM.PlayerByComp p !! Competition.Key comp with
                | Some playerResult =>
                    s ← lift (formatPlayerResult flagDetail playerResult);
                    Fprint out_csv ("," ++ s)
                | None => Fprint out_csv ","
                end);
       Fprint out_csv [LF]).

(** The entry of [player] as [printOOM] reads it, and the cell of a
    player under a competition. *)
Definition player_entry (theOOM : OOM.t) (player : gostring) : PlayerOOM.t :=
  default (PlayerOOM.mk [] 0 0 0 ∅) (OOM.OOMResults theOOM !! player).

Definition cell (flagDetail : bool) (p : PlayerOOM.t) (comp : Competition.t)
  : gostring :=
  match PlayerOOM.PlayerByComp p !! Competition.Key comp with
  | Some playerResult => formatted flagDetail playerResult
  | None => []
  end.

(** The lines of the file. *)
Definition heading (lead : gostring) (f : Competition.t -> gostring)
    (theOOM : OOM.t) : gostring :=
  lead ++ concat (map (fun comp => f comp ++ ",") (OOM.Competitions theOOM)).

Definition player_row (flagDetail : bool) (theOOM : OOM.t)
    (player : gostring) : gostring :=
  let p := player_entry theOOM player in
  format_int (PlayerOOM.Rank p) ++ "," ++ PlayerOOM.Name p ++ "," ++
  format_int (PlayerOOM.OOMPoints p) ++ "," ++
  format_int (PlayerOOM.NumCompetitions p) ++
  concat (map (fun comp => "," ++ cell flagDetail p comp)
              (OOM.Competitions theOOM)).

Definition csv_lines (flagDetail : bool) (theOOM : OOM.t) : list gostring :=
  [ "Year " ++ format_int (OOM.Year theOOM);
    heading ",,,," Competition.Key theOOM;
    heading ",,,," Competition.Date theOOM;
    heading "rank, name, oomPts, #Comp," Competition.Name theOOM ]
  ++ map (player_row flagDetail theOOM) (OOM.RankedPlayers theOOM).

(** [m] prints [s] to the file [fname], and does nothing else. *)
Definition prints (fname : gostring) (m : M unit) (s : gostring) : Prop :=
  forall w t,
    files w !! fname = Some t ->
    m w = (Ok tt, {| files := <[fname := t ++ s]> (files w);
                     web := web w; fetched := fetched w |}).

(** A season of one competition with two ranked players. *)
Definition season_oom : OOM.t :=
  OOM.mk 2016 [cached_competition] ["Alice" : gostring; "Bob" : gostring]
    (<[("Bob" : gostring) :=
         PlayerOOM.mk "Bob" 2 1 1
           {[ ("5462" : gostring) := PlayerResult.mk "Bob" 1 2 "75" ]}]>
       (<[("Alice" : gostring) :=
            PlayerOOM.mk "Alice" 1 2 1
              {[ ("5462" : gostring) := PlayerResult.mk "Alice" 2 1 "72" ]}]>
          ∅)).

(** ** The shape of a results page *)

(** The text [s] cut at the occurrences of [marker], as a scanner with
    [marker_split marker] cuts it: a token ends before a marker, the
    next one starts with the marker less its first byte, and the last
    one is what is left without marker.  Every token and the marker that
    ends it fit the scanner's buffer. *)
Inductive fragments (marker : gostring) : gostring -> list gostring -> Prop :=
  | fragments_nil : fragments marker [] []
  | fragments_last s :
      s <> [] -> ¬ occurs marker s -> len s < MaxScanTokenSize ->
      fragments marker s [s]
  | fragments_cons tok rest toks :
      first_occurrence marker tok (tok ++ marker ++ rest) ->
      len (tok ++ marker) <= MaxScanTokenSize ->
      fragments marker (tail marker ++ rest) toks ->
      fragments marker (tok ++ marker ++ rest) (tok :: toks).

(** A row of a page of the standard layout, as the scanner hands it to
    [playerDetail]. *)
Definition player_fragment_example : gostring :=
  "playerid=76041" ++ dquote ::
  ">Jo Mager</a>(16)</td><td><a href=x>24</a></td><td></td></tr>".

(** ** From the competitions to the file *)

(** The end of [main]: [populateOOMWithCompetitions()],
    [calculateOOMRank()], [printOOM()], each with its own order of
    ranging over a map. *)
Definition report (ord ord' : range_order) (srt : sorter) (flagDetail : bool)
    (year : Z) (Competitions : list Competition.t) : M unit :=
  let OOMResults := populateOOMWithCompetitions ord Competitions in
  let '(RankedPlayers, OOMResults) := calculateOOMRank ord' srt OOMResults in
  printOOM flagDetail (OOM.mk year Competitions RankedPlayers OOMResults).

(** The cell of the player [name] under the competition [comp], as it
    stands in the file: the points of the player there and, with
    [-detail], the rank and the result; nothing for a competition the
    player has no result in. *)
Definition result_cell (flagDetail : bool) (name : gostring)
    (comp : Competition.t) : gostring :=
  match Competition.Results comp !! name with
  | Some r => formatted flagDetail r
  | None => []
  end.

Definition total_points (name : gostring) (comps : list Competition.t) : Z :=
  wrap_int (sum_points (results_of name comps)).

(** ** Loads of different competitions *)

(** A second competition on the web, beside the one of
    [uncached_world]. *)
Definition two_pages_world : World :=
  {| files := ∅;
     web := fun u =>
       if bytes_eqb u "http://club/competition.php?compid=5462"
       then Some standard_page_example
       else if bytes_eqb u "http://club/competition.php?compid=1"
       then Some repeated_name_page
       else None;
     fetched := [] |}.

(** The competition read from the second page, and the directory after
    it has been loaded beside the cached competition 5462. *)
Definition ann_competition : Competition.t :=
  Competition.mk "1" [] [] "http://club/competition.php?compid=1" 2
    {[ ("Ann" : gostring) := PlayerResult.mk "Ann" 1 2 "71" ]}.

Definition one_cached_world : World :=
  after_save identity_order cached_competition two_pages_world.

Definition both_loaded_world : World :=
  after_save reverse_order ann_competition
    (after_fetch "http://club/competition.php?compid=1" one_cached_world).

(** ** A page of the standard layout, from the text to the results *)

(** The fragment [frag] is a row for the player [name] with the result
    [score]: some text free of [>], then [>], the name, the first
    [</a>] of the fragment, and further on the first [</a></td>], with
    the result between the last [>] before it and it. *)
Definition standard_row (frag name score : gostring) : Prop :=
  exists pre seg rest,
    frag = pre ++ ">" ++ name ++ seg ++ "</a></td>" ++ rest /\
    (">"%char ∉ pre) /\
    first_occurrence "</a>" (pre ++ ">" ++ name) frag /\
    first_occurrence "</a></td>" seg (seg ++ "</a></td>" ++ rest) /\
    after_last_gt seg score.

(** The entry of the player at position [i] of [n]. *)
Definition entry_at (n : nat) (i : nat) (name score : gostring)
  : PlayerResult.t :=
  PlayerResult.mk name
    (if snd (strconv_Atoi score) then Z.of_nat n - Z.of_nat i else 0)
    (Z.of_nat i + 1) score.

(** * Properties *)

(** ** The dispatch loop *)

Lemma count_tasks_app f ts t :
  count_tasks f (ts ++ [t]) = (count_tasks f ts + if f t then 1 else 0)%nat.
Proof. induction ts as [|x ts IH]; simpl; [lia | rewrite IH; lia]. Qed.

Lemma count_tasks_insert f ts k t t' :
  ts !! k = Some t ->
  (count_tasks f (<[k := t']> ts) + (if f t then 1 else 0)
   = count_tasks f ts + (if f t' then 1 else 0))%nat.
Proof.
  revert k. induction ts as [|x ts IH]; intros [|k] Hk; simpl in *; try done.
  - injection Hk as ->. lia.
  - specialize (IH k Hk). lia.
Qed.

Lemma count_tasks_le f ts : (count_tasks f ts <= length ts)%nat.
Proof. induction ts as [|x ts IH]; simpl; [lia | destruct (f x); lia]. Qed.

Lemma count_tasks_all f ts :
  (length ts <= count_tasks f ts)%nat -> Forall (fun t => f t = true) ts.
Proof.
  induction ts as [|x ts IH]; simpl; intros H; [constructor|].
  pose proof (count_tasks_le f ts).
  destruct (f x) eqn:Hx; [|lia].
  constructor; [done | apply IH; lia].
Qed.

Lemma loading_holds_slot ts :
  (count_tasks is_loading ts <= count_tasks holds_slot ts)%nat.
Proof. induction ts as [|[] ts IH]; simpl; lia. Qed.

Lemma loading_not_signalled ts k :
  ts !! k = Some TLoading -> ¬ Forall (fun t => has_signalled t = true) ts.
Proof.
  intros Hk HF. rewrite Forall_lookup in HF. by specialize (HF k _ Hk).
Qed.

Lemma sched_inv_init n : sched_inv n sched_init.
Proof. split; simpl; try done; unfold slots_capacity; lia. Qed.

Lemma sched_inv_step n s s' : sched_inv n s -> step n s s' -> sched_inv n s'.
Proof.
  intros [Hs Hc Hst Hco Hab] Hstep.
  destruct Hstep; simpl in *;
    repeat match goal with
    | H : ?ts !! ?k = Some ?t |- _ =>
        lazymatch goal with
        | _ : context [<[k := ?t']> ts] |- _ => fail
        | |- context [<[k := ?t']> ts] =>
            pose proof (count_tasks_insert holds_slot ts k t t' H);
            pose proof (count_tasks_insert has_signalled ts k t t' H);
            pose proof (length_insert ts k t')
        end
    end;
    split; simpl in *;
    rewrite ?count_tasks_app, ?length_app, ?length_insert in *; simpl in *;
    try done; try lia; eauto.
Qed.

Lemma reachable_inv n s : reachable n s -> sched_inv n s.
Proof.
  unfold reachable. intros H.
  eapply (rtc_ind_r (sched_inv n) sched_init); [apply sched_inv_init | | exact H].
  intros y z _ Hyz IH. by eapply sched_inv_step.
Qed.

(** A run with two competitions that reaches the end of [main]'s second
    loop: the goroutines load one after the other. *)
Lemma reachable_past_2 :
  reachable 2 (Build_sched MPast [TDone; TDone] 0 0 false).
Proof.
  unfold reachable, sched_init.
  eapply rtc_l; [apply step_send; unfold slots_capacity; lia|].
  eapply rtc_l; [apply step_go|]. simpl.
  eapply rtc_l; [apply (step_call 2 _ _ 0%nat); reflexivity|]. simpl.
  eapply rtc_l; [apply (step_return 2 _ _ 0%nat); reflexivity|]. simpl.
  eapply rtc_l; [apply (step_signal 2 _ _ 0%nat); [reflexivity|lia]|]. simpl.
  eapply rtc_l; [apply (step_release 2 _ _ 0%nat); reflexivity|]. simpl.
  eapply rtc_l; [apply step_send; unfold slots_capacity; lia|].
  eapply rtc_l; [apply step_go|]. simpl.
  eapply rtc_l; [apply (step_call 2 _ _ 1%nat); reflexivity|]. simpl.
  eapply rtc_l; [apply (step_return 2 _ _ 1%nat); reflexivity|]. simpl.
  eapply rtc_l; [apply (step_signal 2 _ _ 1%nat); [reflexivity|lia]|]. simpl.
  eapply rtc_l; [apply (step_release 2 _ _ 1%nat); reflexivity|]. simpl.
  eapply rtc_l; [apply step_leave; lia|].
  eapply rtc_l; [apply step_receive; lia|].
  eapply rtc_l; [apply step_receive; lia|].
  eapply rtc_l; [apply step_join; lia|].
  apply rtc_refl.
Qed.

(** C9. Whatever the scheduler does, in every state the dispatch of [n]
    loads can reach, at most 10 calls of [oom.Load] (hence at most 10
    fetches) are in progress; and when [main] is past its second loop,
    all [n] goroutines have been started and every one of them has
    returned from [Load] and signalled it.  A [Load] that ends the
    process stops everything: [main] is then not past the loop. *)
Theorem C9_bounded_dispatch (n : nat) (s : sched) :
  reachable n s ->
  (in_flight s <= 10)%nat /\
  (main s = MPast ->
   length (tasks s) = n /\
   Forall (fun t => t = TSignalled \/ t = TDone) (tasks s) /\
   aborted s = false).
Proof.
  intros Hr. destruct (reachable_inv n s Hr) as [Hs Hc Hst Hco Hab].
  split.
  - unfold in_flight. pose proof (loading_holds_slot (tasks s)).
    unfold slots_capacity in Hc. lia.
  - intros Hm. rewrite Hm in *. simpl in *.
    assert (HF : Forall (fun t => has_signalled t = true) (tasks s))
      by (apply count_tasks_all; lia).
    split; [done|]. split.
    + eapply Forall_impl; [exact HF|]. intros [] Ht; simpl in Ht; auto; done.
    + destruct (aborted s); [|done].
      destruct Hab as [k Hk]; [done|].
      by destruct (loading_not_signalled _ _ Hk).
Qed.

Lemma C9_bounded_dispatch_witness :
  (in_flight (Build_sched MPast [TDone; TDone] 0 0 false) <= 10)%nat /\
  (main (Build_sched MPast [TDone; TDone] 0 0 false) = MPast ->
   length [TDone; TDone] = 2%nat /\
   Forall (fun t => t = TSignalled \/ t = TDone) [TDone; TDone] /\
   false = false).
Proof. exact (C9_bounded_dispatch 2 _ reachable_past_2). Defined.

(** ** Searching and slicing *)

Lemma len_app (a b : gostring) : len (a ++ b) = len a + len b.
Proof. unfold len. rewrite length_app. lia. Qed.

Lemma len_nonneg (s : gostring) : 0 <= len s.
Proof. unfold len. lia. Qed.

Lemma has_prefix_iff p s : has_prefix p s = true <-> exists r, s = p ++ r.
Proof.
  revert s. induction p as [|a p IH]; intros s; simpl.
  - split; eauto.
  - destruct s as [|b s].
    + split; [done | intros [r Hr]; done].
    + rewrite andb_true_iff, Ascii.eqb_eq, IH. split.
      * intros [-> [r ->]]. eauto.
      * intros [r Hr]. injection Hr as -> ->. eauto.
Qed.

Lemma has_prefix_app p r : has_prefix p (p ++ r) = true.
Proof. apply has_prefix_iff. eauto. Qed.

(** What [index_from] returns: [-1] when [tok] starts nowhere in [s],
    otherwise the first position where it does. *)
Lemma index_from_cases tok s i :
  (index_from tok s i = -1 /\
   forall k, (k <= length s)%nat -> has_prefix tok (drop k s) = false) \/
  (exists j : nat,
     index_from tok s i = i + Z.of_nat j /\ (j <= length s)%nat /\
     has_prefix tok (drop j s) = true /\
     forall k, (k < j)%nat -> has_prefix tok (drop k s) = false).
Proof.
  revert i. induction s as [|a s IH]; intros i; simpl.
  - destruct (has_prefix tok []) eqn:E.
    + right. exists 0%nat. repeat split; [lia | lia | done | lia].
    + left. split; [done|]. intros k Hk. by rewrite drop_nil.
  - destruct (has_prefix tok (a :: s)) eqn:E.
    + right. exists 0%nat. repeat split; [lia | lia | done | lia].
    + destruct (IH (i + 1)) as [[H1 H2] | (j & H1 & H2 & H3 & H4)].
      * left. split; [done|]. intros [|k] Hk; simpl; [done | apply H2; lia].
      * right. exists (S j). repeat split; [lia | lia | done |].
        intros [|k] Hk; simpl; [done | apply H4; lia].
Qed.

Lemma occurs_drop tok s :
  occurs tok s <-> exists k, (k <= length s)%nat /\ has_prefix tok (drop k s) = true.
Proof.
  split.
  - intros (pre & post & ->). exists (length pre). split.
    + rewrite length_app. lia.
    + rewrite drop_app_length. apply has_prefix_app.
  - intros (k & Hk & Hp). apply has_prefix_iff in Hp as [r Hr].
    exists (take k s), r. by rewrite <- Hr, take_drop.
Qed.

Lemma index_none s tok : strings_Index s tok = -1 <-> ¬ occurs tok s.
Proof.
  unfold strings_Index. rewrite occurs_drop.
  destruct (index_from_cases tok s 0) as [[H1 H2] | (j & H1 & H2 & H3 & H4)].
  - split; [|done]. intros _ (k & Hk & Hp). rewrite H2 in Hp; done.
  - split; [lia|]. intros H. destruct H. eauto.
Qed.

Lemma index_range s tok :
  strings_Index s tok = -1 \/ 0 <= strings_Index s tok <= len s.
Proof.
  unfold strings_Index, len.
  destruct (index_from_cases tok s 0) as [[H1 H2] | (j & H1 & H2 & H3 & H4)];
    [by left | right; lia].
Qed.

Lemma index_first tok pre s :
  first_occurrence tok pre s -> strings_Index s tok = len pre.
Proof.
  intros (Hp & Ht & Hn). unfold strings_Index, len.
  destruct (index_from_cases tok s 0) as [[H1 H2] | (j & H1 & H2 & H3 & H4)].
  - assert (length pre <= length s)%nat
      by (rewrite <- Ht, length_take; lia).
    rewrite H2 in Hp; done.
  - destruct (Nat.lt_trichotomy j (length pre)) as [Hlt | [-> | Hgt]].
    + rewrite Hn in H3; done.
    + lia.
    + rewrite H4 in Hp; done.
Qed.

Lemma index_found s tok :
  strings_Index s tok <> -1 ->
  exists pre post, s = pre ++ tok ++ post /\ strings_Index s tok = len pre /\
                   first_occurrence tok pre s.
Proof.
  unfold strings_Index, len. intros Hne.
  destruct (index_from_cases tok s 0) as [[H1 H2] | (j & H1 & H2 & H3 & H4)];
    [done|].
  pose proof H3 as Hp. apply has_prefix_iff in Hp as [r Hr].
  exists (take j s), r.
  assert (Hl : length (take j s) = j) by (rewrite length_take; lia).
  split; [by rewrite <- Hr, take_drop|]. split; [lia|].
  unfold first_occurrence. rewrite Hl. auto.
Qed.

Lemma slice_inv s lo hi r :
  slice s lo hi = Ok r ->
  0 <= lo <= hi /\ hi <= len s /\
  r = take (Z.to_nat (hi - lo)) (drop (Z.to_nat lo) s).
Proof.
  unfold slice. destruct (0 <=? lo) eqn:E1; simpl; [|done].
  destruct (lo <=? hi) eqn:E2; simpl; [|done].
  destruct (hi <=? len s) eqn:E3; simpl; [|done].
  intros [= <-]. repeat split; lia.
Qed.

Lemma slice_fail s lo hi f : slice s lo hi = Fail f -> f = RuntimePanic.
Proof. unfold slice. destruct (_ && _); congruence. Qed.

Lemma slice_ok s lo hi :
  0 <= lo <= hi -> hi <= len s ->
  slice s lo hi = Ok (take (Z.to_nat (hi - lo)) (drop (Z.to_nat lo) s)).
Proof.
  intros H1 H2. unfold slice.
  destruct (0 <=? lo) eqn:E1; [|lia].
  destruct (lo <=? hi) eqn:E2; [|lia].
  destruct (hi <=? len s) eqn:E3; [done|lia].
Qed.

Lemma slice_out s lo hi :
  lo < 0 \/ hi < lo \/ len s < hi -> slice s lo hi = Fail RuntimePanic.
Proof.
  intros H. unfold slice.
  destruct (0 <=? lo) eqn:E1; [|done].
  destruct (lo <=? hi) eqn:E2; [|done].
  destruct (hi <=? len s) eqn:E3; [lia|done].
Qed.

Lemma slice_app3 (a b c : gostring) :
  slice (a ++ b ++ c) (len a) (len a + len b) = Ok b.
Proof.
  rewrite slice_ok.
  - unfold len. replace (Z.to_nat (_ + _ - _)) with (length b) by lia.
    rewrite Nat2Z.id, drop_app_length, take_app_length. done.
  - pose proof (len_nonneg a). pose proof (len_nonneg b). lia.
  - rewrite !len_app. pose proof (len_nonneg c). lia.
Qed.

Lemma slice_from_app (a b : gostring) : slice_from (a ++ b) (len a) = Ok b.
Proof.
  unfold slice_from. rewrite slice_ok.
  - rewrite len_app. unfold len.
    replace (Z.to_nat (_ + _ - _)) with (length b) by lia.
    rewrite Nat2Z.id, drop_app_length, take_ge; [done | lia].
  - pose proof (len_nonneg a). rewrite len_app. pose proof (len_nonneg b). lia.
  - lia.
Qed.

Lemma slice_to_app (a b : gostring) : slice_to (a ++ b) (len a) = Ok a.
Proof.
  unfold slice_to. rewrite slice_ok.
  - replace (Z.to_nat (len a - 0)) with (length a) by (unfold len; lia).
    replace (Z.to_nat 0) with 0%nat by lia.
    by rewrite drop_0, take_app_length.
  - pose proof (len_nonneg a). lia.
  - rewrite len_app. pose proof (len_nonneg b). lia.
Qed.

Lemma occurs_drop_inv tok s k : occurs tok (drop k s) -> occurs tok s.
Proof.
  intros (pre & post & H). exists (take k s ++ pre), post.
  rewrite <- (take_drop k s) at 1. rewrite H. by rewrite <- app_assoc.
Qed.

Lemma occurs_take_inv tok s k : occurs tok (take k s) -> occurs tok s.
Proof.
  intros (pre & post & H). exists pre, (post ++ drop k s).
  rewrite <- (take_drop k s) at 1. rewrite H. by rewrite <- !app_assoc.
Qed.

Lemma slice_occurs tok s lo hi r :
  slice s lo hi = Ok r -> occurs tok r -> occurs tok s.
Proof.
  intros H Ho. apply slice_inv in H as (_ & _ & ->).
  eauto using occurs_drop_inv, occurs_take_inv.
Qed.

(** ** Fragments without their terminator *)

(** C6. A fragment in which the terminator of its layout does not occur
    never yields a (name, result) pair: [playerDetail] stops in a run-time
    panic (a slice bound is out of range), [champDetail] either in such a
    panic or by printing the rest of the fragment and leaving with exit
    status 1. *)
Theorem C6_no_terminator_no_pair (s : gostring) :
  (¬ occurs "</a></td>" s -> playerDetail s = Fail RuntimePanic) /\
  (¬ occurs "</td></tr>" s ->
   champDetail s = Fail RuntimePanic \/
   exists printed, champDetail s = Fail (OsExit printed 1)).
Proof.
  split; intros Hno.
  - unfold playerDetail.
    destruct (slice s _ _) as [name|f] eqn:E1; cbn [mbind result_bind];
      [|by rewrite (slice_fail _ _ _ _ E1)].
    destruct (slice_from s _) as [s1|f] eqn:E2; cbn [mbind result_bind];
      [|by rewrite (slice_fail _ _ _ _ E2)].
    assert (Hidx : strings_Index s1 "</a></td>" = -1).
    { apply index_none. intros Ho. apply Hno. eapply slice_occurs; eauto. }
    rewrite Hidx. unfold slice_to. by rewrite slice_out by lia.
  - unfold champDetail.
    destruct (slice s _ _) as [name|f] eqn:E1; cbn [mbind result_bind];
      [|left; by rewrite (slice_fail _ _ _ _ E1)].
    destruct (slice_from s _) as [s1|f] eqn:E2; cbn [mbind result_bind];
      [|left; by rewrite (slice_fail _ _ _ _ E2)].
    assert (Hidx : strings_Index s1 "</td></tr>" = -1).
    { apply index_none. intros Ho. apply Hno. eapply slice_occurs; eauto. }
    rewrite Hidx. cbn [Z.eqb Pos.eqb]. right. eauto.
Qed.

Lemma C6_no_terminator_no_pair_witness :
  playerDetail ">Jo</a>24<" = Fail RuntimePanic /\
  (champDetail ">Jo</a>24<" = Fail RuntimePanic \/
   exists printed, champDetail ">Jo</a>24<" = Fail (OsExit printed 1)).
Proof.
  destruct (C6_no_terminator_no_pair ">Jo</a>24<") as [H1 H2].
  split; [apply H1 | apply H2]; apply index_none; reflexivity.
Defined.

(** Both ways in which [champDetail] stops are taken. *)
Example champDetail_exits :
  champDetail ">Jo Mager(16)</td><td>75</td>"
  = Fail (OsExit ("(16)</td><td>75</td>" ++ [byte 10]) 1).
Proof. reflexivity. Qed.

Example champDetail_panics : champDetail "Jo Mager 75" = Fail RuntimePanic.
Proof. reflexivity. Qed.

(** ** Searching for one byte *)

Lemma has_prefix_byte c s :
  has_prefix [c] s = true <-> exists r, s = c :: r.
Proof. rewrite has_prefix_iff. done. Qed.

Lemma has_prefix_byte_drop c s k :
  has_prefix [c] (drop k s) = true <-> s !! k = Some c.
Proof.
  rewrite has_prefix_byte. split.
  - intros [r Hr]. rewrite <- (take_drop k s), Hr.
    destruct (decide (k <= length s)%nat).
    + rewrite lookup_app_r; rewrite length_take; [|lia].
      by replace (k - k `min` length s)%nat with 0%nat by lia.
    + rewrite drop_ge in Hr by lia. done.
  - intros Hk. apply lookup_lt_Some in Hk as Hlt.
    exists (drop (S k) s). by apply drop_S.
Qed.

Lemma index_byte (pre post : gostring) c :
  c ∉ pre -> strings_Index (pre ++ c :: post) [c] = len pre.
Proof.
  intros Hc. apply index_first. repeat split.
  - rewrite drop_app_length. apply has_prefix_byte. eauto.
  - by rewrite take_app_length.
  - intros k Hk. apply not_true_is_false. rewrite has_prefix_byte_drop.
    rewrite lookup_app_l by done. intros Hl.
    apply Hc. by eapply list_elem_of_lookup_2.
Qed.

Lemma index_byte_none (s : gostring) c : c ∉ s -> strings_Index s [c] = -1.
Proof.
  intros Hc. apply index_none. intros (pre & post & ->).
  apply Hc. set_solver.
Qed.

(** The index found is not before any stretch free of [c]. *)
Lemma index_byte_after (pre post : gostring) c :
  c ∉ pre ->
  strings_Index (pre ++ post) [c] = -1 \/
  len pre <= strings_Index (pre ++ post) [c].
Proof.
  intros Hc. unfold strings_Index, len.
  destruct (index_from_cases [c] (pre ++ post) 0)
    as [[H1 H2] | (j & H1 & H2 & H3 & H4)]; [by left | right].
  destruct (decide (j < length pre)%nat) as [Hlt|]; [|lia].
  apply has_prefix_byte_drop in H3. rewrite lookup_app_l in H3 by done.
  destruct Hc. by eapply list_elem_of_lookup_2.
Qed.

Lemma index_byte_some (s : gostring) c : c ∈ s -> strings_Index s [c] <> -1.
Proof.
  intros Hc. rewrite index_none. intros Hno. apply Hno.
  apply list_elem_of_split in Hc as (pre & post & ->). by exists pre, post.
Qed.

Lemma last_index_from_byte_none c (s : gostring) i acc :
  c ∉ s -> last_index_from [c] s i acc = acc.
Proof.
  revert i acc. induction s as [|a s IH]; intros i acc Hc; simpl; [done|].
  rewrite IH by set_solver.
  destruct (Ascii.eqb c a) eqn:E; [|done].
  apply Ascii.eqb_eq in E. set_solver.
Qed.

Lemma last_index_from_byte c (body post : gostring) i acc :
  c ∉ post ->
  last_index_from [c] (body ++ c :: post) i acc = i + len body.
Proof.
  revert i acc. induction body as [|a body IH]; intros i acc Hc.
  - simpl. rewrite Ascii.eqb_refl. simpl.
    rewrite last_index_from_byte_none by done. unfold len. simpl. lia.
  - cbn [app last_index_from]. rewrite IH by done.
    unfold len. cbn [length]. lia.
Qed.

Lemma last_index_byte c (body post : gostring) :
  c ∉ post -> strings_LastIndex (body ++ c :: post) [c] = len body.
Proof.
  intros. unfold strings_LastIndex. by rewrite last_index_from_byte.
Qed.

Lemma last_index_byte_none c (s : gostring) :
  c ∉ s -> strings_LastIndex s [c] = -1.
Proof. intros. unfold strings_LastIndex. by apply last_index_from_byte_none. Qed.

Lemma first_occurrence_index tok pre s :
  strings_Index s tok = len pre -> take (length pre) s = pre ->
  first_occurrence tok pre s.
Proof.
  intros Hi Ht.
  destruct (index_found s tok) as (pre' & post & Hs & Hi' & Hf).
  { rewrite Hi. pose proof (len_nonneg pre). lia. }
  assert (Hl : length pre' = length pre) by (unfold len in *; lia).
  destruct Hf as (H1 & H2 & H3). rewrite Hl in *.
  assert (pre' = pre) by congruence. by subst.
Qed.

(** ** The championship layout *)

Section champ.
Variables pre nm seg rest : gostring.

Let fragment : gostring := pre ++ ">" ++ nm ++ seg ++ "</td></tr>" ++ rest.

Hypothesis pre_gt : ">"%char ∉ pre.
Hypothesis pre_lt : "<"%char ∉ pre.
Hypothesis pre_paren : "("%char ∉ pre.
Hypothesis nm_lt : "<"%char ∉ nm.
Hypothesis nm_paren : "("%char ∉ nm.
Hypothesis seg_head :
  exists seg0, seg = "<"%char :: seg0 \/ seg = "("%char :: seg0.

Lemma champ_start : strings_Index fragment ">" = len pre.
Proof. unfold fragment. by apply (index_byte pre _ ">"%char). Qed.

Lemma champ_end :
  let end0 := strings_Index fragment "<" in
  let end2 := strings_Index fragment "(" in
  (if negb (end2 =? -1) && (end2 <? end0) then end2 else end0)
  = len (pre ++ ">" ++ nm).
Proof.
  intros end0 end2.
  assert (Hlt : "<"%char ∉ pre ++ ">" ++ nm).
  { rewrite !not_elem_of_app. repeat split; try done.
    intros ?%list_elem_of_singleton. done. }
  assert (Hp : "("%char ∉ pre ++ ">" ++ nm).
  { rewrite !not_elem_of_app. repeat split; try done.
    intros ?%list_elem_of_singleton. done. }
  pose proof (len_nonneg (pre ++ ">" ++ nm)) as Hnn.
  destruct seg_head as [seg0 [Hs | Hs]].
  - assert (E0 : end0 = len (pre ++ ">" ++ nm)).
    { unfold end0, fragment. rewrite Hs.
      rewrite (app_assoc pre), (app_assoc (pre ++ _)).
      rewrite <- (app_assoc pre). cbn [app].
      by apply (index_byte _ _ "<"%char). }
    assert (E2 : end2 = -1 \/ len ((pre ++ ">" ++ nm) ++ ["<"%char]) <= end2).
    { unfold end2, fragment. rewrite Hs.
      replace (pre ++ ">" ++ nm ++ ("<"%char :: seg0) ++ "</td></tr>" ++ rest)
        with (((pre ++ ">" ++ nm) ++ ["<"%char])
              ++ seg0 ++ "</td></tr>" ++ rest)
        by (rewrite <- !app_assoc; done).
      apply (index_byte_after _ _ "("%char).
      rewrite not_elem_of_app. split; [done|].
      intros ?%list_elem_of_singleton. done. }
    rewrite len_app in E2. change (len ["<"%char]) with 1 in E2.
    rewrite E0. destruct E2 as [-> | E2]; [done|].
    destruct (end2 =? -1); [done|]. cbn [negb andb].
    destruct (Z.ltb_spec end2 (len (pre ++ ">" ++ nm))); [lia | done].
  - assert (E2 : end2 = len (pre ++ ">" ++ nm)).
    { unfold end2, fragment. rewrite Hs.
      rewrite (app_assoc pre), (app_assoc (pre ++ _)).
      rewrite <- (app_assoc pre). cbn [app].
      by apply (index_byte _ _ "("%char). }
    assert (E0 : end0 = -1 \/ len ((pre ++ ">" ++ nm) ++ ["("%char]) <= end0).
    { unfold end0, fragment. rewrite Hs.
      replace (pre ++ ">" ++ nm ++ ("("%char :: seg0) ++ "</td></tr>" ++ rest)
        with (((pre ++ ">" ++ nm) ++ ["("%char])
              ++ seg0 ++ "</td></tr>" ++ rest)
        by (rewrite <- !app_assoc; done).
      apply (index_byte_after _ _ "<"%char).
      rewrite not_elem_of_app. split; [done|].
      intros ?%list_elem_of_singleton. done. }
    assert (E0' : end0 <> -1).
    { apply (index_byte_some _ "<"%char). unfold fragment.
      rewrite !elem_of_app. do 4 right. left. cbn. left. }
    rewrite len_app in E0. change (len ["("%char]) with 1 in E0.
    rewrite E2. destruct (Z.eqb_spec (len (pre ++ ">" ++ nm)) (-1)); [lia|].
    cbn [negb andb].
    destruct (Z.ltb_spec (len (pre ++ ">" ++ nm)) end0); [done | lia].
Qed.

End champ.

Lemma bytes_eqb_true a b : bytes_eqb a b = true <-> a = b.
Proof. unfold bytes_eqb. apply bool_decide_eq_true. Qed.

Lemma slice_mid (a b c : gostring) lo hi :
  lo = len a -> hi = len a + len b -> slice (a ++ b ++ c) lo hi = Ok b.
Proof. intros -> ->. apply slice_app3. Qed.

(** C7, as the code has it.  In a fragment [pre > nm seg </td></tr> rest]
    where [pre] is free of [>], [<] and [(], the text [nm] is free of [<]
    and [(], [seg] starts with one of them, holds at least seven bytes
    and ends where [</td></tr>] first occurs: the name is [nm] with the
    white space around it removed; the result is what follows the last
    [>] of [seg] once a trailing [</span>] is taken off; and the result
    [&nbsp;] is returned as [NS]. *)
Theorem C7_champDetail_trimmed (pre nm seg seg1 res rest : gostring) :
  ">"%char ∉ pre -> "<"%char ∉ pre -> "("%char ∉ pre ->
  "<"%char ∉ nm -> "("%char ∉ nm ->
  (exists seg0, seg = "<"%char :: seg0 \/ seg = "("%char :: seg0) ->
  first_occurrence "</td></tr>" seg (seg ++ "</td></tr>" ++ rest) ->
  7 <= len seg ->
  without_suffix "</span>" seg seg1 ->
  after_last_gt seg1 res ->
  champDetail (pre ++ ">" ++ nm ++ seg ++ "</td></tr>" ++ rest)
  = Ok (strings_TrimSpace nm,
        if decide (res = "&nbsp;") then "NS" : gostring else res).
Proof.
  intros Hp1 Hp2 Hp3 Hn1 Hn2 Hseg Hfirst H7 Hsuf [Hres Hlast].
  unfold champDetail.
  rewrite (champ_end pre nm seg rest Hp2 Hp3 Hn1 Hn2 Hseg).
  rewrite (champ_start pre nm seg rest Hp1).
  assert (E1 : slice (pre ++ ">" ++ nm ++ seg ++ "</td></tr>" ++ rest)
                 (len pre + 1) (len (pre ++ ">" ++ nm)) = Ok nm).
  { rewrite (app_assoc pre ">" (nm ++ _)). apply slice_mid.
    - rewrite len_app. reflexivity.
    - rewrite !len_app. lia. }
  rewrite E1. cbn [mbind result_bind].
  assert (E2 : slice_from (pre ++ ">" ++ nm ++ seg ++ "</td></tr>" ++ rest)
                 (len (pre ++ ">" ++ nm)) = Ok (seg ++ "</td></tr>" ++ rest)).
  { rewrite (app_assoc ">" nm), (app_assoc pre). apply slice_from_app. }
  rewrite E2. cbn [mbind result_bind].
  rewrite (index_first _ _ _ Hfirst).
  destruct (Z.eqb_spec (len seg) (-1)) as [|_]; [lia|].
  rewrite slice_to_app. cbn [mbind result_bind].
  assert (E3 : slice_from seg (len seg - 7)
               = Ok (drop (length seg - 7) seg)).
  { unfold slice_from. rewrite slice_ok by lia. f_equal.
    replace (Z.to_nat (len seg - 7)) with (length seg - 7)%nat
      by (unfold len; lia).
    apply take_ge. rewrite length_drop. unfold len. lia. }
  rewrite E3. cbn [mbind result_bind].
  assert (E4 : (if bytes_eqb "</span>" (drop (length seg - 7) seg)
                then slice_to seg (len seg - 7) else Ok seg) = Ok seg1).
  { destruct Hsuf as [-> | [Hns ->]].
    - rewrite length_app. change (length (list_ascii_of_string "</span>")) with 7%nat.
      replace (length seg1 + 7 - 7)%nat with (length seg1) by lia.
      rewrite drop_app_length.
      replace (bytes_eqb "</span>" "</span>") with true by done.
      rewrite len_app. change (len "</span>") with 7.
      replace (len seg1 + 7 - 7) with (len seg1) by lia.
      apply slice_to_app.
    - destruct (bytes_eqb _ _) eqn:E; [|done].
      apply bytes_eqb_true in E. destruct Hns.
      exists (take (length seg - 7) seg). by rewrite E, take_drop. }
  rewrite E4. cbn [mbind result_bind].
  assert (E5 : slice_from seg1 (strings_LastIndex seg1 ">" + 1) = Ok res).
  { destruct Hlast as [-> | [body ->]].
    - rewrite (last_index_byte_none ">"%char) by done.
      change (-1 + 1) with (len []). apply (slice_from_app [] res).
    - change (list_ascii_of_string ">") with [">"%char]. cbn [app].
      rewrite (last_index_byte ">"%char) by done.
      replace (len body + 1) with (len (body ++ [">"%char]))
        by (rewrite len_app; reflexivity).
      rewrite (cons_middle _ body res), (app_assoc body).
      apply slice_from_app. }
  rewrite E5. cbn [mbind result_bind].
  unfold bytes_eqb. f_equal. f_equal.
  destruct (decide (res = "&nbsp;")) as [->|Hne].
  - done.
  - rewrite bool_decide_eq_false_2; [done | congruence].
Qed.

Lemma C7_champDetail_trimmed_witness :
  champDetail champ_fragment_example = Ok ("Jo Mager" : gostring, "75" : gostring).
Proof.
  apply (C7_champDetail_trimmed ("lass=" ++ dquote :: "namecol" ++ [dquote])
           "Jo Mager " "(16)</td><td>75" "(16)</td><td>75" "75" []);
    try compute_done.
  - exists "16)</td><td>75". by right.
  - apply first_occurrence_index; reflexivity.
  - split; [compute_done|]. right. by exists "(16)</td><td".
Defined.

(** C7 as stated fails on the name: between the first [>] and the [(] the
    fragment reads "Jo Mager " with its space, the name extracted is
    "Jo Mager". *)
Lemma C7_name_counterexample :
  champ_fragment_example
  = ("lass=" ++ dquote :: "namecol" ++ [dquote]) ++ ">" ++ "Jo Mager "
    ++ "(16)</td><td>75</td></tr>" /\
  champDetail champ_fragment_example
  = Ok ("Jo Mager" : gostring, "75" : gostring) /\
  ¬ exists score, champDetail champ_fragment_example
                  = Ok ("Jo Mager " : gostring, score).
Proof.
  split; [reflexivity|]. split; [reflexivity|].
  intros [score H]. vm_compute in H. discriminate.
Qed.

(** Fewer than seven bytes between the name and the terminator: the test
    for [</span>] slices out of range. *)
Example champDetail_short_segment :
  champDetail ">Bob<td>5</td></tr>" = Fail RuntimePanic.
Proof. reflexivity. Qed.

(** ** Scanning terminates *)

Lemma scan_loop_total split fuel s :
  advancing split -> (length (sc_input s) < fuel)%nat ->
  is_Some (scan_loop fuel split s).
Proof.
  intros Hadv. revert s. induction fuel as [|fuel IH]; intros s Hlt; [lia|].
  simpl. destruct (Scan split s) as [[] s'] eqn:E; [|eauto].
  apply Hadv in E as Hlen.
  destruct (IH s' ltac:(lia)) as [[toks s''] ->]. eauto.
Qed.

Lemma scan_all_total split s : advancing split -> is_Some (scan_all split s).
Proof. intros. apply scan_loop_total; [done | lia]. Qed.

Lemma marker_split_advancing marker : advancing (marker_split marker).
Proof.
  intros [input tok err] s'. unfold Scan, marker_split. cbn [sc_input sc_err sc_token].
  assert (Hw : (length (take (Z.to_nat MaxScanTokenSize) input)
                <= length input)%nat) by (rewrite length_take; lia).
  revert Hw. generalize (take (Z.to_nat MaxScanTokenSize) input) as window.
  generalize (bool_decide (is_Some err) || (len input <? MaxScanTokenSize))
    as atEOF.
  intros atEOF window Hw.
  destruct (atEOF && (len window =? 0)) eqn:E0.
  { apply andb_true_iff in E0 as [Ea E0]. apply Z.eqb_eq in E0.
    rewrite Ea, E0. cbn. intros [=]. }
  pose proof (index_range window marker) as Hr.
  destruct (Z.leb_spec 0 (strings_Index window marker)) as [Hi|Hi].
  - destruct (Z.ltb_spec (strings_Index window marker + 1) 0); [lia|].
    destruct (Z.ltb_spec (len window) (strings_Index window marker + 1)).
    { intros [=]. }
    intros [= <-]. cbn. rewrite length_drop. unfold len in *. lia.
  - destruct atEOF eqn:Ea.
    + cbn in E0. apply Z.eqb_neq in E0.
      destruct (Z.ltb_spec (len window) 0); [pose proof (len_nonneg window); lia|].
      destruct (Z.ltb_spec (len window) (len window)); [lia|].
      intros [= <-]. cbn. rewrite length_drop. unfold len in *. lia.
    + cbn. destruct (len window <? 0); intros [=].
Qed.

Lemma ScanLines_advancing : advancing ScanLines.
Proof.
  intros [input tok err] s'. unfold Scan, ScanLines. cbn [sc_input sc_err sc_token].
  assert (Hw : (length (take (Z.to_nat MaxScanTokenSize) input)
                <= length input)%nat) by (rewrite length_take; lia).
  revert Hw. generalize (take (Z.to_nat MaxScanTokenSize) input) as window.
  generalize (bool_decide (is_Some err) || (len input <? MaxScanTokenSize))
    as atEOF.
  intros atEOF window Hw.
  destruct (atEOF && (len window =? 0)) eqn:E0.
  { apply andb_true_iff in E0 as [Ea E0]. apply Z.eqb_eq in E0.
    rewrite Ea, E0. cbn. intros [=]. }
  pose proof (index_range window [byte 10]) as Hr.
  destruct (Z.leb_spec 0 (strings_Index window [byte 10])) as [Hi|Hi].
  - destruct (Z.ltb_spec (strings_Index window [byte 10] + 1) 0); [lia|].
    destruct (Z.ltb_spec (len window) (strings_Index window [byte 10] + 1)).
    { intros [=]. }
    intros [= <-]. cbn. rewrite length_drop. unfold len in *. lia.
  - destruct atEOF eqn:Ea.
    + cbn in E0. apply Z.eqb_neq in E0.
      destruct (Z.ltb_spec (len window) 0); [pose proof (len_nonneg window); lia|].
      destruct (Z.ltb_spec (len window) (len window)); [lia|].
      intros [= <-]. cbn. rewrite length_drop. unfold len in *. lia.
    + cbn. destruct (len window <? 0); intros [=].
Qed.

Lemma page_tokens_total data : is_Some (page_tokens data).
Proof.
  unfold page_tokens, compSplitFunc, champSplitFunc.
  destruct (is_standard data).
  - destruct (scan_all_total (marker_split "?playerid=") (NewScanner data)
                (marker_split_advancing _)) as [x Hx].
    rewrite Hx. by eexists.
  - destruct (scan_all_total (marker_split namecol_marker) (NewScanner data)
                (marker_split_advancing _)) as [x Hx].
    rewrite Hx. by eexists.
Qed.

(** ** Scoring *)

Lemma scan_players_rest detail n r frags st :
  scan_players detail {| first := false; numPlayers := n; res := r |} frags
  = Ok st ->
  numPlayers st = n + Z.of_nat (length frags) /\
  exists new,
    res st = r ++ new /\ length new = length frags /\
    forall i frag p, frags !! i = Some frag -> new !! i = Some p ->
      detail frag = Ok (PlayerResult.Name p, PlayerResult.Result p) /\
      PlayerResult.Rank p = n + Z.of_nat i + 1.
Proof.
  revert n r. induction frags as [|frag frags IH]; intros n r.
  - intros [= <-]. cbn. split; [unfold len; simpl; lia|].
    exists []. rewrite app_nil_r. repeat split; done.
  - cbn [scan_players]. unfold scan_body at 1. cbn [first numPlayers res].
    destruct (detail frag) as [[name score]|f] eqn:Ed; cbn [mbind result_bind];
      [|done].
    intros H. apply IH in H as (Hn & new & Hres & Hlen & Hall).
    split; [unfold len in *; cbn [length]; lia|].
    exists (PlayerResult.mk name 0 (n + 1) score :: new).
    split; [by rewrite Hres, <- app_assoc|].
    split; [cbn; lia|].
    intros [|i] frag' p; cbn.
    + intros [= <-] [= <-]. cbn. split; [done | lia].
    + intros Hf Hp. destruct (Hall i frag' p Hf Hp). split; [done | lia].
Qed.

Lemma scan_players_tokens detail toks st :
  scan_players detail {| first := true; numPlayers := 0; res := [] |} toks
  = Ok st ->
  numPlayers st = Z.of_nat (length (tail toks)) /\
  length (res st) = length (tail toks) /\
  forall i frag p, tail toks !! i = Some frag -> res st !! i = Some p ->
    detail frag = Ok (PlayerResult.Name p, PlayerResult.Result p) /\
    PlayerResult.Rank p = Z.of_nat i + 1.
Proof.
  destruct toks as [|hdr frags].
  - intros [= <-]. cbn. repeat split; done.
  - cbn [scan_players]. unfold scan_body at 1. cbn [first mbind result_bind].
    cbn [numPlayers res tail].
    intros H. apply scan_players_rest in H as (Hn & new & Hres & Hlen & Hall).
    cbn [app] in Hres. rewrite Hres. split; [lia|]. split; [done|].
    intros i frag p Hf Hp. destruct (Hall i frag p Hf Hp). split; [done | lia].
Qed.

Lemma scored_length k n res : length (scored k n res) = length res.
Proof. revert n. induction res; intros; cbn; [done | by rewrite IHres]. Qed.

Lemma scored_lookup k n res i :
  scored k n res !! i = score_entry k (n + Z.of_nat i) <$> res !! i.
Proof.
  revert n i. induction res as [|p res IH]; intros n [|i]; cbn; try done.
  - by rewrite Z.add_0_r.
  - rewrite IH. by replace (n + 1 + Z.of_nat i) with (n + Z.pos (Pos.of_succ_nat i)) by lia.
Qed.

Lemma last_named_cons name e es :
  last_named name (e :: es)
  = match last_named name es with
    | Some e' => Some e'
    | None => if decide (PlayerResult.Name e = name) then Some e else None
    end.
Proof.
  unfold last_named. rewrite filter_cons.
  destruct (decide (PlayerResult.Name e = name)); [|by destruct (last _)].
  destruct (filter _ es) as [|x l]; [done|]. cbn.
  by destruct (last (x :: l)) eqn:E; [|apply last_None in E].
Qed.

Lemma store_results_lookup k n res m name :
  store_results k n res m !! name
  = match last_named name (scored k n res) with
    | Some e => Some e
    | None => m !! name
    end.
Proof.
  revert n m. induction res as [|p res IH]; intros n m; cbn [store_results scored].
  - done.
  - rewrite IH, last_named_cons.
    destruct (last_named name (scored k (n + 1) res)); [done|].
    change (PlayerResult.Name (score_entry k n p)) with (PlayerResult.Name p).
    destruct (decide (PlayerResult.Name p = name)) as [<-|Hne].
    + by rewrite lookup_insert_eq.
    + by rewrite lookup_insert_ne.
Qed.

Lemma store_results_dom k n res m :
  dom (store_results k n res m)
  = list_to_set (map PlayerResult.Name res) ∪ dom m.
Proof.
  revert n m. induction res as [|p res IH]; intros n m; cbn [store_results].
  - cbn. set_solver.
  - rewrite IH, dom_insert_L. cbn. set_solver.
Qed.

Lemma size_list_to_set_le (l : list gostring) :
  (size (list_to_set l : gset gostring) <= length l)%nat.
Proof.
  induction l as [|x l IH]; cbn; [by rewrite size_empty|].
  destruct (decide (x ∈ (list_to_set l : gset gostring))).
  - replace ({[x]} ∪ list_to_set l) with (list_to_set l : gset gostring)
      by set_solver. lia.
  - rewrite size_union by set_solver. rewrite size_singleton. lia.
Qed.

Lemma size_list_to_set_NoDup (l : list gostring) :
  size (list_to_set l : gset gostring) = length l <-> NoDup l.
Proof.
  split; [|apply size_list_to_set].
  induction l as [|x l IH]; cbn; [constructor|].
  pose proof (size_list_to_set_le l).
  destruct (decide (x ∈ (list_to_set l : gset gostring))).
  - replace ({[x]} ∪ list_to_set l) with (list_to_set l : gset gostring)
      by set_solver. lia.
  - rewrite size_union by set_solver. rewrite size_singleton.
    intros Hsz. constructor; [set_solver | apply IH; lia].
Qed.

Lemma last_named_None name es e :
  last_named name es = None -> e ∈ es -> PlayerResult.Name e <> name.
Proof.
  unfold last_named. intros H%last_None He Hn.
  assert (e ∈ filter (fun e => PlayerResult.Name e = name) es)
    by (by apply list_elem_of_filter).
  rewrite H in *. by eapply not_elem_of_nil.
Qed.

Lemma last_named_Some name es e :
  last_named name es = Some e ->
  PlayerResult.Name e = name /\
  exists i, es !! i = Some e /\
    forall j e', es !! j = Some e' -> PlayerResult.Name e' = name ->
                 (j <= i)%nat.
Proof.
  revert e. induction es as [|x es IH]; intros e.
  - done.
  - rewrite last_named_cons.
    destruct (last_named name es) as [e0|] eqn:E.
    + intros [= <-]. destruct (IH e0 eq_refl) as (Hn & i & Hi & Hmax).
      split; [done|]. exists (S i). split; [done|].
      intros [|j] e' Hj Hn'; [lia|]. cbn in Hj.
      specialize (Hmax j e' Hj Hn'). lia.
    + destruct (decide (PlayerResult.Name x = name)) as [Hx|]; [|done].
      intros [= <-]. split; [done|]. exists 0%nat. split; [done|].
      intros [|j] e' Hj Hn'; [lia|]. cbn in Hj.
      destruct (last_named_None name es e' E); [|done].
      by eapply list_elem_of_lookup_2.
Qed.

Lemma populate_from_page_inv comp data c :
  populate_from_page comp data = Ok c ->
  exists toks st,
    page_tokens data = Some toks /\
    scan_players (page_detail data)
      {| first := true; numPlayers := 0; res := [] |} toks = Ok st /\
    c = Competition.mk (Competition.Key comp) (Competition.Name comp)
          (Competition.Date comp) (Competition.URL comp) (numPlayers st)
          (store_results (numPlayers st) 0 (res st) ∅).
Proof.
  unfold populate_from_page. fold (page_detail data).
  destruct (page_tokens data) as [toks|]; [|done].
  destruct (scan_players _ _ toks) as [st|] eqn:E; cbn [mbind result_bind];
    [|done].
  intros [= <-]. eauto.
Qed.

(** What a populated competition holds of the fragments of its page. *)
Lemma populate_entries comp data toks c :
  page_tokens data = Some toks ->
  populate_from_page comp data = Ok c ->
  exists es : list PlayerResult.t,
    length es = length (tail toks) /\
    Competition.NumPlayers c = Z.of_nat (length es) /\
    (forall i frag e,
       tail toks !! i = Some frag -> es !! i = Some e ->
       page_detail data frag = Ok (PlayerResult.Name e, PlayerResult.Result e) /\
       PlayerResult.Rank e = Z.of_nat i + 1 /\
       PlayerResult.OOMPoints e
       = if snd (strconv_Atoi (PlayerResult.Result e))
         then Competition.NumPlayers c - Z.of_nat i else 0) /\
    (forall name, Competition.Results c !! name = last_named name es).
Proof.
  intros Htoks Hpop.
  apply populate_from_page_inv in Hpop as (toks' & st & Htoks' & Hscan & ->).
  assert (toks' = toks) as -> by congruence.
  apply scan_players_tokens in Hscan as (Hn & Hlen & Hall).
  exists (scored (numPlayers st) 0 (res st)). cbn [Competition.NumPlayers Competition.Results].
  rewrite scored_length. split; [done|]. split; [lia|]. split.
  - intros i frag e Hf He. rewrite scored_lookup in He.
    destruct (res st !! i) as [p|] eqn:Ep; [|done]. injection He as <-.
    destruct (Hall i frag p Hf Ep) as [Hd Hr]. cbn.
    split; [done|]. split; [done|]. by rewrite Z.add_0_l.
  - intros name. rewrite store_results_lookup, lookup_empty.
    by destruct (last_named _ _).
Qed.

Lemma populate_names comp data toks c :
  page_tokens data = Some toks ->
  populate_from_page comp data = Ok c ->
  exists names : list gostring,
    Forall2 (fun frag name =>
               exists score, page_detail data frag = Ok (name, score))
            (tail toks) names /\
    Competition.NumPlayers c = Z.of_nat (length (tail toks)) /\
    dom (Competition.Results c) = list_to_set names /\
    (forall name p, Competition.Results c !! name = Some p ->
       exists i, names !! i = Some name /\
                 PlayerResult.Rank p = Z.of_nat i + 1 /\
                 forall j, names !! j = Some name -> (j <= i)%nat) /\
    (size (Competition.Results c) <= length (tail toks))%nat /\
    (size (Competition.Results c) = length (tail toks) <-> NoDup names).
Proof.
  intros Htoks Hpop.
  apply populate_from_page_inv in Hpop as (toks' & st & Htoks' & Hscan & ->).
  assert (toks' = toks) as -> by congruence.
  apply scan_players_tokens in Hscan as (Hn & Hlen & Hall).
  exists (map PlayerResult.Name (res st)).
  cbn [Competition.NumPlayers Competition.Results].
  assert (Hdom : dom (store_results (numPlayers st) 0 (res st) ∅)
                 = list_to_set (map PlayerResult.Name (res st)))
    by (rewrite store_results_dom; set_solver).
  assert (Hsize : size (store_results (numPlayers st) 0 (res st) ∅)
                  = size (list_to_set (map PlayerResult.Name (res st))
                          : gset gostring))
    by (by rewrite <- Hdom, size_dom).
  split; [|split; [done|split; [done|split; [|split]]]].
  - apply Forall2_same_length_lookup. split; [by rewrite length_map|].
    intros i frag name Hf Hname. rewrite list_lookup_fmap in Hname.
    destruct (res st !! i) as [p|] eqn:Ep; [|done]. injection Hname as <-.
    destruct (Hall i frag p Hf Ep) as [Hd _]. eauto.
  - intros name p Hp. rewrite store_results_lookup, lookup_empty in Hp.
    destruct (last_named _ _) as [e|] eqn:El; [|done]. injection Hp as ->.
    apply last_named_Some in El as (Hname & i & Hi & Hmax).
    rewrite scored_lookup in Hi.
    destruct (res st !! i) as [p0|] eqn:Ep; [|done]. injection Hi as <-.
    exists i. cbn in Hname. rewrite list_lookup_fmap, Ep. cbn.
    split; [by rewrite Hname|]. split.
    + destruct (tail toks !! i) as [frag|] eqn:Ef.
      * by destruct (Hall i frag p0 Ef Ep).
      * apply lookup_ge_None in Ef. apply lookup_lt_Some in Ep. lia.
    + intros j Hj. rewrite list_lookup_fmap in Hj.
      destruct (res st !! j) as [pj|] eqn:Epj; [|done]. injection Hj as Hj.
      apply (Hmax j (score_entry (numPlayers st) (0 + Z.of_nat j) pj));
        [by rewrite scored_lookup, Epj | done].
  - rewrite Hsize, <- Hlen, <- (length_map PlayerResult.Name).
    apply size_list_to_set_le.
  - rewrite Hsize, <- Hlen, <- (length_map PlayerResult.Name).
    apply size_list_to_set_NoDup.
Qed.

Lemma scan_players_rest_ok detail n r frags
    (players : list (gostring * gostring)) :
  Forall2 (fun frag p => detail frag = Ok p) frags players ->
  exists st,
    scan_players detail {| first := false; numPlayers := n; res := r |} frags
    = Ok st.
Proof.
  intros H. revert n r.
  induction H as [|frag [name score] frags players Hd _ IH]; intros n r.
  - eexists. reflexivity.
  - cbn [scan_players]. unfold scan_body at 1. cbn [first numPlayers res].
    rewrite Hd. cbn [mbind result_bind]. apply IH.
Qed.

Lemma scan_players_ok detail toks (players : list (gostring * gostring)) :
  Forall2 (fun frag p => detail frag = Ok p) (tail toks) players ->
  exists st,
    scan_players detail {| first := true; numPlayers := 0; res := [] |} toks
    = Ok st.
Proof.
  destruct toks as [|hdr frags]; cbn [tail]; intros H.
  - eexists. reflexivity.
  - cbn [scan_players]. unfold scan_body at 1. cbn [first mbind result_bind].
    by eapply scan_players_rest_ok.
Qed.

Lemma populate_from_page_ok comp data toks
    (players : list (gostring * gostring)) :
  page_tokens data = Some toks ->
  Forall2 (fun frag p => page_detail data frag = Ok p) (tail toks) players ->
  exists c, populate_from_page comp data = Ok c.
Proof.
  intros Ht Hp. destruct (scan_players_ok _ _ _ Hp) as [st Hst].
  unfold populate_from_page. fold (page_detail data). rewrite Ht, Hst.
  cbn [mbind result_bind]. eauto.
Qed.

(** C1. Every page is cut into a header and fragments.  When a name and
    a result are extracted from each fragment, in page order, the page is
    scored, the player count is the number of fragments, and the entries,
    in page order, have: rank = 1-based position; points = player count
    minus the 0-based position, but 0 when the result is not an integer
    for [strconv.Atoi]; and each entry is stored under its name (the
    last one, should a name occur twice). *)
Theorem C1_rank_and_points comp data :
  exists toks,
    page_tokens data = Some toks /\
    forall players : list (gostring * gostring),
      Forall2 (fun frag p => page_detail data frag = Ok p) (tail toks) players ->
      exists c (es : list PlayerResult.t),
        populate_from_page comp data = Ok c /\
        Competition.NumPlayers c = Z.of_nat (length players) /\
        length es = length players /\
        (forall i name result e,
           players !! i = Some (name, result) -> es !! i = Some e ->
           PlayerResult.Name e = name /\
           PlayerResult.Result e = result /\
           PlayerResult.Rank e = Z.of_nat i + 1 /\
           PlayerResult.OOMPoints e
           = if snd (strconv_Atoi result)
             then Z.of_nat (length players) - Z.of_nat i else 0) /\
        (forall name, Competition.Results c !! name = last_named name es).
Proof.
  destruct (page_tokens_total data) as [toks Htoks]. exists toks.
  split; [done|]. intros players Hplayers.
  destruct (populate_from_page_ok comp data toks players Htoks Hplayers)
    as [c Hc].
  destruct (populate_entries comp data toks c Htoks Hc)
    as (es & Hlen & Hnum & Hes & Hstore).
  apply Forall2_length in Hplayers as Hl.
  exists c, es. split; [done|]. split; [lia|]. split; [lia|]. split; [|done].
  intros i name result e Hp He.
  destruct (tail toks !! i) as [frag|] eqn:Ef.
  2:{ apply lookup_ge_None in Ef. apply lookup_lt_Some in Hp. lia. }
  destruct (Hes i frag e Ef He) as (Hd & Hr & Hpts).
  rewrite Forall2_lookup in Hplayers. specialize (Hplayers i).
  rewrite Ef, Hp in Hplayers. inversion Hplayers as [? ? Hd'|]; subst.
  rewrite Hd in Hd'. injection Hd' as <- <-.
  split; [done|]. split; [done|]. split; [done|].
  rewrite Hpts, Hnum, Hlen, Hl. done.
Qed.

Lemma C1_rank_and_points_witness :
  exists c (es : list PlayerResult.t),
    populate_from_page (new_competition "5462") standard_page_example = Ok c /\
    Competition.NumPlayers c = 3 /\
    length es = 3%nat /\
    (forall i name result e,
       [("Alice" : gostring, "72" : gostring); ("Bob" : gostring, "75" : gostring);
        ("Carol" : gostring, "DQ" : gostring)] !! i = Some (name, result) ->
       es !! i = Some e ->
       PlayerResult.Name e = name /\
       PlayerResult.Result e = result /\
       PlayerResult.Rank e = Z.of_nat i + 1 /\
       PlayerResult.OOMPoints e
       = if snd (strconv_Atoi result) then 3 - Z.of_nat i else 0) /\
    (forall name, Competition.Results c !! name = last_named name es).
Proof.
  destruct (C1_rank_and_points (new_competition "5462") standard_page_example)
    as (toks & Htoks & H).
  apply (H [("Alice" : gostring, "72" : gostring);
            ("Bob" : gostring, "75" : gostring);
            ("Carol" : gostring, "DQ" : gostring)]).
  vm_compute in Htoks. injection Htoks as <-.
  repeat constructor.
Defined.

(** The scenario of the design document: Alice (72), Bob (75) and Carol
    (DQ), in this order, get 3, 2 and 0 points and ranks 1, 2, 3. *)
Example three_players_scored :
  exists c,
    populate_from_page (new_competition "5462") standard_page_example = Ok c /\
    Competition.NumPlayers c = 3 /\
    Competition.Results c !! ("Alice" : gostring)
    = Some (PlayerResult.mk "Alice" 3 1 "72") /\
    Competition.Results c !! ("Bob" : gostring)
    = Some (PlayerResult.mk "Bob" 2 2 "75") /\
    Competition.Results c !! ("Carol" : gostring)
    = Some (PlayerResult.mk "Carol" 0 3 "DQ").
Proof. eexists. split; [vm_compute; reflexivity|]. by vm_compute. Qed.

(** C10. Every page is cut into a header and fragments.  When a name
    and a result are extracted from each fragment, the page is scored and:
    [NumPlayers] is the number of fragments after the header; [Results]
    has exactly the extracted names as its keys, the entry under a name
    being that of the last fragment with this name; so it has at most
    [NumPlayers] entries, and exactly that many if and only if the names
    are pairwise distinct. *)
Theorem C10_results_size comp data :
  exists toks,
    page_tokens data = Some toks /\
    forall players : list (gostring * gostring),
      Forall2 (fun frag p => page_detail data frag = Ok p) (tail toks) players ->
      exists c,
        populate_from_page comp data = Ok c /\
        Competition.NumPlayers c = Z.of_nat (length (tail toks)) /\
        dom (Competition.Results c) = list_to_set players.*1 /\
        (forall name p, Competition.Results c !! name = Some p ->
           exists i, players.*1 !! i = Some name /\
                     PlayerResult.Rank p = Z.of_nat i + 1 /\
                     forall j, players.*1 !! j = Some name -> (j <= i)%nat) /\
        (size (Competition.Results c) <= length (tail toks))%nat /\
        (size (Competition.Results c) = length (tail toks)
         <-> NoDup players.*1).
Proof.
  destruct (page_tokens_total data) as [toks Htoks]. exists toks.
  split; [done|]. intros players Hplayers.
  destruct (populate_from_page_ok comp data toks players Htoks Hplayers)
    as [c Hc].
  destruct (populate_names comp data toks c Htoks Hc)
    as (names & Hnames & Hrest).
  assert (names = players.*1) as ->; [|by exists c].
  apply list_eq. intros i. rewrite list_lookup_fmap.
  rewrite Forall2_lookup in Hnames. rewrite Forall2_lookup in Hplayers.
  specialize (Hnames i). specialize (Hplayers i).
  destruct (tail toks !! i) as [frag|];
    inversion Hnames as [? ? (score & Hd)|]; inversion Hplayers as [? [] Hd'|];
    subst; cbn; [|done].
  rewrite Hd in Hd'. by injection Hd' as <- <-.
Qed.

Lemma C10_results_size_witness :
  exists c,
    populate_from_page (new_competition "1") repeated_name_page = Ok c /\
    Competition.NumPlayers c = 2 /\
    dom (Competition.Results c) = {[ "Ann" : gostring ]} /\
    (size (Competition.Results c) <= 2)%nat /\
    ¬ size (Competition.Results c) = 2%nat.
Proof.
  destruct (C10_results_size (new_competition "1") repeated_name_page)
    as (toks & Htoks & H).
  destruct (H [("Ann" : gostring, "70" : gostring);
               ("Ann" : gostring, "71" : gostring)])
    as (c & Hc & Hnum & Hdom & _ & Hle & Hiff).
  { vm_compute in Htoks. injection Htoks as <-. repeat constructor. }
  vm_compute in Htoks. injection Htoks as <-.
  exists c. split; [done|]. split; [done|].
  split; [rewrite Hdom; cbn; set_solver|]. split; [done|].
  intros Heq. apply Hiff in Heq. cbn in Heq.
  apply NoDup_cons in Heq as [Hin _]. apply Hin. left.
Defined.

(** Two fragments, one name: two players are counted, one entry is kept,
    that of the later fragment. *)
Example repeated_name_overwrites :
  exists c,
    populate_from_page (new_competition "1") repeated_name_page = Ok c /\
    Competition.NumPlayers c = 2 /\
    size (Competition.Results c) = 1%nat /\
    Competition.Results c !! ("Ann" : gostring)
    = Some (PlayerResult.mk "Ann" 1 2 "71").
Proof. eexists. split; [vm_compute; reflexivity|]. by vm_compute. Qed.

(** ** Resolving the descriptors *)

Lemma firstMissingKey_none c m :
  all_listed c m -> firstMissingKey c m = (false, []).
Proof.
  induction 1 as [|d c [e He] _ IH]; cbn; [done|]. by rewrite He.
Qed.

Lemma firstMissingKey_some c m :
  ¬ all_listed c m ->
  exists k, firstMissingKey c m = (true, k) /\ m !! k = None /\
            k ∈ map Competition.Key c.
Proof.
  induction c as [|d c IH]; intros Hno.
  - destruct Hno. constructor.
  - cbn. destruct (m !! Competition.Key d) as [e|] eqn:E.
    + destruct IH as (k & H1 & H2 & H3).
      { intros Hall. apply Hno. constructor; [by rewrite E | done]. }
      exists k. repeat split; [done | done | by right].
    + exists (Competition.Key d). repeat split; [done | by left].
Qed.

Lemma fetchAllCompsPage_cached year w d :
  files w !! listing_cache_name year = Some d ->
  fetchAllCompsPage year true w = (Ok (d, true), w).
Proof.
  intros H. unfold fetchAllCompsPage, ReadFile, mbind, M_bind, mret, M_ret.
  by rewrite H.
Qed.

Lemma fetchAllCompsPage_live year useCached w d :
  (useCached = true -> files w !! listing_cache_name year = None) ->
  web w (listing_url year) = Some d ->
  fetchAllCompsPage year useCached w = (Ok (d, false), fetched_listing year d w).
Proof.
  intros Hc Hw.
  unfold fetchAllCompsPage, ReadFile, MustFetch, WriteFile, mbind, M_bind,
    mret, M_ret.
  destruct useCached; [rewrite Hc by done|]; cbn [files web fetched];
    by rewrite Hw.
Qed.

Lemma resolve_cached ord url_Parse year fname w requested d m :
  parseKeysFromFile url_Parse fname w = (Ok requested, w) ->
  files w !! listing_cache_name year = Some d ->
  parseWebComps d = Ok m ->
  all_listed requested m ->
  FetchCompDescriptions ord url_Parse year fname w
  = (Ok (update_descs ord m requested), w).
Proof.
  intros Hk Hf Hp Hall. unfold FetchCompDescriptions.
  unfold mbind at 1, M_bind at 1. rewrite Hk.
  unfold mbind at 1, M_bind at 1. rewrite (fetchAllCompsPage_cached _ _ _ Hf).
  unfold mbind at 1, M_bind at 1, lift at 1. rewrite Hp.
  rewrite (firstMissingKey_none _ _ Hall). cbn [andb].
  reflexivity.
Qed.

Lemma resolve_refetch ord url_Parse year fname w requested d m d' m' :
  parseKeysFromFile url_Parse fname w = (Ok requested, w) ->
  files w !! listing_cache_name year = Some d ->
  parseWebComps d = Ok m ->
  ¬ all_listed requested m ->
  web w (listing_url year) = Some d' ->
  parseWebComps d' = Ok m' ->
  FetchCompDescriptions ord url_Parse year fname w
  = (match firstMissingKey requested m' with
     | (true, k) => Fail (LogFatal (FatalMissingComp k))
     | (false, _) => Ok (update_descs ord m' requested)
     end, fetched_listing year d' w).
Proof.
  intros Hk Hf Hp Hmiss Hw Hp'. unfold FetchCompDescriptions.
  unfold mbind at 1, M_bind at 1. rewrite Hk.
  unfold mbind at 1, M_bind at 1. rewrite (fetchAllCompsPage_cached _ _ _ Hf).
  unfold mbind at 1, M_bind at 1, lift at 1. rewrite Hp.
  destruct (firstMissingKey_some _ _ Hmiss) as (k & -> & _ & _).
  cbn [andb negb].
  unfold mbind at 1, M_bind at 1. unfold mbind at 1, M_bind at 1.
  rewrite (fetchAllCompsPage_live year false w d') by done.
  unfold mbind at 1, M_bind at 1, lift at 1. rewrite Hp'.
  destruct (firstMissingKey requested m') as [[] k']; cbn [andb negb];
    reflexivity.
Qed.

Lemma resolve_uncached ord url_Parse year fname w requested d m :
  parseKeysFromFile url_Parse fname w = (Ok requested, w) ->
  files w !! listing_cache_name year = None ->
  web w (listing_url year) = Some d ->
  parseWebComps d = Ok m ->
  FetchCompDescriptions ord url_Parse year fname w
  = (match firstMissingKey requested m with
     | (true, k) => Fail (LogFatal (FatalMissingComp k))
     | (false, _) => Ok (update_descs ord m requested)
     end, fetched_listing year d w).
Proof.
  intros Hk Hf Hw Hp. unfold FetchCompDescriptions.
  unfold mbind at 1, M_bind at 1. rewrite Hk.
  unfold mbind at 1, M_bind at 1.
  rewrite (fetchAllCompsPage_live year true w d) by done.
  unfold mbind at 1, M_bind at 1, lift at 1. rewrite Hp.
  destruct (firstMissingKey requested m) as [[] k']; cbn [andb negb];
    reflexivity.
Qed.

(** C2. With the requested descriptors read from the configuration:
    - the listing is in the cache and lists every requested key: the
      resolution succeeds and nothing is fetched;
    - the listing is in the cache and a requested key is missing from it:
      the listing is fetched once (and the cache file rewritten), and the
      check is made again on the fetched listing; if a key is missing
      from that one too, the run ends in [log.Fatal], otherwise the
      resolution succeeds;
    - there is no cached listing: it is fetched once, and a key missing
      from it ends the run in [log.Fatal], otherwise the resolution
      succeeds. *)
Theorem C2_resolution ord url_Parse year fname w requested :
  parseKeysFromFile url_Parse fname w = (Ok requested, w) ->
  (forall d m,
     files w !! listing_cache_name year = Some d -> parseWebComps d = Ok m ->
     (all_listed requested m ->
      exists descs,
        FetchCompDescriptions ord url_Parse year fname w = (Ok descs, w)) /\
     (¬ all_listed requested m ->
      forall d' m',
        web w (listing_url year) = Some d' -> parseWebComps d' = Ok m' ->
        (all_listed requested m' ->
         exists descs,
           FetchCompDescriptions ord url_Parse year fname w
           = (Ok descs, fetched_listing year d' w)) /\
        (¬ all_listed requested m' ->
         exists k,
           m' !! k = None /\ k ∈ map Competition.Key requested /\
           FetchCompDescriptions ord url_Parse year fname w
           = (Fail (LogFatal (FatalMissingComp k)),
              fetched_listing year d' w)))) /\
  (forall d m,
     files w !! listing_cache_name year = None ->
     web w (listing_url year) = Some d -> parseWebComps d = Ok m ->
     (all_listed requested m ->
      exists descs,
        FetchCompDescriptions ord url_Parse year fname w
        = (Ok descs, fetched_listing year d w)) /\
     (¬ all_listed requested m ->
      exists k,
        m !! k = None /\ k ∈ map Competition.Key requested /\
        FetchCompDescriptions ord url_Parse year fname w
        = (Fail (LogFatal (FatalMissingComp k)), fetched_listing year d w))).
Proof.
  intros Hk. split.
  - intros d m Hf Hp. split.
    + intros Hall. eexists. by eapply resolve_cached.
    + intros Hmiss d' m' Hw Hp'.
      rewrite (resolve_refetch ord url_Parse year fname w requested d m d' m')
        by done.
      split.
      * intros Hall. rewrite (firstMissingKey_none _ _ Hall). eauto.
      * intros Hmiss'.
        destruct (firstMissingKey_some _ _ Hmiss') as (k & -> & ? & ?). eauto.
  - intros d m Hf Hw Hp.
    rewrite (resolve_uncached ord url_Parse year fname w requested d m)
      by done.
    split.
    + intros Hall. rewrite (firstMissingKey_none _ _ Hall). eauto.
    + intros Hmiss.
      destruct (firstMissingKey_some _ _ Hmiss) as (k & -> & ? & ?). eauto.
Qed.

(** ** Filling in the descriptors *)

Lemma parseWebComps_loop_keyed fuel compstr ret m :
  keyed ret -> parseWebComps_loop fuel compstr ret = Ok m -> keyed m.
Proof.
  revert compstr ret. induction fuel as [|fuel IH]; intros compstr ret Hret;
    [done|].
  cbn [parseWebComps_loop].
  destruct (tokenStart compstr "?compid=" =? -1); [by intros [= <-]|].
  repeat (match goal with
          | |- context [mbind _ ?r] =>
              destruct r; cbn [mbind result_bind]; [|done]
          end).
  apply IH. intros k e. rewrite lookup_insert.
  destruct (decide _) as [<-|]; [by intros [= <-] | apply Hret].
Qed.

Lemma parseWebComps_keyed d m : parseWebComps d = Ok m -> keyed m.
Proof. apply parseWebComps_loop_keyed. intros k e. by rewrite lookup_empty. Qed.

Lemma update_desc_other key cur e :
  Competition.Key e <> key -> update_desc key cur e = cur.
Proof.
  intros Hne. unfold update_desc, bytes_eqb.
  by rewrite bool_decide_eq_false_2 by congruence.
Qed.

Lemma update_desc_match key cur e :
  Competition.Key e = key -> Competition.Key cur = key ->
  update_desc key cur e = resolved cur e.
Proof.
  intros He Hc. unfold update_desc, resolved, bytes_eqb.
  rewrite bool_decide_eq_true_2 by done.
  f_equal. by destruct (decide _); [rewrite bool_decide_eq_true_2
                                    | rewrite bool_decide_eq_false_2].
Qed.

Lemma fold_update_absent key cur (l : list (gostring * Competition.t)) :
  (forall k e, (k, e) ∈ l -> Competition.Key e = k) ->
  key ∉ l.*1 ->
  fold_left (fun cur kv => update_desc key cur (snd kv)) l cur = cur.
Proof.
  revert cur. induction l as [|[k e] l IH]; intros cur Hk Hno; [done|].
  cbn. rewrite update_desc_other.
  - apply IH; [intros; apply Hk; by right | set_solver].
  - rewrite (Hk k e) by left. set_solver.
Qed.

Lemma fold_update_present key cur e (l : list (gostring * Competition.t)) :
  (forall k e, (k, e) ∈ l -> Competition.Key e = k) ->
  NoDup l.*1 -> (key, e) ∈ l -> Competition.Key cur = key ->
  fold_left (fun cur kv => update_desc key cur (snd kv)) l cur
  = resolved cur e.
Proof.
  revert cur. induction l as [|[k e0] l IH]; intros cur Hk Hnd Hin Hcur.
  - by apply elem_of_nil in Hin.
  - cbn in *. apply NoDup_cons in Hnd as [Hk0 Hnd].
    apply elem_of_cons in Hin as [[= <- <-] | Hin].
    + rewrite update_desc_match; [|by apply Hk; left | done].
      apply fold_update_absent; [intros; apply Hk; by right | done].
    + rewrite update_desc_other.
      * apply IH; [intros; apply Hk; by right | done..].
      * rewrite (Hk k e0) by left. intros ->. apply Hk0.
        apply list_elem_of_fmap. by exists (key, e).
Qed.

Lemma update_descs_spec ord m requested :
  valid_order ord -> keyed m -> all_listed requested m ->
  Forall2 (fun d r => exists e, m !! Competition.Key d = Some e /\
                                r = resolved d e)
          requested (update_descs ord m requested).
Proof.
  intros Hord Hm Hall. unfold update_descs.
  apply Forall2_fmap_r, Forall_Forall2_diag.
  eapply Forall_impl; [exact Hall|]. intros d [e He]. exists e. split; [done|].
  unfold range_map. apply fold_update_present.
  - intros k e' Hin. rewrite (Hord _ _) in Hin.
    apply elem_of_map_to_list in Hin. by apply Hm.
  - rewrite (Hord _ _). apply NoDup_fst_map_to_list.
  - rewrite (Hord _ _). by apply elem_of_map_to_list.
  - done.
Qed.

Lemma parseKeysFromFile_world url_Parse fname w r w1 :
  parseKeysFromFile url_Parse fname w = (r, w1) -> w1 = w.
Proof.
  unfold parseKeysFromFile, ReadFile, lift, mbind, M_bind.
  destruct (files w !! fname); by intros [= _ <-].
Qed.

Lemma firstMissingKey_false c m k :
  firstMissingKey c m = (false, k) -> all_listed c m.
Proof.
  intros H. destruct (decide (all_listed c m)) as [|Hno]; [done|].
  destruct (firstMissingKey_some c m Hno) as (k' & Hk' & _). congruence.
Qed.

Lemma FetchCompDescriptions_ok ord url_Parse year fname w descs w' :
  FetchCompDescriptions ord url_Parse year fname w = (Ok descs, w') ->
  exists requested page listing,
    parseKeysFromFile url_Parse fname w = (Ok requested, w) /\
    (files w !! listing_cache_name year = Some page \/
     web w (listing_url year) = Some page) /\
    parseWebComps page = Ok listing /\
    all_listed requested listing /\
    descs = update_descs ord listing requested.
Proof.
  intros H.
  destruct (parseKeysFromFile url_Parse fname w) as [[requested|f] w1] eqn:Hk.
  2:{ unfold FetchCompDescriptions, mbind at 1, M_bind at 1 in H.
      by rewrite Hk in H. }
  apply parseKeysFromFile_world in Hk as Hw1. subst w1.
  exists requested.
  destruct (files w !! listing_cache_name year) as [d|] eqn:Hf.
  - destruct (parseWebComps d) as [m|] eqn:Hp.
    2:{ unfold FetchCompDescriptions in H.
        unfold mbind at 1, M_bind at 1 in H. rewrite Hk in H.
        unfold mbind at 1, M_bind at 1 in H.
        rewrite (fetchAllCompsPage_cached _ _ _ Hf) in H.
        unfold mbind at 1, M_bind at 1, lift at 1 in H. by rewrite Hp in H. }
    destruct (decide (all_listed requested m)) as [Hall|Hmiss].
    + rewrite (resolve_cached ord url_Parse year fname w requested d m) in H
        by done.
      injection H as <- <-. exists d, m. eauto 10.
    + destruct (web w (listing_url year)) as [d'|] eqn:Hw.
      2:{ unfold FetchCompDescriptions in H.
          unfold mbind at 1, M_bind at 1 in H. rewrite Hk in H.
          unfold mbind at 1, M_bind at 1 in H.
          rewrite (fetchAllCompsPage_cached _ _ _ Hf) in H.
          unfold mbind at 1, M_bind at 1, lift at 1 in H. rewrite Hp in H.
          destruct (firstMissingKey_some _ _ Hmiss) as (k & Hfm & _ & _).
          rewrite Hfm in H. cbn [andb negb] in H.
          unfold mbind at 1, M_bind at 1 in H.
          unfold mbind at 1, M_bind at 1 in H.
          unfold fetchAllCompsPage, mbind at 1, M_bind at 1, mret, M_ret in H.
          unfold mbind at 1, M_bind at 1, MustFetch in H.
          by rewrite Hw in H. }
      destruct (parseWebComps d') as [m'|] eqn:Hp'.
      2:{ unfold FetchCompDescriptions in H.
          unfold mbind at 1, M_bind at 1 in H. rewrite Hk in H.
          unfold mbind at 1, M_bind at 1 in H.
          rewrite (fetchAllCompsPage_cached _ _ _ Hf) in H.
          unfold mbind at 1, M_bind at 1, lift at 1 in H. rewrite Hp in H.
          destruct (firstMissingKey_some _ _ Hmiss) as (k & Hfm & _ & _).
          rewrite Hfm in H. cbn [andb negb] in H.
          unfold mbind at 1, M_bind at 1 in H.
          unfold mbind at 1, M_bind at 1 in H.
          rewrite (fetchAllCompsPage_live year false w d') in H by done.
          unfold mbind at 1, M_bind at 1, lift at 1 in H.
          by rewrite Hp' in H. }
      rewrite (resolve_refetch ord url_Parse year fname w requested d m d' m')
        in H by done.
      destruct (firstMissingKey requested m') as [[] k] eqn:Hfm; [done|].
      injection H as <- <-. exists d', m'.
      eauto 10 using firstMissingKey_false.
  - destruct (web w (listing_url year)) as [d|] eqn:Hw.
    2:{ unfold FetchCompDescriptions in H.
        unfold mbind at 1, M_bind at 1 in H. rewrite Hk in H.
        unfold mbind at 1, M_bind at 1 in H.
        unfold fetchAllCompsPage, ReadFile, mbind at 1, M_bind at 1 in H.
        rewrite Hf in H.
        unfold mbind at 1, M_bind at 1, MustFetch in H.
        by rewrite Hw in H. }
    destruct (parseWebComps d) as [m|] eqn:Hp.
    2:{ unfold FetchCompDescriptions in H.
        unfold mbind at 1, M_bind at 1 in H. rewrite Hk in H.
        unfold mbind at 1, M_bind at 1 in H.
        rewrite (fetchAllCompsPage_live year true w d) in H by done.
        unfold mbind at 1, M_bind at 1, lift at 1 in H. by rewrite Hp in H. }
    rewrite (resolve_uncached ord url_Parse year fname w requested d m) in H
      by done.
    destruct (firstMissingKey requested m) as [[] k] eqn:Hfm; [done|].
    injection H as <- <-. exists d, m.
    eauto 10 using firstMissingKey_false.
Qed.

(** C8. After a successful resolution, every requested descriptor keeps
    its key; its name and date are those of the listing entry with this
    key; its URL is unchanged if it had one, and otherwise the URL of the
    listing entry followed by [&sort=1]. *)
Theorem C8_urls ord url_Parse year fname w descs w' :
  valid_order ord ->
  FetchCompDescriptions ord url_Parse year fname w = (Ok descs, w') ->
  exists requested page listing,
    parseKeysFromFile url_Parse fname w = (Ok requested, w) /\
    (files w !! listing_cache_name year = Some page \/
     web w (listing_url year) = Some page) /\
    parseWebComps page = Ok listing /\
    Forall2 (fun d r =>
               exists e, listing !! Competition.Key d = Some e /\
                 Competition.Key r = Competition.Key d /\
                 Competition.Name r = Competition.Name e /\
                 Competition.Date r = Competition.Date e /\
                 (Competition.URL d <> [] ->
                  Competition.URL r = Competition.URL d) /\
                 (Competition.URL d = [] ->
                  Competition.URL r = Competition.URL e ++ "&sort=1"))
            requested descs.
Proof.
  intros Hord H.
  apply FetchCompDescriptions_ok
    in H as (requested & page & listing & Hk & Hpage & Hp & Hall & ->).
  exists requested, page, listing. repeat split; try done.
  eapply Forall2_impl;
    [apply update_descs_spec; eauto using parseWebComps_keyed|].
  intros d r (e & He & ->). exists e. unfold resolved. cbn.
  repeat split; try done; intros Hurl; by destruct (decide _).
Qed.

Lemma C2_resolution_witness :
  exists descs,
    FetchCompDescriptions identity_order example_url_Parse 2016 "oom.conf"
      stale_world
    = (Ok descs, fetched_listing 2016 live_listing stale_world).
Proof.
  edestruct (C2_resolution identity_order example_url_Parse 2016 "oom.conf"
               stale_world) as [H _]; [vm_compute; reflexivity|].
  edestruct (H stale_listing) as [_ H2]; [vm_compute; reflexivity..|].
  edestruct (H2 ltac:(compute_done) live_listing) as [H3 _];
    [vm_compute; reflexivity..|].
  apply H3. compute_done.
Defined.

(** In that run 100 gets the listing's URL with the suffix, 200 keeps the
    URL of the configuration. *)
Example scenario_resolved :
  fst (FetchCompDescriptions identity_order example_url_Parse 2016 "oom.conf"
         stale_world)
  = Ok [ Competition.mk "100" "Monthly Medal" "Sat 2nd April"
           "http://www.colchestergolfclub.com/competition.php?compid=100&sort=1"
           0 ∅;
         Competition.mk "200" "Spring Open" "Sun 8th May"
           "http://www.colchestergolfclub.com/competition.php?compid=200&sort=0"
           0 ∅ ].
Proof. vm_compute. reflexivity. Qed.

Lemma identity_order_valid : valid_order identity_order.
Proof. intros V l. reflexivity. Qed.

Lemma C8_urls_witness :
  exists requested page listing,
    parseKeysFromFile example_url_Parse "oom.conf" stale_world
    = (Ok requested, stale_world) /\
    (files stale_world !! listing_cache_name 2016 = Some page \/
     web stale_world (listing_url 2016) = Some page) /\
    parseWebComps page = Ok listing /\
    Forall2 (fun d r =>
               exists e, listing !! Competition.Key d = Some e /\
                 Competition.Key r = Competition.Key d /\
                 Competition.Name r = Competition.Name e /\
                 Competition.Date r = Competition.Date e /\
                 (Competition.URL d <> [] ->
                  Competition.URL r = Competition.URL d) /\
                 (Competition.URL d = [] ->
                  Competition.URL r = Competition.URL e ++ "&sort=1"))
            requested
            [ Competition.mk "100" "Monthly Medal" "Sat 2nd April"
                "http://www.colchestergolfclub.com/competition.php?compid=100&sort=1"
                0 ∅;
              Competition.mk "200" "Spring Open" "Sun 8th May"
                "http://www.colchestergolfclub.com/competition.php?compid=200&sort=0"
                0 ∅ ].
Proof.
  eapply (C8_urls identity_order example_url_Parse 2016 "oom.conf" stale_world);
    [apply identity_order_valid | vm_compute; reflexivity].
Defined.

(** ** Scanning lines *)

Lemma Scan_line l rest tok :
  fits l ->
  Scan ScanLines (scanner_at (l ++ LF :: rest) tok)
  = (true, scanner_at rest (dropCR l)).
Proof.
  intros [Hlf Hlen]. unfold Scan, scanner_at. cbn [sc_input sc_err sc_token].
  assert (Hn : (length l < Z.to_nat MaxScanTokenSize)%nat)
    by (unfold len in Hlen; lia).
  assert (Hw : take (Z.to_nat MaxScanTokenSize) (l ++ LF :: rest)
               = l ++ LF :: take (Z.to_nat MaxScanTokenSize - S (length l)) rest).
  { rewrite take_app, take_ge by lia.
    destruct (Z.to_nat MaxScanTokenSize - length l)%nat as [|k] eqn:E; [lia|].
    cbn. do 3 f_equal. lia. }
  rewrite Hw.
  generalize (take (Z.to_nat MaxScanTokenSize - S (length l)) rest) as r.
  generalize (bool_decide (is_Some (@None scan_error))
              || (len (l ++ LF :: rest) <? MaxScanTokenSize)) as atEOF.
  intros atEOF r. unfold ScanLines.
  assert (E0 : atEOF && (len (l ++ LF :: r) =? 0) = false).
  { rewrite len_app. unfold len. cbn [length].
    destruct (Z.eqb_spec (Z.of_nat (length l) + Z.of_nat (S (length r))) 0);
      [lia | by rewrite andb_false_r]. }
  rewrite E0. change [byte 10] with [LF].
  rewrite (index_byte l r LF Hlf).
  pose proof (len_nonneg l).
  destruct (Z.leb_spec 0 (len l)); [|lia].
  destruct (Z.ltb_spec (len l + 1) 0); [lia|].
  destruct (Z.ltb_spec (len (l ++ LF :: r)) (len l + 1)) as [Hlt|_].
  { rewrite len_app in Hlt. unfold len in Hlt. cbn [length] in Hlt. lia. }
  f_equal. f_equal.
  - replace (Z.to_nat (len l + 1)) with (S (length l)) by (unfold len; lia).
    rewrite cons_middle, app_assoc, drop_app_length'; [done|].
    rewrite length_app. cbn. lia.
  - f_equal. unfold len. rewrite Nat2Z.id. by rewrite take_app_length.
Qed.

Lemma Scan_end tok :
  Scan ScanLines (scanner_at [] tok) = (false, scanner_at [] []).
Proof.
  unfold Scan, scanner_at. cbn [sc_input sc_err sc_token].
  rewrite take_nil. reflexivity.
Qed.

Lemma unlines_cons l ls : unlines (l :: ls) = l ++ LF :: unlines ls.
Proof. unfold unlines. cbn. by rewrite <- app_assoc. Qed.

Lemma scan_loop_lines fuel ls tok :
  Forall fits ls -> (length ls < fuel)%nat ->
  scan_loop fuel ScanLines (scanner_at (unlines ls) tok)
  = Some (map dropCR ls, scanner_at [] []).
Proof.
  intros Hfit. revert fuel tok.
  induction Hfit as [|l ls Hl _ IH]; intros [|fuel] tok Hlt; cbn in Hlt;
    try lia.
  - cbn [scan_loop]. unfold unlines. cbn [map concat]. by rewrite Scan_end.
  - cbn [scan_loop]. rewrite unlines_cons, Scan_line by done.
    rewrite IH by lia. done.
Qed.

Lemma unlines_length ls : (length ls <= length (unlines ls))%nat.
Proof.
  induction ls as [|l ls IH]; [done|].
  rewrite unlines_cons, length_app. cbn. lia.
Qed.

Lemma scan_all_lines ls tok :
  Forall fits ls ->
  scan_all ScanLines (scanner_at (unlines ls) tok)
  = Some (map dropCR ls, scanner_at [] []).
Proof.
  intros. unfold scan_all. apply scan_loop_lines; [done|].
  cbn [sc_input scanner_at]. pose proof (unlines_length ls). lia.
Qed.

(** ** The configuration file *)

Lemma slice_from_0 s : slice_from s 0 = Ok s.
Proof. apply (slice_from_app [] s). Qed.

Lemma endInt_from_app digits post start :
  Forall (fun c => is_digit c = true) digits -> no_digit_ahead post ->
  endInt_from (digits ++ post) start = start + len digits.
Proof.
  intros Hd Hp. revert start. induction Hd as [|c digits Hc _ IH]; intros start.
  - cbn [app]. unfold len. cbn [length]. rewrite Z.add_0_r.
    destruct post as [|c post']; [done|]. cbn. by rewrite (Hp c post').
  - cbn [app endInt_from]. rewrite Hc, IH. unfold len. cbn [length]. lia.
Qed.

Lemma parseNextCompKey_first pre digits post :
  first_occurrence compid_tok pre (pre ++ compid_tok ++ digits ++ post) ->
  Forall (fun c => is_digit c = true) digits -> no_digit_ahead post ->
  parseNextCompKey (pre ++ compid_tok ++ digits ++ post) 0
  = Ok (digits, len (pre ++ compid_tok) + len digits).
Proof.
  intros Hfirst Hd Hp. unfold parseNextCompKey.
  rewrite slice_from_0. cbn [mbind result_bind].
  fold compid_tok. rewrite (index_first _ _ _ Hfirst).
  pose proof (len_nonneg pre).
  destruct (Z.eqb_spec (len pre) (-1)); [lia|].
  replace (len pre + (0 + len compid_tok)) with (len (pre ++ compid_tok))
    by (rewrite len_app; lia).
  assert (He : endInt (pre ++ compid_tok ++ digits ++ post)
                 (len (pre ++ compid_tok))
               = len (pre ++ compid_tok) + len digits).
  { unfold endInt. unfold len at 1. rewrite Nat2Z.id.
    rewrite (app_assoc pre), drop_app_length. by apply endInt_from_app. }
  rewrite He. rewrite (app_assoc pre).
  by rewrite slice_app3.
Qed.

Lemma parse_key_line_ignored url_Parse line :
  unidentified line -> parse_key_line url_Parse line = Ok None.
Proof.
  intros [Hno | (pre & post & -> & Hfirst & Hp)]; unfold parse_key_line.
  - unfold parseNextCompKey. rewrite slice_from_0. cbn [mbind result_bind].
    fold compid_tok. apply index_none in Hno. rewrite Hno. reflexivity.
  - change (pre ++ compid_tok ++ post)
      with (pre ++ compid_tok ++ [] ++ post) in *.
    rewrite (parseNextCompKey_first pre [] post) by (done || constructor).
    reflexivity.
Qed.

Lemma parse_key_line_desc url_Parse line digits second :
  identifier line digits ->
  strings_Split line ","%char !! 1%nat = Some second ->
  parse_key_line url_Parse line
  = Ok (Some (Competition.mk digits [] []
                (match url_Parse (strings_TrimSpace second) with
                 | Some u => if bytes_eqb (Scheme u) "http"
                             then strings_TrimSpace second else []
                 | None => []
                 end) 0 ∅)).
Proof.
  intros (pre & post & -> & Hfirst & Hne & Hd & Hp) Hs. unfold parse_key_line.
  rewrite (parseNextCompKey_first pre digits post) by done.
  cbn [mbind result_bind]. unfold bytes_eqb at 1.
  rewrite bool_decide_eq_false_2 by done.
  unfold field, index_at. rewrite Hs. reflexivity.
Qed.

Lemma strings_Split_length s sep : (1 <= length (strings_Split s sep))%nat.
Proof.
  induction s as [|a s IH]; cbn; [lia|].
  destruct (Ascii.eqb a sep); cbn; [lia|].
  destruct (strings_Split s sep); cbn in *; lia.
Qed.

Lemma strings_Split_none s sep : sep ∉ s -> strings_Split s sep = [s].
Proof.
  induction s as [|a s IH]; intros Hs; cbn; [done|].
  destruct (Ascii.eqb_spec a sep) as [->|_]; [set_solver|].
  rewrite IH by set_solver. done.
Qed.

Lemma parse_key_line_no_comma url_Parse line digits :
  identifier line digits -> ","%char ∉ line ->
  parse_key_line url_Parse line = Fail RuntimePanic.
Proof.
  intros (pre & post & -> & Hfirst & Hne & Hd & Hp) Hs. unfold parse_key_line.
  rewrite (parseNextCompKey_first pre digits post) by done.
  cbn [mbind result_bind]. unfold bytes_eqb at 1.
  rewrite bool_decide_eq_false_2 by done.
  unfold field, index_at. by rewrite strings_Split_none.
Qed.

Lemma parse_key_line_result url_Parse line o :
  line_result url_Parse line o -> parse_key_line url_Parse line = Ok o.
Proof.
  intros [[Hu ->] | (digits & second & url & Hid & Hs & Hy & Hn & ->)].
  - by apply parse_key_line_ignored.
  - rewrite (parse_key_line_desc url_Parse line digits second) by done.
    do 3 f_equal.
    destruct (url_Parse (strings_TrimSpace second)) as [u|] eqn:Eu.
    + unfold bytes_eqb. destruct (decide (Scheme u = "http")) as [Hsch|Hsch].
      * rewrite bool_decide_eq_true_2 by done. symmetry. apply Hy. eauto.
      * rewrite bool_decide_eq_false_2 by done. symmetry. apply Hn.
        intros (u' & [= <-] & ?). done.
    + symmetry. apply Hn. intros (u' & [=] & ?).
Qed.

Lemma parse_key_lines_results url_Parse lines outs ret :
  Forall2 (line_result url_Parse) lines outs ->
  parse_key_lines url_Parse lines ret = Ok (ret ++ omap id outs).
Proof.
  intros H. revert ret. induction H as [|line o lines outs Hl _ IH]; intros ret.
  - cbn. by rewrite app_nil_r.
  - cbn [parse_key_lines]. rewrite (parse_key_line_result _ _ _ Hl).
    cbn [mbind result_bind]. rewrite IH. destruct o; cbn; [|done].
    by rewrite <- app_assoc.
Qed.

(** C5, as the code has it.  In a configuration whose lines fit the
    scanner, a line without identifier contributes nothing, and a line
    with the identifier [?compid=<digits>] and at least one comma
    contributes a descriptor with the key [<digits>], whose URL is the
    text between the first and the second comma, trimmed, if [url.Parse]
    accepts it with scheme [http], and is empty otherwise. *)
Theorem C5_config_lines url_Parse fname w lines outs :
  files w !! fname = Some (unlines lines) ->
  Forall fits lines ->
  Forall2 (line_result url_Parse) (map dropCR lines) outs ->
  parseKeysFromFile url_Parse fname w = (Ok (omap id outs), w).
Proof.
  intros Hfile Hfit Hres.
  unfold parseKeysFromFile, ReadFile, mbind, M_bind, lift. rewrite Hfile.
  f_equal. unfold parse_keys.
  change (NewScanner (unlines lines)) with (scanner_at (unlines lines) []).
  rewrite scan_all_lines by done.
  rewrite (parse_key_lines_results _ _ _ [] Hres). reflexivity.
Qed.

Lemma C5_config_lines_witness :
  parseKeysFromFile example_url_Parse "oom.conf" stale_world
  = (Ok [ Competition.mk "100" [] [] [] 0 ∅;
          Competition.mk "200" [] []
            "http://www.colchestergolfclub.com/competition.php?compid=200&sort=0"
            0 ∅ ],
     stale_world).
Proof.
  apply (C5_config_lines example_url_Parse "oom.conf" stale_world
           example_conf_lines
           [ Some (Competition.mk "100" [] [] [] 0 ∅);
             Some (Competition.mk "200" [] []
               "http://www.colchestergolfclub.com/competition.php?compid=200&sort=0"
               0 ∅);
             None ]).
  - vm_compute. reflexivity.
  - repeat constructor; compute_done.
  - constructor; [|constructor; [|constructor; [|constructor]]].
    + right. exists "100", " ?compid=100", []. split; [|split; [|split; [|split]]].
      * exists "monthly medal, ", [].
        split; [reflexivity|]. split; [apply first_occurrence_index; reflexivity|].
        split; [done|]. split; [repeat constructor|]. intros c p' [=].
      * reflexivity.
      * intros (u & Hu & Hs). vm_compute in Hu. injection Hu as <-. done.
      * done.
      * reflexivity.
    + right.
      exists "200",
        " http://www.colchestergolfclub.com/competition.php?compid=200&sort=0",
        "http://www.colchestergolfclub.com/competition.php?compid=200&sort=0".
      split; [|split; [|split; [|split]]].
      * exists "spring open, http://www.colchestergolfclub.com/competition.php",
          "&sort=0".
        split; [reflexivity|]. split; [apply first_occurrence_index; reflexivity|].
        split; [done|]. split; [repeat constructor|].
        intros c p' [= <- <-]. reflexivity.
      * reflexivity.
      * intros _. vm_compute. reflexivity.
      * intros Hn. destruct Hn. eexists. split; vm_compute; reflexivity.
      * reflexivity.
    + left. split; [|done]. left. apply index_none. reflexivity.
Defined.

(** C5 as stated fails: the comma is not optional.  A line that holds an
    identifier and no comma stops the run, since the second field of the
    line is read whatever the line. *)
Lemma C5_no_comma_counterexample :
  identifier "?compid=1239" "1239" /\
  parse_keys example_url_Parse (unlines ["?compid=1239" : gostring])
  = Fail RuntimePanic /\
  ¬ exists descs,
      parse_keys example_url_Parse (unlines ["?compid=1239" : gostring])
      = Ok descs.
Proof.
  split; [|split].
  - exists [], []. split; [reflexivity|].
    split; [apply first_occurrence_index; reflexivity|].
    split; [done|]. split; [repeat constructor|]. intros c p' [=].
  - vm_compute. reflexivity.
  - intros [descs H]. vm_compute in H. discriminate.
Qed.

(** ** Reading a cache file *)

Lemma read_row_describes row p : row_describes row p -> read_row row = Ok p.
Proof.
  intros (H3 & H2 & (r & H1 & Hr) & (q & H0 & Hq)).
  unfold read_row. unfold field in H3, H2.
  destruct (index_at (strings_Split row ","%char) 3) as [s3|]; [|done].
  destruct (index_at (strings_Split row ","%char) 2) as [s2|]; [|done].
  cbn [mbind result_bind] in *. rewrite H1, H0. cbn [mbind result_bind].
  injection H3 as H3. injection H2 as H2.
  rewrite H3, H2, <- Hr, <- Hq. by destruct p.
Qed.

Lemma read_rows_describes rows ps m :
  Forall2 row_describes rows ps -> read_rows rows m = Ok (insert_all ps m).
Proof.
  intros H. revert m. induction H as [|row p rows ps Hr _ IH]; intros m.
  - done.
  - cbn [read_rows]. rewrite (read_row_describes _ _ Hr).
    cbn [mbind result_bind]. apply IH.
Qed.

Lemma slice_head c (r : gostring) : slice (c :: r) 0 1 = Ok [c].
Proof. exact (slice_app3 [] [c] r). Qed.

Lemma skip_comments_lines fuel comments kl rest cur more :
  comments ++ [kl] = cur :: more ->
  Forall fits (comments ++ [kl]) ->
  Forall (fun l => comment_line (dropCR l)) comments ->
  data_line (dropCR kl) ->
  (length comments < fuel)%nat ->
  skip_comments fuel (scanner_at (unlines (more ++ rest)) (dropCR cur))
  = Ok (scanner_at (unlines rest) (dropCR kl)).
Proof.
  revert fuel cur more.
  induction comments as [|c0 comments IH]; intros [|fuel] cur more Heq Hfit Hc Hd Hlt;
    cbn in Hlt; try lia.
  - injection Heq as <- <-. cbn [skip_comments Text sc_token scanner_at].
    destruct Hd as (c & r & -> & Hne).
    rewrite slice_head. cbn [mbind result_bind].
    unfold bytes_eqb.
    rewrite bool_decide_eq_false_2 by (cbn; intros [= ?]; done). done.
  - cbn [app] in Heq, Hfit. injection Heq as Hcur Hmore. subst cur more.
    cbn [skip_comments Text sc_token scanner_at].
    apply Forall_cons in Hc as [(r & ->) Hc].
    rewrite slice_head. cbn [mbind result_bind].
    unfold bytes_eqb. rewrite bool_decide_eq_true_2 by done.
    apply Forall_cons in Hfit as [_ Hfit].
    destruct (comments ++ [kl]) as [|cur' more'] eqn:E;
      [by destruct comments|].
    apply Forall_cons in Hfit as Hfit'. destruct Hfit' as [Hcur' _].
    cbn [app]. rewrite unlines_cons, Scan_line by done. cbn [snd].
    apply (IH fuel cur' more'); try done. lia.
Qed.

Lemma parse_cache_describes content c :
  describes content c -> parse_cache content = Ok c.
Proof.
  intros (comments & kl & nl & dl & ul & cl & hl & rows & ps & n & -> & Hfit &
          Hcom & Hdata & Hk & Hn & Hd & Hu & Hc & Hnum & Hrows & Hres).
  unfold parse_cache.
  change (NewScanner ?x) with (scanner_at x []).
  apply Forall_app in Hfit as [Hfc Hfit].
  apply Forall_cons in Hfit as [Hfk Hfit].
  apply Forall_cons in Hfit as [Hfn Hfit].
  apply Forall_cons in Hfit as [Hfd Hfit].
  apply Forall_cons in Hfit as [Hfu Hfit].
  apply Forall_cons in Hfit as [Hfcl Hfit].
  apply Forall_cons in Hfit as [Hfh Hfr].
  set (rest := nl :: dl :: ul :: cl :: hl :: rows).
  remember (S (S (length (unlines (comments ++ kl :: rest))))) as fuel
    eqn:Hfuel.
  assert (Hlt : (length comments < fuel)%nat).
  { pose proof (unlines_length (comments ++ kl :: rest)) as Hl.
    rewrite length_app in Hl. lia. }
  clear Hfuel.
  assert (Hfirst : exists cur more, comments ++ [kl] = cur :: more /\ fits cur).
  { destruct comments as [|c0 cs]; cbn.
    - eauto.
    - apply Forall_cons in Hfc as [? _]. eauto. }
  destruct Hfirst as (cur & more & Heq & Hfcur).
  replace (comments ++ kl :: rest) with ((cur :: more) ++ rest)
    by (rewrite <- Heq, <- app_assoc; done).
  cbn [app]. rewrite unlines_cons, Scan_line by done. cbn [snd].
  rewrite (skip_comments_lines _ comments kl rest cur more); try done.
  2:{ apply Forall_app. split; [done|]. by constructor. }
  cbn [mbind result_bind Text sc_token scanner_at]. rewrite Hk.
  cbn [mbind result_bind]. unfold rest.
  rewrite unlines_cons, Scan_line by done.
  cbn [snd mbind result_bind Text sc_token scanner_at]. rewrite Hn.
  rewrite unlines_cons, Scan_line by done.
  cbn [snd mbind result_bind Text sc_token scanner_at]. rewrite Hd.
  rewrite unlines_cons, Scan_line by done.
  cbn [snd mbind result_bind Text sc_token scanner_at]. rewrite Hu.
  rewrite unlines_cons, Scan_line by done.
  cbn [snd mbind result_bind Text sc_token scanner_at]. rewrite Hc.
  rewrite unlines_cons, Scan_line by done.
  cbn [snd mbind result_bind Text sc_token scanner_at].
  rewrite scan_all_lines by done.
  rewrite (read_rows_describes _ _ _ Hrows).
  cbn [mbind result_bind Err sc_err scanner_at].
  rewrite <- Hnum, <- Hres. by destruct c.
Qed.

Lemma populate_from_page_key comp data c :
  populate_from_page comp data = Ok c ->
  Competition.Key c = Competition.Key comp.
Proof.
  intros H. apply populate_from_page_inv in H as (toks & st & _ & _ & ->).
  done.
Qed.

(** C3. For a competition with a key:
    - if the file [<key>.txt] exists, [Load] returns what [readCached]
      makes of its content and leaves the world as it was: no fetch, no
      file written; when the content is a record of the competition [c]
      (the five labelled fields, the header line, one row per player),
      what it returns is [c];
    - if the file does not exist, [Load] fetches the page at the
      competition's URL, this once; if the page is parsed and scored into
      [c], it writes [c] to [<key>.txt] and returns [c]; if the fetch or
      the parsing fails, the run stops and no file is written. *)
Theorem C3_load ord comp w :
  Competition.Key comp <> [] ->
  (forall content,
     files w !! cache_name (Competition.Key comp) = Some content ->
     Load ord comp w = (parse_cache content, w) /\
     forall c, describes content c -> Load ord comp w = (Ok c, w)) /\
  (files w !! cache_name (Competition.Key comp) = None ->
   (web w (Competition.URL comp) = None ->
    Load ord comp w
    = (Fail (LogFatal FatalFetch), after_fetch (Competition.URL comp) w)) /\
   (forall data,
      web w (Competition.URL comp) = Some data ->
      Load ord comp w
      = match populate_from_page comp data with
        | Ok c => (Ok c, after_save ord c (after_fetch (Competition.URL comp) w))
        | Fail f => (Fail f, after_fetch (Competition.URL comp) w)
        end)).
Proof.
  intros Hkey.
  assert (Hb : bytes_eqb (Competition.Key comp) "" = false)
    by (unfold bytes_eqb; by rewrite bool_decide_eq_false_2).
  split.
  - intros content Hf.
    assert (E : Load ord comp w = (parse_cache content, w)).
    { unfold Load. rewrite Hb.
      unfold readCached, ReadFile, lift, mbind, M_bind, mret, M_ret.
      rewrite Hf. by destruct (parse_cache content). }
    split; [done|]. intros c Hc. by rewrite E, (parse_cache_describes _ _ Hc).
  - intros Hf. split.
    + intros Hw. unfold Load. rewrite Hb.
      unfold readCached, ReadFile, populateResultsFromWeb, MustFetch, lift,
        mbind, M_bind, mret, M_ret.
      rewrite Hf. cbn [files web fetched]. by rewrite Hw.
    + intros data Hw. unfold Load. rewrite Hb.
      unfold readCached, ReadFile, populateResultsFromWeb, MustFetch, saveComp,
        WriteFile, lift, mbind, M_bind, mret, M_ret.
      rewrite Hf. cbn [files web fetched]. rewrite Hw.
      by destruct (populate_from_page comp data).
Qed.

Lemma C3_load_witness :
  Load identity_order (new_competition "5462") cached_world
  = (Ok cached_competition, cached_world).
Proof.
  destruct (C3_load identity_order (new_competition "5462") cached_world)
    as [H _]; [done|].
  destruct (H cache_file_example) as [-> _]; [reflexivity|].
  vm_compute. reflexivity.
Defined.

(** Without cache file: one fetch, and the file is written. *)
Example load_uncached :
  exists c w',
    Load identity_order
      (Competition.mk "5462" [] [] "http://club/competition.php?compid=5462" 0 ∅)
      uncached_world
    = (Ok c, w') /\
    Competition.NumPlayers c = 3 /\
    Competition.Results c !! ("Carol" : gostring)
    = Some (PlayerResult.mk "Carol" 0 3 "DQ") /\
    fetched w' = ["http://club/competition.php?compid=5462" : gostring] /\
    files w' !! cache_name "5462" = Some (cache_text identity_order c).
Proof.
  eexists _, _. split; [vm_compute; reflexivity|].
  repeat split; vm_compute; reflexivity.
Qed.

(** [readCached] keeps the value of [strconv.Atoi] and drops its error:
    points that leave the range of an [int] are read as the largest
    [int], whatever follows the digits, and a rank that is no number as
    0. *)
Example load_edited_numbers :
  Load identity_order (new_competition "9")
    {| files := {[ cache_name "9" := edited_cache_file ]};
       web := fun _ => None; fetched := [] |}
  = (Ok (Competition.mk "9" "Medal" "Sat 2nd April" "http://club/9" 1
           {[ ("Alice" : gostring)
              := PlayerResult.mk "Alice" 9223372036854775807 0 "72" ]}),
     {| files := {[ cache_name "9" := edited_cache_file ]};
        web := fun _ => None; fetched := [] |}).
Proof. vm_compute. reflexivity. Qed.

(** ** White space and numbers *)

Lemma strip_one_none ws c s :
  leads_none ws c = true -> strip_one ws (c :: s) = None.
Proof.
  induction ws as [|w ws IH]; cbn; [done|].
  destruct w as [|b w]; [done|]. cbn.
  intros [Hb Hws]%andb_true_iff.
  apply negb_true_iff in Hb. rewrite Hb. cbn. auto.
Qed.

Lemma trim_left_word ws c s :
  leads_none ws c = true -> trim_left ws (c :: s) = c :: s.
Proof. intros H. unfold trim_left. cbn. by rewrite strip_one_none. Qed.

Lemma trim_left_nil ws : trim_left ws [] = [].
Proof. done. Qed.

Lemma TrimSpace_word (x : gostring) :
  Forall (fun c => word_byte c = true) x -> strings_TrimSpace x = x.
Proof.
  intros Hx. unfold strings_TrimSpace, trim_right.
  destruct x as [|c s]; [done|].
  apply Forall_cons in Hx as Hc. destruct Hc as [[Hc _]%andb_true_iff _].
  rewrite trim_left_word by done.
  destruct (rev (c :: s)) as [|l r] eqn:E.
  { apply (f_equal (@length ascii)) in E. rewrite length_rev in E. done. }
  assert (Hl : l ∈ c :: s).
  { apply list_elem_of_In, in_rev. rewrite E. by left. }
  rewrite Forall_forall in Hx. apply Hx in Hl.
  apply andb_true_iff in Hl as [_ Hl].
  rewrite trim_left_word by done. by rewrite <- E, rev_involutive.
Qed.

Lemma trim_left_space s :
  trim_left white_space (SP :: s) = trim_left white_space s.
Proof. reflexivity. Qed.

Lemma trim_left_spaces k s :
  trim_left white_space (replicate k SP ++ s) = trim_left white_space s.
Proof. induction k as [|k IH]; [done|]. cbn [replicate app]. by rewrite trim_left_space. Qed.

Lemma TrimSpace_spaces k s :
  strings_TrimSpace (replicate k SP ++ s) = strings_TrimSpace s.
Proof. unfold strings_TrimSpace. by rewrite trim_left_spaces. Qed.

Lemma TrimSpace_padded s :
  strings_TrimSpace (SP :: s) = strings_TrimSpace s.
Proof. apply (TrimSpace_spaces 1 s). Qed.

Lemma TrimSpace_pad_left w s :
  strings_TrimSpace (pad_left w s) = strings_TrimSpace s.
Proof. unfold pad_left. apply TrimSpace_spaces. Qed.

Lemma digit_char_spec d :
  0 <= d < 10 ->
  is_digit (digit_char d) = true /\ digit_val (digit_char d) = d.
Proof.
  intros Hd.
  assert (d = 0 \/ d = 1 \/ d = 2 \/ d = 3 \/ d = 4 \/ d = 5 \/ d = 6 \/
          d = 7 \/ d = 8 \/ d = 9) as H by lia.
  repeat destruct H as [-> | H]; try subst d; by vm_compute.
Qed.

Lemma decimal_value_app l c :
  decimal_value (l ++ [c]) = decimal_value l * 10 + digit_val c.
Proof. unfold decimal_value. by rewrite fold_left_app. Qed.

Lemma digits_fuel_spec f m :
  (1 <= f)%nat -> 0 <= m < 10 ^ Z.of_nat f ->
  digits_fuel f m <> [] /\
  Forall (fun c => is_digit c = true) (digits_fuel f m) /\
  decimal_value (digits_fuel f m) = m.
Proof.
  revert m. induction f as [|f IH]; intros m Hf Hm; [lia|].
  cbn [digits_fuel]. destruct (Z.ltb_spec m 10) as [Hlt|Hge].
  - destruct (digit_char_spec m) as [H1 H2]; [lia|].
    split; [done|]. split; [by repeat constructor|].
    unfold decimal_value. cbn. lia.
  - assert (Hf' : (1 <= f)%nat).
    { destruct f; [|lia]. cbn in Hm. lia. }
    assert (Hm' : 0 <= m / 10 < 10 ^ Z.of_nat f).
    { split; [apply Z.div_pos; lia|].
      apply Z.div_lt_upper_bound; [lia|].
      replace (Z.of_nat (S f)) with (Z.succ (Z.of_nat f)) in Hm by lia.
      rewrite Z.pow_succ_r in Hm by lia. lia. }
    destruct (IH (m / 10) Hf' Hm') as (H1 & H2 & H3).
    destruct (digit_char_spec (m mod 10)) as [H4 H5];
      [apply Z.mod_pos_bound; lia|].
    split; [by destruct (digits_fuel f (m / 10))|].
    split; [apply Forall_app; split; [done | by repeat constructor]|].
    rewrite decimal_value_app, H3, H5.
    pose proof (Z.div_mod m 10 ltac:(lia)). lia.
Qed.

Lemma format_uint_spec m :
  0 <= m ->
  format_uint m <> [] /\
  Forall (fun c => is_digit c = true) (format_uint m) /\
  decimal_value (format_uint m) = m.
Proof.
  intros Hm. unfold format_uint. apply digits_fuel_spec; [lia|].
  split; [done|].
  destruct (decide (m = 0)) as [->|Hne]; [done|].
  pose proof (Z.log2_nonneg m).
  replace (Z.of_nat (S (Z.to_nat (Z.log2 m)))) with (Z.succ (Z.log2 m)) by lia.
  destruct (Z.log2_spec m ltac:(lia)) as [_ Hlt].
  eapply Z.lt_le_trans; [exact Hlt|].
  apply Z.pow_le_mono_l. lia.
Qed.

Lemma digit_val_range c : is_digit c = true -> 0 <= digit_val c <= 9.
Proof.
  unfold is_digit, digit_val. intros H.
  apply andb_prop in H as [H1 H2].
  apply Nat.leb_le in H1, H2. lia.
Qed.

Lemma digit_not_sign c :
  is_digit c = true -> Ascii.eqb c "-" = false /\ Ascii.eqb c "+" = false.
Proof.
  destruct c as [[] [] [] [] [] [] [] []]; by vm_compute.
Qed.

Lemma fold_digits_ge ds n :
  Forall (fun c => is_digit c = true) ds -> 0 <= n ->
  n <= fold_left (fun n ch => n * 10 + digit_val ch) ds n.
Proof.
  intros Hd. revert n. induction Hd as [|c ds Hc _ IH]; intros n Hn; [done|].
  cbn [fold_left]. pose proof (digit_val_range c Hc).
  etrans; [|apply IH]; lia.
Qed.

(** On digits only, the loop of [ParseUint] computes the number they
    stand for, as long as it fits 64 bits, and stops with a range error
    otherwise. *)
Lemma parse_uint_loop_digits ds n :
  Forall (fun c => is_digit c = true) ds -> 0 <= n <= maxUint64 ->
  parse_uint_loop n ds
  = let v := fold_left (fun n ch => n * 10 + digit_val ch) ds n in
    if v <=? maxUint64 then (v, None) else (maxUint64, Some ErrRange).
Proof.
  intros Hd. revert n. induction Hd as [|c ds Hc Hd IH]; intros n Hn.
  - cbn. destruct (Z.leb_spec n maxUint64); [done | lia].
  - cbn [parse_uint_loop fold_left]. rewrite Hc. cbn [negb].
    pose proof (digit_val_range c Hc) as Hv.
    pose proof (fold_digits_ge ds (n * 10 + digit_val c) Hd ltac:(lia)) as Hge.
    cbv zeta in *.
    destruct (Z.leb_spec (maxUint64 / 10 + 1) n) as [Hcut|Hcut].
    { set (v := fold_left _ ds _) in *.
      destruct (Z.leb_spec v maxUint64) as [Hle|]; [|done].
      unfold maxUint64 in *.
      change ((2 ^ 64 - 1) / 10 + 1) with 1844674407370955162 in Hcut. lia. }
    assert (Hn10 : n * 10 <= maxUint64 - 5).
    { unfold maxUint64 in *.
      change ((2 ^ 64 - 1) / 10 + 1) with 1844674407370955162 in Hcut. lia. }
    set (v := fold_left _ ds _) in *.
    destruct (Z.leb_spec (n * 10 + digit_val c) maxUint64) as [Hfit|Hover].
    + rewrite Z.mod_small by (unfold maxUint64 in *; lia).
      destruct (Z.ltb_spec (n * 10 + digit_val c) (n * 10)); [lia|].
      destruct (Z.ltb_spec maxUint64 (n * 10 + digit_val c)); [lia|].
      cbn [orb]. apply IH; lia.
    + assert (Hm : (n * 10 + digit_val c) mod 2 ^ 64
                   = n * 10 + digit_val c - 2 ^ 64).
      { symmetry. apply (Z.mod_unique _ _ 1); unfold maxUint64 in *; lia. }
      rewrite Hm.
      destruct (Z.ltb_spec (n * 10 + digit_val c - 2 ^ 64) (n * 10));
        [|unfold maxUint64 in *; lia].
      cbn [orb].
      destruct (Z.leb_spec v maxUint64); [lia | done].
Qed.

Lemma ParseUint_digits ds :
  ds <> [] -> Forall (fun c => is_digit c = true) ds ->
  strconv_ParseUint ds
  = if decimal_value ds <=? maxUint64 then (decimal_value ds, None)
    else (maxUint64, Some ErrRange).
Proof.
  intros Hne Hd. destruct ds as [|c r]; [done|].
  unfold strconv_ParseUint. rewrite parse_uint_loop_digits; [done..|].
  by vm_compute.
Qed.

Lemma Atoi_digits ds :
  ds <> [] -> Forall (fun c => is_digit c = true) ds ->
  decimal_value ds < 2 ^ 63 ->
  strconv_Atoi ds = (decimal_value ds, true).
Proof.
  intros Hne Hd Hv. destruct ds as [|c r]; [done|].
  unfold strconv_Atoi, strconv_ParseInt.
  apply Forall_cons in Hd as Hc. destruct Hc as [Hc _].
  destruct (digit_not_sign c Hc) as [-> ->]. cbn [orb negb andb].
  rewrite ParseUint_digits by done.
  destruct (Z.leb_spec (decimal_value (c :: r)) maxUint64);
    [|unfold maxUint64 in *; lia].
  destruct (Z.leb_spec (2 ^ 63) (decimal_value (c :: r))); [lia | done].
Qed.

Lemma Atoi_minus ds :
  ds <> [] -> Forall (fun c => is_digit c = true) ds ->
  decimal_value ds <= 2 ^ 63 ->
  strconv_Atoi ("-"%char :: ds) = (- decimal_value ds, true).
Proof.
  intros Hne Hd Hv. unfold strconv_Atoi, strconv_ParseInt.
  change (Ascii.eqb "-" "-") with true.
  change (Ascii.eqb "-" "+") with false.
  cbn [orb negb andb]. rewrite ParseUint_digits by done.
  destruct (Z.leb_spec (decimal_value ds) maxUint64);
    [|unfold maxUint64 in *; lia].
  destruct (Z.ltb_spec (2 ^ 63) (decimal_value ds)); [lia | done].
Qed.

(** A range error comes before a syntax error further on: the digits
    that leave 64 bits end the loop, and the value is the bound. *)
Example Atoi_range_first :
  strconv_Atoi "99999999999999999999x" = (2 ^ 63 - 1, false) /\
  strconv_Atoi "-99999999999999999999x" = (- 2 ^ 63, false) /\
  strconv_Atoi "9223372036854775808x" = (0, false) /\
  strconv_Atoi "9223372036854775808" = (2 ^ 63 - 1, false) /\
  strconv_Atoi "-9223372036854775808" = (- 2 ^ 63, true) /\
  strconv_Atoi "+12" = (12, true) /\
  strconv_Atoi "12a" = (0, false) /\
  strconv_Atoi "" = (0, false) /\
  strconv_Atoi "-" = (0, false).
Proof. repeat split; vm_compute; reflexivity. Qed.

Lemma fast_loop_agrees ds n (k : nat) :
  0 <= n < 10 ^ Z.of_nat k -> (k + length ds <= 18)%nat ->
  match atoi_fast_loop n ds with
  | Some v => parse_uint_loop n ds = (v, None) /\ 0 <= v < 10 ^ 18
  | None => parse_uint_loop n ds = (0, Some ErrSyntax)
  end.
Proof.
  revert n k. induction ds as [|c ds IH]; intros n k Hn Hk.
  - cbn. split; [done|]. split; [lia|].
    eapply Z.lt_le_trans; [apply Hn|]. apply Z.pow_le_mono_r; cbn in *; lia.
  - cbn [atoi_fast_loop parse_uint_loop length] in *.
    destruct (is_digit c) eqn:Hc; cbn [negb]; [|done].
    pose proof (digit_val_range c Hc) as Hv.
    assert (H17 : 10 ^ Z.of_nat k <= 10 ^ 17)
      by (apply Z.pow_le_mono_r; lia).
    assert (Hn' : 0 <= n * 10 + digit_val c < 10 ^ Z.of_nat (S k)).
    { replace (Z.of_nat (S k)) with (Z.succ (Z.of_nat k)) by lia.
      rewrite Z.pow_succ_r by lia. lia. }
    specialize (IH (n * 10 + digit_val c) (S k) Hn' ltac:(lia)).
    cbv zeta.
    destruct (Z.leb_spec (maxUint64 / 10 + 1) n) as [Hcut|_].
    { change (maxUint64 / 10 + 1) with 1844674407370955162 in Hcut. lia. }
    rewrite Z.mod_small by lia.
    destruct (Z.ltb_spec (n * 10 + digit_val c) (n * 10)); [lia|].
    destruct (Z.ltb_spec maxUint64 (n * 10 + digit_val c));
      [unfold maxUint64 in *; lia|].
    exact IH.
Qed.

(** The fast path returns what [ParseInt] does on the strings it is
    taken for. *)
Lemma Atoi_fast_path s :
  0 < len s < 19 -> atoi_fast s = strconv_Atoi s.
Proof.
  intros Hlen. unfold len in Hlen.
  destruct s as [|c r]; [cbn in Hlen; lia|].
  unfold atoi_fast, strconv_Atoi, strconv_ParseInt.
  assert (Hr : (length r <= 17)%nat) by (cbn in Hlen; lia).
  rewrite (orb_comm (Ascii.eqb c "+")).
  destruct (Ascii.eqb c "-" || Ascii.eqb c "+") eqn:Hs.
  - destruct r as [|d r'].
    { cbn. by destruct (Ascii.eqb c "-"). }
    replace (len (d :: r') <? 1) with false
      by (symmetry; apply Z.ltb_ge; unfold len; cbn; lia).
    cbn [andb]. unfold strconv_ParseUint.
    pose proof (fast_loop_agrees (d :: r') 0 0 ltac:(cbn; lia) ltac:(cbn in *; lia))
      as H.
    destruct (atoi_fast_loop 0 (d :: r')) as [v|]; [|by rewrite H].
    destruct H as [-> Hv].
    assert (v < 2 ^ 63) by (eapply Z.lt_trans; [apply Hv | by vm_compute]).
    destruct (Ascii.eqb c "-"); cbn [negb andb].
    + destruct (Z.ltb_spec (2 ^ 63) v); [lia | done].
    + destruct (Z.leb_spec (2 ^ 63) v); [lia | done].
  - apply orb_false_elim in Hs as [-> _]. cbn [andb negb].
    unfold strconv_ParseUint.
    pose proof (fast_loop_agrees (c :: r) 0 0 ltac:(cbn; lia) ltac:(cbn in *; lia))
      as H.
    destruct (atoi_fast_loop 0 (c :: r)) as [v|]; [|by rewrite H].
    destruct H as [-> Hv].
    assert (v < 2 ^ 63) by (eapply Z.lt_trans; [apply Hv | by vm_compute]).
    destruct (Z.leb_spec (2 ^ 63) v); [lia | done].
Qed.

Lemma Atoi_format_int n : is_int n -> strconv_Atoi (format_int n) = (n, true).
Proof.
  intros [Hlo Hhi]. unfold format_int. destruct (Z.ltb_spec n 0).
  - destruct (format_uint_spec (- n)) as (H1 & H2 & H3); [lia|].
    rewrite Atoi_minus by (done || lia). f_equal. lia.
  - destruct (format_uint_spec n) as (H1 & H2 & H3); [lia|].
    rewrite Atoi_digits by (done || lia). by f_equal.
Qed.

Lemma numeric_byte_plain c :
  numeric_byte c = true ->
  word_byte c = true /\ c <> COMMA /\ c <> LF /\ c <> CR.
Proof.
  destruct c as [[] [] [] [] [] [] [] []]; vm_compute; intros [=]; done.
Qed.

Lemma format_int_numeric n :
  Forall (fun c => numeric_byte c = true) (format_int n).
Proof.
  assert (Hd : forall ds, Forall (fun c => is_digit c = true) ds ->
                          Forall (fun c => numeric_byte c = true) ds).
  { intros ds Hds. eapply Forall_impl; [exact Hds|].
    intros c Hc. unfold numeric_byte. by rewrite Hc. }
  unfold format_int. destruct (Z.ltb_spec n 0).
  - constructor; [done|]. apply Hd, format_uint_spec. lia.
  - apply Hd, format_uint_spec. lia.
Qed.

Lemma TrimSpace_format_int n :
  strings_TrimSpace (format_int n) = format_int n.
Proof.
  apply TrimSpace_word. eapply Forall_impl; [apply format_int_numeric|].
  intros c Hc. by apply numeric_byte_plain.
Qed.

(** ** Writing a cache file and reading it back *)

Lemma format_row_line p : format_row p = row_line p ++ [LF].
Proof. unfold format_row, row_line. rewrite <- !app_assoc. reflexivity. Qed.

Lemma cache_text_lines ord c :
  cache_text ord c = unlines (cache_header c ++ cache_rows ord c).
Proof.
  unfold cache_text, cache_header, cache_rows, unlines.
  rewrite map_app, concat_app. cbn [map concat].
  rewrite <- !app_assoc. cbn [app].
  unfold eol. change (byte 13) with CR. change (byte 10) with LF.
  cbn [app]. repeat f_equal.
  rewrite map_map. apply map_ext. intros kp. apply format_row_line.
Qed.

Lemma dropCR_snoc l : dropCR (l ++ [CR]) = l.
Proof.
  unfold dropCR. rewrite last_snoc. change (Ascii.eqb CR (byte 13)) with true.
  cbn iota. apply removelast_last.
Qed.

Lemma strings_Split_app (a b : gostring) sep :
  sep ∉ a -> strings_Split (a ++ sep :: b) sep = a :: strings_Split b sep.
Proof.
  induction a as [|x a IH]; intros Ha; cbn [app strings_Split].
  - by rewrite Ascii.eqb_refl.
  - destruct (Ascii.eqb_spec x sep) as [->|_]; [set_solver|].
    rewrite IH by set_solver. done.
Qed.

Lemma field_after_comma (label x : gostring) :
  COMMA ∉ label -> COMMA ∉ x ->
  field (label ++ COMMA :: SP :: x) 1 = Ok (strings_TrimSpace x).
Proof.
  intros Hl Hx. unfold field.
  rewrite strings_Split_app by done.
  rewrite strings_Split_none by (rewrite not_elem_of_cons; done).
  unfold index_at. cbn [lookup list_lookup mbind result_bind].
  by rewrite TrimSpace_padded.
Qed.

Lemma not_in_pad_left c w x : c <> SP -> c ∉ x -> c ∉ pad_left w x.
Proof.
  intros Hc Hx. unfold pad_left. rewrite not_elem_of_app. split; [|done].
  intros [H _]%elem_of_replicate. done.
Qed.

Lemma format_int_plain n :
  (COMMA ∉ format_int n) /\ (LF ∉ format_int n) /\ (CR ∉ format_int n).
Proof.
  pose proof (format_int_numeric n) as H. rewrite Forall_forall in H.
  repeat split; intros Hin; apply H, numeric_byte_plain in Hin; naive_solver.
Qed.

Lemma row_split (p0 p1 p2 nm : gostring) :
  COMMA ∉ p0 -> COMMA ∉ p1 -> COMMA ∉ p2 -> COMMA ∉ nm ->
  strings_Split
    (p0 ++ COMMA :: SP :: p1 ++ COMMA :: SP :: p2 ++ COMMA :: SP :: nm
     ++ COMMA :: [SP]) COMMA
  = [p0; SP :: p1; SP :: p2; SP :: nm; [SP]].
Proof.
  intros H0 H1 H2 H3.
  rewrite strings_Split_app by done. f_equal.
  rewrite (app_comm_cons p1), strings_Split_app
    by (rewrite not_elem_of_cons; done). f_equal.
  rewrite (app_comm_cons p2), strings_Split_app
    by (rewrite not_elem_of_cons; done). f_equal.
  rewrite (app_comm_cons nm), strings_Split_app
    by (rewrite not_elem_of_cons; done). f_equal.
Qed.

Lemma row_line_describes p :
  clean (PlayerResult.Name p) -> clean (PlayerResult.Result p) ->
  is_int (PlayerResult.Rank p) -> is_int (PlayerResult.OOMPoints p) ->
  row_describes (dropCR (row_line p)) p.
Proof.
  intros (Hn1 & Hn2 & Hn3) (Hr1 & Hr2 & Hr3) Hrank Hpts.
  assert (Hbody : row_line p
    = (pad_left 10 (format_int (PlayerResult.OOMPoints p)) ++ COMMA :: SP ::
       pad_left 12 (format_int (PlayerResult.Rank p)) ++ COMMA :: SP ::
       pad_left 8 (PlayerResult.Result p) ++ COMMA :: SP ::
       PlayerResult.Name p ++ COMMA :: [SP]) ++ [CR]).
  { unfold row_line. change (list_ascii_of_string ", ") with [COMMA; SP].
    repeat (first [rewrite <- app_assoc | progress (cbn [app])]).
    reflexivity. }
  rewrite Hbody, dropCR_snoc.
  destruct (format_int_plain (PlayerResult.OOMPoints p)) as (Hc0 & _).
  destruct (format_int_plain (PlayerResult.Rank p)) as (Hc1 & _).
  unfold row_describes, field.
  rewrite row_split by (done || by apply not_in_pad_left).
  unfold index_at. cbn [lookup list_lookup mbind result_bind].
  rewrite !TrimSpace_padded, !TrimSpace_pad_left, !TrimSpace_format_int.
  rewrite Hn3, Hr3. repeat split; try done.
  - eexists. split; [done|]. by rewrite Atoi_format_int.
  - eexists. split; [done|]. by rewrite Atoi_format_int.
Qed.

Lemma insert_all_lookup ps m name :
  insert_all ps m !! name
  = match last_named name ps with
    | Some e => Some e
    | None => m !! name
    end.
Proof.
  revert m. induction ps as [|p ps IH]; intros m; [done|].
  unfold insert_all in *. cbn [fold_left]. rewrite IH, last_named_cons.
  destruct (last_named name ps); [done|].
  destruct (decide (PlayerResult.Name p = name)) as [<-|Hne].
  - by rewrite lookup_insert_eq.
  - by rewrite lookup_insert_ne.
Qed.

Lemma filter_named_absent name (l : list (gostring * PlayerResult.t)) :
  (forall k p, (k, p) ∈ l -> PlayerResult.Name p = k) ->
  name ∉ l.*1 ->
  filter (fun e => PlayerResult.Name e = name) l.*2 = [].
Proof.
  induction l as [|[k p] l IH]; intros Hk Hno; [done|].
  rewrite fmap_cons in Hno. apply not_elem_of_cons in Hno as [Hne Hno].
  rewrite fmap_cons, filter_cons. cbn [snd fst] in *.
  rewrite decide_False by (rewrite (Hk k p) by left; done).
  apply IH; [intros; apply Hk; by right | done].
Qed.

Lemma filter_named_present name p (l : list (gostring * PlayerResult.t)) :
  (forall k p, (k, p) ∈ l -> PlayerResult.Name p = k) ->
  NoDup l.*1 -> (name, p) ∈ l ->
  filter (fun e => PlayerResult.Name e = name) l.*2 = [p].
Proof.
  induction l as [|[k0 p0] l IH]; intros Hk Hnd Hin.
  - by apply elem_of_nil in Hin.
  - rewrite fmap_cons in Hnd. apply NoDup_cons in Hnd as [Hk0 Hnd].
    rewrite fmap_cons, filter_cons. cbn [snd fst] in *.
    apply elem_of_cons in Hin as [[= <- <-] | Hin].
    + rewrite decide_True by (apply Hk; left).
      f_equal. apply filter_named_absent; [intros; apply Hk; by right | done].
    + rewrite decide_False.
      * apply IH; [intros; apply Hk; by right | done..].
      * rewrite (Hk k0 p0) by left. intros ->. apply Hk0.
        apply list_elem_of_fmap. by exists (name, p).
Qed.

Lemma insert_all_range (ord : range_order)
    (m : gmap gostring PlayerResult.t) :
  valid_order ord ->
  (forall name p, m !! name = Some p -> PlayerResult.Name p = name) ->
  insert_all (range_map ord m).*2 ∅ = m.
Proof.
  intros Hord Hm. apply map_eq. intros name.
  rewrite insert_all_lookup, lookup_empty. unfold last_named, range_map.
  assert (Hk : forall k p, (k, p) ∈ ord _ (map_to_list m) ->
                           PlayerResult.Name p = k).
  { intros k p Hin. rewrite (Hord _ _) in Hin.
    apply elem_of_map_to_list in Hin. by apply Hm. }
  assert (Hnd : NoDup (ord _ (map_to_list m)).*1).
  { rewrite (Hord _ _). apply NoDup_fst_map_to_list. }
  destruct (m !! name) as [p|] eqn:E.
  - rewrite (filter_named_present name p); [done | done | done |].
    rewrite (Hord _ _). by apply elem_of_map_to_list.
  - rewrite filter_named_absent; [done | done |].
    rewrite (Hord _ _). intros Hin.
    apply list_elem_of_fmap in Hin as ([k p] & -> & Hin).
    apply elem_of_map_to_list in Hin. cbn in E. congruence.
Qed.

Lemma clean_line_fits (label x : gostring) :
  LF ∉ label -> LF ∉ x -> len (label ++ x ++ [CR]) < MaxScanTokenSize ->
  fits (label ++ x ++ [CR]).
Proof.
  intros Hl Hx Hlen. split; [|done].
  rewrite !not_elem_of_app. repeat split; try done.
  intros ?%list_elem_of_singleton. done.
Qed.

Lemma row_line_fits p :
  LF ∉ PlayerResult.Name p -> LF ∉ PlayerResult.Result p ->
  len (row_line p) < MaxScanTokenSize -> fits (row_line p).
Proof.
  intros Hn Hr Hlen. split; [|done]. unfold row_line.
  destruct (format_int_plain (PlayerResult.OOMPoints p)) as (_ & H0 & _).
  destruct (format_int_plain (PlayerResult.Rank p)) as (_ & H1 & _).
  assert (Hsep : LF ∉ (", " : gostring)) by compute_done.
  rewrite !not_elem_of_app.
  repeat split; try done; try (by apply not_in_pad_left).
  intros ?%list_elem_of_singleton. done.
Qed.

Lemma range_map_lookup {V} (ord : range_order) (m : gmap gostring V) k v :
  valid_order ord -> (k, v) ∈ range_map ord m -> m !! k = Some v.
Proof.
  intros Hord Hin. unfold range_map in Hin. rewrite (Hord _ _) in Hin.
  by apply elem_of_map_to_list.
Qed.

Lemma labelled_field (label x : gostring) :
  COMMA ∉ label -> clean x ->
  field (dropCR ((label ++ COMMA :: SP :: x) ++ [CR])) 1 = Ok x.
Proof.
  intros Hl (Hc & _ & Ht). by rewrite dropCR_snoc, field_after_comma, Ht.
Qed.

Lemma describes_cache_text ord c :
  valid_order ord -> cacheable c -> lines_fit ord c ->
  describes (cache_text ord c) c.
Proof.
  intros Hord [Hk Hn Hd Hu Hp Hres] Hfit.
  exists [], ("key, " ++ Competition.Key c ++ [CR]),
    ("name, " ++ Competition.Name c ++ [CR]),
    ("date, " ++ Competition.Date c ++ [CR]),
    ("url, " ++ Competition.URL c ++ [CR]),
    ("number of players, " ++ format_int (Competition.NumPlayers c) ++ [CR]),
    (header_row ++ [CR]), (cache_rows ord c),
    (range_map ord (Competition.Results c)).*2,
    (format_int (Competition.NumPlayers c)).
  unfold lines_fit in Hfit. apply Forall_app in Hfit as [Hfh Hfr].
  unfold cache_header in Hfh.
  apply Forall_cons in Hfh as [Hf1 Hfh]. apply Forall_cons in Hfh as [Hf2 Hfh].
  apply Forall_cons in Hfh as [Hf3 Hfh]. apply Forall_cons in Hfh as [Hf4 Hfh].
  apply Forall_cons in Hfh as [Hf5 Hfh]. apply Forall_cons in Hfh as [Hf6 _].
  destruct (format_int_plain (Competition.NumPlayers c)) as (Hi1 & Hi2 & _).
  split; [apply cache_text_lines|].
  split.
  { cbn [app]. repeat apply Forall_cons_2.
    - apply clean_line_fits; [compute_done | apply Hk | done].
    - apply clean_line_fits; [compute_done | apply Hn | done].
    - apply clean_line_fits; [compute_done | apply Hd | done].
    - apply clean_line_fits; [compute_done | apply Hu | done].
    - apply clean_line_fits; [compute_done | done | done].
    - apply (clean_line_fits header_row []); [compute_done | | done].
      apply not_elem_of_nil.
    - unfold cache_rows in *. rewrite Forall_fmap in *.
      rewrite Forall_forall in Hfr. apply Forall_forall. intros [k p] Hin.
      apply range_map_lookup in Hin as Hl; [|done].
      destruct (Hres k p Hl) as (_ & (_ & ? & _) & (_ & ? & _) & _).
      apply row_line_fits; [done | done |]. by apply (Hfr (k, p)). }
  split; [constructor|].
  split.
  { rewrite (app_assoc "key, "), dropCR_snoc. by exists "k"%char, ("ey, " ++ Competition.Key c). }
  split; [apply (labelled_field "key"); [compute_done | done]|].
  split; [apply (labelled_field "name"); [compute_done | done]|].
  split; [apply (labelled_field "date"); [compute_done | done]|].
  split; [apply (labelled_field "url"); [compute_done | done]|].
  split.
  { change ("number of players, " ++ format_int (Competition.NumPlayers c) ++ [CR])
      with (("number of players" ++ COMMA :: SP
             :: format_int (Competition.NumPlayers c)) ++ [CR]).
    rewrite dropCR_snoc, field_after_comma by (done || compute_done).
    by rewrite TrimSpace_format_int. }
  split; [by rewrite Atoi_format_int|].
  split.
  { unfold cache_rows. rewrite map_map.
    apply Forall2_fmap_l, Forall2_fmap_r, Forall_Forall2_diag.
    apply Forall_forall. intros [k p] Hin.
    apply range_map_lookup in Hin as Hl; [|done].
    destruct (Hres k p Hl) as (_ & ? & ? & ? & ?).
    by apply row_line_describes. }
  symmetry. apply insert_all_range; [done|].
  intros name p Hl. by destruct (Hres name p Hl).
Qed.

Lemma cache_rows_permutation ord ord' c :
  valid_order ord -> valid_order ord' ->
  cache_rows ord' c ≡ₚ cache_rows ord c.
Proof.
  intros Hord Hord'. unfold cache_rows, range_map.
  by rewrite (Hord _ _), (Hord' _ _).
Qed.

(** C4, as the code has it.  Take a competition whose header fields and
    whose players' names and results are free of commas and line feeds
    and have no white space at either end, whose numbers are 64-bit
    [int]s, whose players are stored under their names, and whose lines
    fit the scanner.  Whatever the order in which [saveComp] visits the
    players, [readCached] gets the same competition back from the file
    written.  Written again with the players visited in the same order,
    the text is the same byte for byte; visited in another order, the
    text has the same lines before the rows and the same rows in another
    order. *)
Theorem C4_round_trip (ord ord' : range_order) c w :
  valid_order ord -> valid_order ord' -> cacheable c -> lines_fit ord c ->
  exists c',
    readCached c (snd (saveComp ord c w))
    = (Ok (Some c'), snd (saveComp ord c w)) /\
    c' = c /\
    cache_text ord c' = cache_text ord c /\
    cache_text ord c = unlines (cache_header c ++ cache_rows ord c) /\
    cache_text ord' c' = unlines (cache_header c ++ cache_rows ord' c') /\
    cache_rows ord' c' ≡ₚ cache_rows ord c.
Proof.
  intros Hord Hord' Hc Hfit. exists c.
  split; [|split; [done|split; [done|split; [|split]]]].
  - unfold readCached, saveComp, WriteFile, ReadFile, lift, mbind, M_bind,
      mret, M_ret. cbn [snd files].
    rewrite lookup_insert_eq.
    by rewrite (parse_cache_describes _ c (describes_cache_text _ _ Hord Hc Hfit)).
  - apply cache_text_lines.
  - apply cache_text_lines.
  - by apply cache_rows_permutation.
Qed.

Lemma reverse_order_valid : valid_order reverse_order.
Proof. intros V l. unfold reverse_order. symmetry. apply Permutation_rev. Qed.

Lemma cached_competition_cacheable : cacheable cached_competition.
Proof.
  split; try (split; [compute_done | split; [compute_done | by vm_compute]]).
  - compute_done.
  - intros name p H. unfold cached_competition in H. cbn [Competition.Results] in H.
    apply lookup_insert_Some in H as [[<- <-] | [_ H]].
    { repeat split; try compute_done; by vm_compute. }
    apply lookup_insert_Some in H as [[<- <-] | [_ H]].
    { repeat split; try compute_done; by vm_compute. }
    by rewrite lookup_empty in H.
Qed.

Lemma C4_round_trip_witness :
  exists c',
    readCached cached_competition
      (snd (saveComp identity_order cached_competition uncached_world))
    = (Ok (Some c'),
       snd (saveComp identity_order cached_competition uncached_world)) /\
    c' = cached_competition /\
    cache_text identity_order c' = cache_text identity_order cached_competition /\
    cache_text identity_order cached_competition
    = unlines (cache_header cached_competition
               ++ cache_rows identity_order cached_competition) /\
    cache_text reverse_order c'
    = unlines (cache_header cached_competition ++ cache_rows reverse_order c') /\
    cache_rows reverse_order c' ≡ₚ cache_rows identity_order cached_competition.
Proof.
  apply (C4_round_trip identity_order reverse_order cached_competition
           uncached_world).
  - apply identity_order_valid.
  - apply reverse_order_valid.
  - apply cached_competition_cacheable.
  - compute_done.
Defined.

(** C4 as stated fails: nothing fixes the order in which [saveComp]
    visits the players.  The file written for two players parses back
    into the same competition, and writing that one with the players
    visited the other way round gives another text. *)
Lemma C4_row_order_counterexample :
  valid_order identity_order /\ valid_order reverse_order /\
  parse_cache (cache_text identity_order cached_competition)
  = Ok cached_competition /\
  cache_text reverse_order cached_competition
  <> cache_text identity_order cached_competition.
Proof.
  split; [apply identity_order_valid|]. split; [apply reverse_order_valid|].
  split; [vm_compute; reflexivity|].
  intros H. vm_compute in H. discriminate H.
Qed.

(** What the conditions on the text are for: a comma in the name of the
    competition cuts the name short when the file is read back. *)
Example comma_cuts_name :
  parse_cache (cache_text identity_order comma_competition)
  = Ok (Competition.mk "77" "Seniors Open" "Sun 8th May" "http://club/77" 0 ∅).
Proof. vm_compute. reflexivity. Qed.

(** ** The loop bounds suffice

    The loops of the program are modelled with a bound on the number of
    turns.  No bound is ever reached: every function of the model ends
    as the program does, with a value, a panic or a fatal error. *)

Lemma within_bind {A B} (r : result A) (k : A -> result B) :
  within_fuel r -> (forall a, within_fuel (k a)) -> within_fuel (r ≫= k).
Proof.
  destruct r as [a|f]; cbn; intros Hr Hk; [apply Hk|].
  intros [= ->]. by apply Hr.
Qed.

Lemma within_Ok {A} (a : A) : within_fuel (Ok a).
Proof. done. Qed.

Lemma slice_within s lo hi : within_fuel (slice s lo hi).
Proof. unfold slice. by destruct (_ && _). Qed.

Lemma index_at_within l i : within_fuel (index_at l i).
Proof. unfold index_at. by destruct (l !! i). Qed.

Lemma field_within line i : within_fuel (field line i).
Proof.
  unfold field. apply within_bind; [apply index_at_within | done].
Qed.

Ltac within :=
  repeat first
    [ apply within_Ok
    | apply slice_within
    | apply index_at_within
    | apply field_within
    | apply within_bind; [|intros ?] ].

Lemma playerDetail_within s : within_fuel (playerDetail s).
Proof. unfold playerDetail, slice_from, slice_to. within. Qed.

Lemma champDetail_within s : within_fuel (champDetail s).
Proof.
  unfold champDetail, slice_from, slice_to. within.
  destruct (_ =? -1); [done|]. within.
  destruct (bytes_eqb _ _); within.
Qed.

Lemma scan_players_within detail st toks :
  (forall s, within_fuel (detail s)) ->
  within_fuel (scan_players detail st toks).
Proof.
  intros Hd. revert st. induction toks as [|text toks IH]; intros st; [done|].
  cbn [scan_players]. apply within_bind; [|done].
  unfold scan_body. destruct (first st); [done|].
  apply within_bind; [done|]. by intros [].
Qed.

Lemma populate_from_page_within comp data :
  within_fuel (populate_from_page comp data).
Proof.
  unfold populate_from_page.
  destruct (page_tokens_total data) as [toks ->].
  apply within_bind; [|done].
  apply scan_players_within.
  destruct (is_standard data);
    [apply playerDetail_within | apply champDetail_within].
Qed.

Lemma parse_key_line_within url_Parse text :
  within_fuel (parse_key_line url_Parse text).
Proof.
  unfold parse_key_line. apply within_bind.
  - unfold parseNextCompKey, slice_from. within.
    destruct (_ =? -1); within.
  - intros [compid e]. destruct (bytes_eqb compid _); within.
Qed.

Lemma parse_key_lines_within url_Parse lines ret :
  within_fuel (parse_key_lines url_Parse lines ret).
Proof.
  revert ret. induction lines as [|text lines IH]; intros ret; [done|].
  cbn [parse_key_lines].
  apply within_bind; [apply parse_key_line_within | done].
Qed.

Lemma parse_keys_within url_Parse content :
  within_fuel (parse_keys url_Parse content).
Proof.
  unfold parse_keys.
  destruct (scan_all_total ScanLines (NewScanner content) ScanLines_advancing)
    as [[lines sc] ->].
  apply within_bind; [apply parse_key_lines_within|].
  intros ret. by destruct (Err sc).
Qed.

Lemma within_bind_eq {A B} (r : result A) (k : A -> result B) :
  within_fuel r -> (forall a, r = Ok a -> within_fuel (k a)) ->
  within_fuel (r ≫= k).
Proof.
  destruct r as [a|f]; cbn; intros Hr Hk; [by apply Hk|].
  intros [= ->]. by apply Hr.
Qed.

Lemma tokenEnd_within s start terminator :
  within_fuel (tokenEnd s start terminator).
Proof. unfold tokenEnd, slice_from. within. Qed.

Lemma slice_from_length s lo r :
  slice_from s lo = Ok r -> 0 <= lo /\ len r = len s - lo.
Proof.
  unfold slice_from. intros (H1 & H2 & ->)%slice_inv. split; [lia|].
  unfold len in *. rewrite length_take, length_drop. lia.
Qed.

Lemma tokenStart_pos s tok :
  tokenStart s tok <> -1 -> len tok <= tokenStart s tok.
Proof.
  unfold tokenStart. destruct (Z.eqb_spec (strings_Index s tok) (-1)); [done|].
  intros _. destruct (index_range s tok); lia.
Qed.

Lemma parseWebComps_loop_within fuel compstr ret :
  (length compstr < fuel)%nat ->
  within_fuel (parseWebComps_loop fuel compstr ret).
Proof.
  revert compstr ret.
  induction fuel as [|fuel IH]; intros compstr ret Hlt; [lia|].
  cbn [parseWebComps_loop].
  destruct (Z.eqb_spec (tokenStart compstr "?compid=") (-1)) as [|Hs]; [done|].
  apply tokenStart_pos in Hs. change (len "?compid=") with 8 in Hs.
  apply within_bind_eq; [apply tokenEnd_within|]. intros end1 _.
  apply within_bind_eq; [apply slice_within|].
  intros compid (H1 & _)%slice_inv.
  apply within_bind_eq; [apply slice_within|].
  intros c1 [_ Hc1]%slice_from_length.
  apply within_bind_eq; [apply tokenEnd_within|]. intros end2 _.
  apply within_bind_eq; [apply slice_within|]. intros compname _.
  apply within_bind_eq; [apply slice_within|].
  intros c2 [? Hc2]%slice_from_length.
  apply within_bind_eq; [apply tokenEnd_within|]. intros end3 _.
  apply within_bind_eq; [apply slice_within|]. intros compdate _.
  apply within_bind_eq; [apply slice_within|].
  intros c3 [? Hc3]%slice_from_length.
  apply IH. unfold len in *. lia.
Qed.

Lemma parseWebComps_within compstr : within_fuel (parseWebComps compstr).
Proof. apply parseWebComps_loop_within. lia. Qed.

Lemma Scan_input_le split s :
  (length (sc_input (snd (Scan split s))) <= length (sc_input s))%nat.
Proof.
  destruct s as [input tok err]. unfold Scan. cbn [sc_input sc_err sc_token].
  assert (Hw : (length (take (Z.to_nat MaxScanTokenSize) input)
                <= length input)%nat) by (rewrite length_take; lia).
  revert Hw. generalize (take (Z.to_nat MaxScanTokenSize) input) as window.
  generalize (bool_decide (is_Some err) || (len input <? MaxScanTokenSize))
    as atEOF.
  intros atEOF window Hw.
  destruct (split window atEOF) as [advance [t|]];
    destruct (advance <? 0); cbn [snd sc_input]; try done;
    destruct (len window <? advance); cbn [snd sc_input]; try done.
  - rewrite length_drop. lia.
  - destruct atEOF; cbn [snd sc_input length]; lia.
Qed.

Lemma ScanLines_stop s s' : Scan ScanLines s = (false, s') -> Text s' = [].
Proof.
  destruct s as [input tok err]. unfold Scan, ScanLines.
  cbn [sc_input sc_err sc_token].
  generalize (take (Z.to_nat MaxScanTokenSize) input) as window.
  generalize (bool_decide (is_Some err) || (len input <? MaxScanTokenSize))
    as atEOF.
  intros atEOF window.
  destruct (atEOF && (len window =? 0)) eqn:E0.
  { apply andb_true_iff in E0 as [Ea E0]. apply Z.eqb_eq in E0.
    rewrite Ea, E0. cbn. by intros [= <-]. }
  pose proof (index_range window [byte 10]) as Hr.
  pose proof (len_nonneg window) as Hn.
  destruct (Z.leb_spec 0 (strings_Index window [byte 10])) as [Hi|Hi].
  - destruct (Z.ltb_spec (strings_Index window [byte 10] + 1) 0); [lia|].
    destruct (Z.ltb_spec (len window) (strings_Index window [byte 10] + 1));
      [|done].
    destruct Hr as [Hr|Hr]; [lia|].
    assert (strings_Index window [byte 10] = len window) as Heq by lia.
    exfalso. revert Heq. unfold strings_Index.
    destruct (index_from_cases [byte 10] window 0)
      as [[H1 H2] | (j & H1 & H2 & H3 & H4)]; [lia|].
    rewrite H1. intros ?. apply has_prefix_iff in H3 as [r Hr'].
    apply (f_equal length) in Hr'. rewrite length_drop in Hr'.
    cbn in Hr'. unfold len in *. lia.
  - destruct atEOF eqn:Ea.
    + destruct (Z.ltb_spec (len window) 0); [lia|].
      destruct (Z.ltb_spec (len window) (len window)); [lia|]. done.
    + cbn. destruct (Z.ltb_spec (len window) 0); [lia|]. by intros [= <-].
Qed.

Lemma skip_comments_within fuel sc :
  (S (length (sc_input sc)) < fuel)%nat ->
  within_fuel (skip_comments fuel sc).
Proof.
  revert sc. induction fuel as [|fuel IH]; intros sc Hlt; [lia|].
  cbn [skip_comments]. apply within_bind; [apply slice_within|]. intros h.
  destruct (bytes_eqb h "#"); [|done].
  destruct (Scan ScanLines sc) as [[] s'] eqn:E; cbn [snd].
  - apply IH. apply ScanLines_advancing in E. lia.
  - apply ScanLines_stop in E. destruct fuel as [|fuel]; [lia|].
    cbn [skip_comments]. rewrite E. done.
Qed.

Lemma read_rows_within rows m : within_fuel (read_rows rows m).
Proof.
  revert m. induction rows as [|text rows IH]; intros m; [done|].
  cbn [read_rows]. apply within_bind; [|done].
  unfold read_row. within.
Qed.

Lemma parse_cache_within content : within_fuel (parse_cache content).
Proof.
  unfold parse_cache.
  apply within_bind.
  { apply skip_comments_within.
    pose proof (Scan_input_le ScanLines (NewScanner content)) as H.
    cbn [NewScanner sc_input] in H. lia. }
  intros sc. within.
  match goal with
  | |- context [scan_all ScanLines ?s] =>
      destruct (scan_all_total ScanLines s ScanLines_advancing)
        as [[rows sc'] ->]
  end.
  apply within_bind; [apply read_rows_within|].
  intros results. by destruct (Err sc').
Qed.

(** The same for the functions that read files and fetch pages. *)
Lemma within_M_bind {A B} (m : M A) (k : A -> M B) :
  (forall w, within_fuel (fst (m w))) ->
  (forall a w, within_fuel (fst (k a w))) ->
  forall w, within_fuel (fst ((m ≫= k) w)).
Proof.
  intros Hm Hk w. unfold mbind, M_bind. specialize (Hm w).
  destruct (m w) as [[a|f] w']; cbn [fst] in *; [apply Hk|].
  intros [= ->]. by apply Hm.
Qed.

Lemma parseKeysFromFile_within url_Parse fname w :
  within_fuel (fst (parseKeysFromFile url_Parse fname w)).
Proof.
  unfold parseKeysFromFile. revert w. apply within_M_bind; [done|].
  intros [content|] w; cbn; [apply parse_keys_within | done].
Qed.

Lemma fetchAllCompsPage_within year useCached w :
  within_fuel (fst (fetchAllCompsPage year useCached w)).
Proof.
  unfold fetchAllCompsPage. revert w. apply within_M_bind.
  { intros w. by destruct useCached. }
  intros [d1|]; [done|]. apply within_M_bind.
  { intros w. unfold MustFetch. by destruct (web w _). }
  intros d. by apply within_M_bind.
Qed.

Lemma FetchCompDescriptions_within ord url_Parse year fname w :
  within_fuel (fst (FetchCompDescriptions ord url_Parse year fname w)).
Proof.
  unfold FetchCompDescriptions. revert w.
  apply within_M_bind; [apply parseKeysFromFile_within|]. intros requested.
  apply within_M_bind; [apply fetchAllCompsPage_within|]. intros [d fromCache].
  apply within_M_bind; [intros w; apply parseWebComps_within|]. intros m.
  destruct (firstMissingKey requested m) as [missing k].
  destruct (missing && negb fromCache); [done|].
  apply within_M_bind; [|done].
  destruct (missing && fromCache); [|done].
  apply within_M_bind; [apply fetchAllCompsPage_within|]. intros [d' fromCache'].
  apply within_M_bind; [intros w; apply parseWebComps_within|]. intros m'.
  destruct (firstMissingKey requested m') as [missing' k'].
  by destruct (missing' && negb fromCache').
Qed.

Lemma Load_within ord comp w : within_fuel (fst (Load ord comp w)).
Proof.
  unfold Load. destruct (bytes_eqb _ _); [done|]. revert w.
  apply within_M_bind.
  { unfold readCached. apply within_M_bind; [done|].
    intros [content|]; [|done].
    apply within_M_bind; [intros w; apply parse_cache_within | done]. }
  intros [c|]; [done|].
  apply within_M_bind.
  { unfold populateResultsFromWeb. apply within_M_bind.
    - intros w. unfold MustFetch. by destruct (web w _).
    - intros data w. apply populate_from_page_within. }
  intros c. by apply within_M_bind.
Qed.

(** ** The dispatch loop ends and never blocks *)

Lemma sum_weight_insert ts k t t' :
  ts !! k = Some t ->
  (sum_list (map task_weight (<[k := t']> ts)) + task_weight t
   = sum_list (map task_weight ts) + task_weight t')%nat.
Proof.
  revert k. induction ts as [|x ts IH]; intros [|k] Hk; simpl in *; try done.
  - injection Hk as ->. lia.
  - specialize (IH k Hk). lia.
Qed.

Lemma sum_weight_snoc ts t :
  sum_list (map task_weight (ts ++ [t]))
  = (sum_list (map task_weight ts) + task_weight t)%nat.
Proof. induction ts as [|x ts IH]; simpl; [lia | rewrite IH; lia]. Qed.

Lemma step_weight n s s' :
  sched_inv n s -> step n s s' -> (sched_weight n s' < sched_weight n s)%nat.
Proof.
  intros [_ _ Hst _ _] Hstep. unfold sched_weight.
  destruct Hstep; cbn [main tasks aborted] in *;
    repeat match goal with
    | H : ?ts !! ?k = Some ?t |- context [<[?k := ?t']> ?ts] =>
        pose proof (sum_weight_insert ts k t t' H); clear H
    | H : ?ts !! ?k = Some TLoading |- _ =>
        pose proof (sum_weight_insert ts k TLoading TDone H); clear H
    end;
    rewrite ?sum_weight_snoc; simpl in *; lia.
Qed.

Lemma nsteps_weight n k s0 s :
  nsteps (step n) k s0 s -> sched_inv n s0 ->
  sched_inv n s /\ (k + sched_weight n s <= sched_weight n s0)%nat.
Proof.
  induction 1 as [s|k s0 s1 s Hstep _ IH]; intros Hinv; [split; [done|lia]|].
  pose proof (step_weight n s0 s1 Hinv Hstep).
  destruct IH as [? ?]; [by eapply sched_inv_step|]. split; [done|lia].
Qed.

(** The dispatch cannot run for ever: from the start of [main] to any
    state there are at most [7 * n + 2] steps. *)
Theorem dispatch_bounded n k s :
  nsteps (step n) k sched_init s -> (k <= 7 * n + 2)%nat.
Proof.
  intros H. apply nsteps_weight in H as [_ H]; [|apply sched_inv_init].
  unfold sched_weight at 2 in H. simpl in H. lia.
Qed.

(** A run of two loads that takes all of the [7 * 2 + 2] steps. *)
Lemma dispatch_bounded_witness :
  nsteps (step 2) 16 sched_init
    (Build_sched MPast [TDone; TDone] 0 0 false) /\
  (16 <= 7 * 2 + 2)%nat.
Proof.
  assert (Hrun : nsteps (step 2) 16 sched_init
                   (Build_sched MPast [TDone; TDone] 0 0 false)).
  { unfold sched_init.
    eapply nsteps_l; [apply step_send; unfold slots_capacity; lia|].
    eapply nsteps_l; [apply step_go|]. simpl.
    eapply nsteps_l; [apply (step_call 2 _ _ 0%nat); reflexivity|]. simpl.
    eapply nsteps_l; [apply (step_return 2 _ _ 0%nat); reflexivity|]. simpl.
    eapply nsteps_l; [apply (step_signal 2 _ _ 0%nat); [reflexivity|lia]|]. simpl.
    eapply nsteps_l; [apply (step_release 2 _ _ 0%nat); reflexivity|]. simpl.
    eapply nsteps_l; [apply step_send; unfold slots_capacity; lia|].
    eapply nsteps_l; [apply step_go|]. simpl.
    eapply nsteps_l; [apply (step_call 2 _ _ 1%nat); reflexivity|]. simpl.
    eapply nsteps_l; [apply (step_return 2 _ _ 1%nat); reflexivity|]. simpl.
    eapply nsteps_l; [apply (step_signal 2 _ _ 1%nat); [reflexivity|lia]|]. simpl.
    eapply nsteps_l; [apply (step_release 2 _ _ 1%nat); reflexivity|]. simpl.
    eapply nsteps_l; [apply step_leave; lia|].
    eapply nsteps_l; [apply step_receive; lia|].
    eapply nsteps_l; [apply step_receive; lia|].
    eapply nsteps_l; [apply step_join; lia|].
    apply nsteps_O. }
  split; [exact Hrun | exact (dispatch_bounded 2 16 _ Hrun)].
Defined.

Lemma can_move_exists ts :
  (count_tasks has_signalled ts < length ts)%nat ->
  exists k t, ts !! k = Some t /\ can_move t = true.
Proof.
  induction ts as [|x ts IH]; simpl; [lia|]. intros H.
  destruct x; simpl in H;
    try (by exists 0%nat; eexists; split; [reflexivity|]);
    (destruct IH as (k & t & ? & ?); [lia|]; by exists (S k), t).
Qed.

Lemma holds_slot_exists ts :
  (0 < count_tasks holds_slot ts)%nat ->
  exists k t, ts !! k = Some t /\ holds_slot t = true.
Proof.
  induction ts as [|x ts IH]; simpl; [lia|]. intros H.
  destruct (holds_slot x) eqn:E.
  - by exists 0%nat, x.
  - destruct IH as (k & t & ? & ?); [lia|]. by exists (S k), t.
Qed.

Lemma signalled_le_length ts :
  (count_tasks has_signalled ts <= length ts)%nat.
Proof. apply count_tasks_le. Qed.

Lemma task_step n m ts sl c k t :
  sched_inv n (Build_sched m ts sl c false) ->
  ts !! k = Some t -> holds_slot t = true ->
  exists s', step n (Build_sched m ts sl c false) s'.
Proof.
  intros [Hs Hc Hst Hco Hab] Hk Ht. simpl in *.
  destruct t; try done.
  - eexists. by eapply step_call.
  - eexists. by eapply step_return.
  - eexists. eapply step_signal; [done|].
    assert (count_tasks has_signalled ts < length ts)%nat.
    { pose proof (count_tasks_insert has_signalled ts k TLoaded TDone Hk).
      pose proof (count_tasks_le has_signalled (<[k := TDone]> ts)).
      rewrite length_insert in *. simpl in *. lia. }
    assert (length ts <= n)%nat by (destruct m; lia).
    lia.
  - assert (0 < count_tasks holds_slot ts)%nat.
    { pose proof (count_tasks_insert holds_slot ts k TSignalled TDone Hk).
      simpl in *. lia. }
    destruct sl as [|sl]; [lia|]. eexists. by eapply step_release.
Qed.

(** The dispatch cannot get stuck: as long as no [Load] has ended the
    process and [main] is not past its second loop, [main] or one of the
    goroutines can take a step. *)
Theorem dispatch_progress n s :
  reachable n s -> aborted s = false -> main s <> MPast ->
  exists s', step n s s'.
Proof.
  intros Hr Hab Hm. apply reachable_inv in Hr as Hinv.
  destruct s as [m ts sl c ab]. simpl in Hab, Hm. subst ab.
  pose proof Hinv as [Hs Hc Hst Hco _]. simpl in *.
  destruct m as [i|i|j|]; [| | |done].
  - destruct (decide (i < n)%nat) as [Hi|Hi].
    + destruct (decide (sl < slots_capacity)%nat) as [Hl|Hl].
      * eexists. by apply step_send.
      * destruct (holds_slot_exists ts) as (k & t & Hk & Ht);
          [unfold slots_capacity in *; lia|].
        by eapply task_step.
    + eexists. by apply step_leave.
  - eexists. apply step_go.
  - destruct (decide (j < n)%nat) as [Hj|Hj].
    + destruct c as [|c].
      * destruct (can_move_exists ts) as (k & t & Hk & Ht);
          [simpl in Hco; lia|].
        eapply task_step; [done..|]. by destruct t.
      * eexists. by apply step_receive.
    + eexists. by apply step_join.
Qed.

Lemma dispatch_progress_witness :
  exists s', step 2 (Build_sched (MWait 0) [TLoading; TStart] 2 0 false) s'.
Proof.
  apply dispatch_progress; [|reflexivity|discriminate].
  unfold reachable, sched_init.
  eapply rtc_l; [apply step_send; unfold slots_capacity; lia|].
  eapply rtc_l; [apply step_go|]. simpl.
  eapply rtc_l; [apply (step_call 2 _ _ 0%nat); reflexivity|]. simpl.
  eapply rtc_l; [apply step_send; unfold slots_capacity; lia|].
  eapply rtc_l; [apply step_go|]. simpl.
  eapply rtc_l; [apply step_leave; lia|].
  apply rtc_refl.
Defined.

(** ** The first missing key *)

(** [firstMissingKey] either finds every key of the slice in the map and
    returns [false] with the empty string, or returns [true] with the key
    of the first descriptor, in slice order, that the map lacks. *)
Theorem firstMissingKey_first c m :
  (all_listed c m /\ firstMissingKey c m = (false, [])) \/
  (exists pre d post,
     c = pre ++ d :: post /\ all_listed pre m /\
     m !! Competition.Key d = None /\
     firstMissingKey c m = (true, Competition.Key d)).
Proof.
  induction c as [|d c IH]; [left; split; [constructor | done]|].
  cbn [firstMissingKey].
  destruct (m !! Competition.Key d) as [e|] eqn:E.
  - destruct IH as [[Hall ->] | (pre & d' & post & -> & Hall & Hd & ->)].
    + left. split; [|done]. constructor; [by rewrite E | done].
    + right. exists (d :: pre), d', post. repeat split; try done.
      constructor; [by rewrite E | done].
  - right. exists [], d, c. repeat split; try done. constructor.
Qed.

(** ** Identifiers *)

Lemma endInt_from_split post start :
  exists ds rest,
    post = ds ++ rest /\ Forall (fun c => is_digit c = true) ds /\
    no_digit_ahead rest /\ endInt_from post start = start + len ds.
Proof.
  revert start. induction post as [|c post IH]; intros start.
  - exists [], []. repeat split; try done. cbn. unfold len. cbn. lia.
  - cbn [endInt_from]. destruct (is_digit c) eqn:Ec.
    + destruct (IH (start + 1)) as (ds & rest & -> & Hd & Hr & ->).
      exists (c :: ds), rest. repeat split; try done.
      * by constructor.
      * unfold len. cbn [length]. lia.
    + exists [], (c :: post). repeat split; try done.
      * intros c' post' [= <- <-]. done.
      * unfold len. cbn. lia.
Qed.

(** From a position inside the string, [endInt] returns the end of the
    run of decimal digits that starts there: what lies between is digits
    only, and what follows does not begin with a digit.  At or beyond
    the end of the string it returns the position unchanged. *)
Theorem endInt_digit_run s start :
  0 <= start ->
  (len s <= start -> endInt s start = start) /\
  (start <= len s ->
   exists ds,
     endInt s start = start + len ds /\
     slice s start (endInt s start) = Ok ds /\
     Forall (fun c => is_digit c = true) ds /\
     no_digit_ahead (drop (Z.to_nat (endInt s start)) s)).
Proof.
  intros H0. unfold endInt. split.
  - intros Hge. rewrite drop_ge by (unfold len in *; lia). done.
  - intros Hle.
    destruct (endInt_from_split (drop (Z.to_nat start) s) start)
      as (ds & rest & Hs & Hd & Hr & He).
    exists ds. rewrite He. split; [done|].
    assert (Hs' : s = take (Z.to_nat start) s ++ ds ++ rest)
      by (by rewrite <- Hs, take_drop).
    assert (Hl : len (take (Z.to_nat start) s) = start)
      by (unfold len in *; rewrite length_take; lia).
    split; [|split; [done|]].
    + rewrite Hs' at 1. apply slice_mid; lia.
    + rewrite Hs' at 1.
      replace (Z.to_nat (start + len ds))
        with (length (take (Z.to_nat start) s ++ ds))
        by (rewrite length_app; unfold len in *; lia).
      by rewrite app_assoc, drop_app_length.
Qed.

Lemma endInt_digit_run_witness :
  exists ds,
    endInt "?compid=1239&sort=1" 8 = 8 + len ds /\
    slice "?compid=1239&sort=1" 8 (endInt "?compid=1239&sort=1" 8) = Ok ds /\
    Forall (fun c => is_digit c = true) ds /\
    no_digit_ahead (drop (Z.to_nat (endInt "?compid=1239&sort=1" 8))
                      "?compid=1239&sort=1").
Proof.
  apply (endInt_digit_run "?compid=1239&sort=1" 8); [lia | vm_compute; discriminate].
Defined.

(** [parseNextCompKey] panics when [from] is outside the string.  From a
    position inside it, it never panics: without a [?compid=] at or after
    [from] it returns the empty key and -1; otherwise the key is the run
    of digits (possibly empty) that follows the first [?compid=] at or
    after [from], and the position returned is the end of that run,
    again inside the string. *)
Theorem parseNextCompKey_scan s from :
  (from < 0 \/ len s < from -> parseNextCompKey s from = Fail RuntimePanic) /\
  (0 <= from <= len s ->
   (¬ occurs compid_tok (drop (Z.to_nat from) s) /\
    parseNextCompKey s from = Ok ([], -1)) \/
   (exists pre key post,
      drop (Z.to_nat from) s = pre ++ compid_tok ++ key ++ post /\
      first_occurrence compid_tok pre (drop (Z.to_nat from) s) /\
      Forall (fun c => is_digit c = true) key /\ no_digit_ahead post /\
      parseNextCompKey s from
      = Ok (key, from + len pre + len compid_tok + len key) /\
      from + len pre + len compid_tok + len key <= len s)).
Proof.
  unfold parseNextCompKey, slice_from. split.
  - intros H. rewrite slice_out; [done|]. lia.
  - intros Hfrom. rewrite slice_ok by lia. cbn [mbind result_bind].
    assert (Hsub : take (Z.to_nat (len s - from)) (drop (Z.to_nat from) s)
                   = drop (Z.to_nat from) s).
    { apply take_ge. rewrite length_drop. unfold len in *. lia. }
    rewrite Hsub. fold compid_tok.
    set (sub := drop (Z.to_nat from) s) in *.
    destruct (Z.eqb_spec (strings_Index sub compid_tok) (-1)) as [Hi|Hi].
    { left. split; [by apply index_none | done]. }
    right. destruct (index_found sub compid_tok Hi)
      as (pre & post0 & Hs & Hidx & Hfirst).
    rewrite Hidx.
    remember (take (Z.to_nat from) s ++ pre ++ compid_tok) as hd eqn:Hhd.
    assert (Hwhole : s = hd ++ post0).
    { subst hd. rewrite <- !app_assoc, <- Hs. unfold sub. by rewrite take_drop. }
    assert (Hl : len pre + (from + len compid_tok) = len hd).
    { subst hd. rewrite !len_app. unfold len at 3. rewrite length_take.
      unfold len in *. lia. }
    clear Hhd Hsub. clearbody sub. subst s. rewrite Hl.
    assert (He : endInt (hd ++ post0) (len hd) = endInt_from post0 (len hd)).
    { unfold endInt. unfold len at 1. by rewrite Nat2Z.id, drop_app_length. }
    rewrite He. clear He.
    destruct (endInt_from_split post0 (len hd))
      as (key & post & -> & Hd & Hr & ->).
    exists pre, key, post. split; [done|]. split; [done|].
    split; [done|]. split; [done|].
    rewrite !len_app in *.
    pose proof (len_nonneg post).
    split; [|lia].
    rewrite (slice_mid hd key post) by lia.
    cbn [mbind result_bind]. do 2 f_equal. lia.
Qed.

Lemma parseNextCompKey_scan_witness :
  (¬ occurs compid_tok (drop (Z.to_nat 12) "a?compid=12,b?compid=7") /\
   parseNextCompKey "a?compid=12,b?compid=7" 12 = Ok ([], -1)) \/
  (exists pre key post,
     drop (Z.to_nat 12) "a?compid=12,b?compid=7"
     = pre ++ compid_tok ++ key ++ post /\
     first_occurrence compid_tok pre
       (drop (Z.to_nat 12) "a?compid=12,b?compid=7") /\
     Forall (fun c => is_digit c = true) key /\ no_digit_ahead post /\
     parseNextCompKey "a?compid=12,b?compid=7" 12
     = Ok (key, 12 + len pre + len compid_tok + len key) /\
     12 + len pre + len compid_tok + len key
     <= len "a?compid=12,b?compid=7").
Proof.
  apply (parseNextCompKey_scan "a?compid=12,b?compid=7" 12).
  split; [lia | vm_compute; discriminate].
Defined.

(** The second identifier of a line, found from where the first ended. *)
Example parseNextCompKey_again :
  parseNextCompKey "a?compid=12,b?compid=7" 12 = Ok ("7" : gostring, 22).
Proof. vm_compute. reflexivity. Qed.

(** ** Reading the listing page *)

Lemma first_occurrence_split tok pre s :
  first_occurrence tok pre s -> exists post, s = pre ++ tok ++ post.
Proof.
  intros (Hp & Ht & _). apply has_prefix_iff in Hp as [r Hr].
  exists r. rewrite <- Hr, <- Ht at 1. by rewrite take_drop.
Qed.

Lemma first_occurrence_free tok pre s :
  tok <> [] -> first_occurrence tok pre s -> ¬ occurs tok pre.
Proof.
  intros Hne (Hp & Ht & Hn) (a & b & Hpre).
  assert (Hk : (length a < length pre)%nat).
  { rewrite Hpre, !length_app. destruct tok; [done|]. cbn. lia. }
  specialize (Hn _ Hk). apply not_true_iff_false in Hn. apply Hn.
  apply has_prefix_iff. exists (b ++ drop (length pre) s).
  rewrite <- (take_drop (length pre) s) at 1. rewrite Ht, Hpre.
  rewrite <- !app_assoc. by rewrite drop_app_length.
Qed.

Lemma tokenStart_none s tok : tokenStart s tok = -1 <-> ¬ occurs tok s.
Proof.
  rewrite <- index_none. unfold tokenStart.
  destruct (Z.eqb_spec (strings_Index s tok) (-1)) as [->|Hne]; [done|].
  pose proof (index_range s tok). pose proof (len_nonneg tok). lia.
Qed.

Lemma tokenStart_after s tok :
  tokenStart s tok <> -1 ->
  exists a s1, after tok a s s1 /\ tokenStart s tok = len a + len tok.
Proof.
  unfold tokenStart.
  destruct (Z.eqb_spec (strings_Index s tok) (-1)) as [|Hne]; [done|].
  intros _. destruct (index_found s tok Hne) as (a & s1 & Hs & Hi & Hf).
  exists a, s1. by rewrite Hi.
Qed.

Lemma tokenStart_first tok a s s1 :
  after tok a s s1 -> tokenStart s tok = len a + len tok.
Proof.
  intros [_ Hf]. unfold tokenStart. rewrite (index_first _ _ _ Hf).
  pose proof (len_nonneg a). by destruct (Z.eqb_spec (len a) (-1)); [lia|].
Qed.

Lemma take_until_ok hd s terminator x rest :
  cut terminator x s rest ->
  take_until (hd ++ s) (len hd) terminator = Ok (x, rest).
Proof.
  intros [-> Hf]. unfold take_until, tokenEnd.
  rewrite slice_from_app. cbn [mbind result_bind].
  rewrite (index_first _ _ _ Hf). pose proof (len_nonneg x).
  destruct (Z.eqb_spec (len x) (-1)); [lia|].
  rewrite slice_app3. cbn [mbind result_bind].
  replace (len hd + len x) with (len (hd ++ x)) by apply len_app.
  by rewrite app_assoc, slice_from_app.
Qed.

Lemma take_until_inv compstr start terminator x rest :
  take_until compstr start terminator = Ok (x, rest) ->
  exists hd s, compstr = hd ++ s /\ len hd = start /\ cut terminator x s rest.
Proof.
  unfold take_until, tokenEnd.
  destruct (slice_from compstr start) as [sub|] eqn:Esub; [|done].
  cbn [mbind result_bind].
  unfold slice_from in Esub. apply slice_inv in Esub as (H1 & H2 & Hsub).
  rewrite take_ge in Hsub by (rewrite length_drop; unfold len in *; lia).
  assert (Hc : compstr = take (Z.to_nat start) compstr ++ sub)
    by (by rewrite Hsub, take_drop).
  assert (Hl : len (take (Z.to_nat start) compstr) = start)
    by (unfold len in *; rewrite length_take; lia).
  destruct (Z.eqb_spec (strings_Index sub terminator) (-1)) as [Hi|Hi].
  { rewrite slice_out by lia. done. }
  destruct (index_found sub terminator Hi) as (x' & post & Hs & Hidx & Hf).
  rewrite Hidx. rewrite Hc at 1. rewrite Hs at 1.
  rewrite slice_mid by lia. cbn [mbind result_bind].
  rewrite Hc at 1. rewrite Hs at 1.
  replace (start + len x')
    with (len (take (Z.to_nat start) compstr ++ x'))
    by (rewrite len_app; lia).
  rewrite app_assoc, slice_from_app. cbn [mbind result_bind].
  intros [= <- <-].
  exists (take (Z.to_nat start) compstr), sub.
  split; [done|]. split; [done|]. by split.
Qed.

Lemma take_until_fail compstr start terminator f :
  take_until compstr start terminator = Fail f -> f = RuntimePanic.
Proof.
  unfold take_until, tokenEnd, slice_from.
  repeat (match goal with
          | |- context [mbind _ (slice ?s ?lo ?hi)] =>
              let E := fresh in
              destruct (slice s lo hi) eqn:E; cbn [mbind result_bind];
              [|apply slice_fail in E; congruence]
          end).
  done.
Qed.

Lemma listing_entry_fail compstr f :
  listing_entry compstr = Fail f -> f = RuntimePanic.
Proof.
  unfold listing_entry.
  repeat (match goal with
          | |- context [mbind _ (take_until ?s ?i ?t)] =>
              let E := fresh in
              destruct (take_until s i t) as [[? ?]|] eqn:E;
              cbn [mbind result_bind];
              [|apply take_until_fail in E; congruence]
          end).
  done.
Qed.

(** One turn of the loop reads a row, and only a row. *)
Lemma listing_entry_row compstr e rest :
  listing_entry compstr = Ok (e, rest) <->
  exists id name date,
    row_of compstr id name date rest /\ e = listing_item (id, name, date).
Proof.
  unfold listing_entry. split.
  - destruct (take_until compstr _ _) as [[id r1]|] eqn:E1; [|done].
    cbn [mbind result_bind].
    destruct (take_until r1 _ _) as [[name r2]|] eqn:E2; [|done].
    cbn [mbind result_bind].
    destruct (take_until r2 _ _) as [[date r3]|] eqn:E3; [|done].
    cbn [mbind result_bind]. intros [= <- <-].
    exists id, name, date. split; [|done].
    apply take_until_inv in E1 as (h1 & s1 & Hc1 & Hl1 & Hcut1).
    apply take_until_inv in E2 as (h2 & s2 & Hc2 & Hl2 & Hcut2).
    apply take_until_inv in E3 as (h3 & s3 & Hc3 & Hl3 & Hcut3).
    destruct (tokenStart_after compstr "?compid=")
      as (a & s1' & Ha & Hs); [pose proof (len_nonneg h1); lia|].
    destruct (tokenStart_after r1 (dquote :: ">"))
      as (q & s2' & Hq & Hs2); [pose proof (len_nonneg h2); lia|].
    destruct (tokenStart_after r2 "<td>")
      as (c & s3' & Hcc & Hs3); [pose proof (len_nonneg h3); lia|].
    assert (s1' = s1) as ->.
    { destruct Ha as [Ha _]. rewrite Hc1, app_assoc in Ha.
      apply app_inj_1 in Ha as [_ ?]; [done|].
      rewrite length_app. unfold len in *. lia. }
    assert (s2' = s2) as ->.
    { destruct Hq as [Hq _]. rewrite Hc2 in Hq at 1.
      rewrite (app_assoc q) in Hq.
      apply app_inj_1 in Hq as [_ ?]; [done|].
      rewrite length_app. unfold len in *. lia. }
    assert (s3' = s3) as ->.
    { destruct Hcc as [Hcc _]. rewrite Hc3 in Hcc at 1.
      rewrite (app_assoc c) in Hcc.
      apply app_inj_1 in Hcc as [_ ?]; [done|].
      rewrite length_app. unfold len in *. lia. }
    by exists a, s1, r1, q, s2, r2, c, s3.
  - intros (id & name & date & Hrow & ->).
    destruct Hrow as (a & s1 & r1 & q & s2 & r2 & c & s3
                      & Ha & H1 & Hq & H2 & Hc & H3).
    rewrite (tokenStart_first _ _ _ _ Ha).
    destruct Ha as [-> _]. rewrite app_assoc, <- len_app.
    rewrite (take_until_ok _ _ _ _ _ H1). cbn [mbind result_bind].
    rewrite (tokenStart_first _ _ _ _ Hq).
    destruct Hq as [-> _]. rewrite app_assoc, <- len_app.
    rewrite (take_until_ok _ _ _ _ _ H2). cbn [mbind result_bind].
    rewrite (tokenStart_first _ _ _ _ Hc).
    destruct Hc as [-> _]. rewrite app_assoc, <- len_app.
    rewrite (take_until_ok _ _ _ _ _ H3). done.
Qed.

Lemma parseWebComps_loop_turn fuel compstr ret :
  parseWebComps_loop (S fuel) compstr ret
  = if tokenStart compstr "?compid=" =? -1 then Ok ret
    else '(e, rest) ← listing_entry compstr;
         parseWebComps_loop fuel rest (<[Competition.Key e := e]> ret).
Proof.
  cbn [parseWebComps_loop]. destruct (_ =? -1); [done|].
  unfold listing_entry, take_until.
  repeat (match goal with
          | |- context [mbind _ ?r] =>
              lazymatch r with
              | tokenEnd _ _ _ => destruct r
              | slice _ _ _ => destruct r
              | slice_from _ _ => destruct r
              end; cbn [mbind result_bind]; [|done]
          end).
  done.
Qed.

Lemma row_of_shorter compstr id name date rest :
  row_of compstr id name date rest -> (length rest < length compstr)%nat.
Proof.
  intros (a & s1 & r1 & q & s2 & r2 & c & s3
          & [-> _] & [-> _] & [-> _] & [-> _] & [-> _] & [-> _]).
  rewrite !length_app. cbn. lia.
Qed.

Lemma occurs_app_r tok (x s : gostring) : occurs tok s -> occurs tok (x ++ s).
Proof.
  intros (p & q & ->). exists (x ++ p), q. by rewrite <- app_assoc.
Qed.

Lemma occurs_app_l tok (s y : gostring) : occurs tok s -> occurs tok (s ++ y).
Proof.
  intros (p & q & ->). exists p, (q ++ y). by rewrite <- !app_assoc.
Qed.

Lemma occurs_here tok (y : gostring) : occurs tok (tok ++ y).
Proof. by exists [], y. Qed.

Lemma row_of_occurs compstr id name date rest :
  row_of compstr id name date rest ->
  occurs ("?compid=" ++ id ++ [dquote]) compstr /\ (dquote ∉ id) /\
  ¬ occurs "</a>" name /\ ¬ occurs "</td>" date /\
  occurs (dquote :: ">") compstr /\ occurs "</a>" compstr /\
  occurs "<td>" compstr /\ occurs "</td>" compstr /\
  exists hd, compstr = hd ++ rest.
Proof.
  intros (a & s1 & r1 & q & s2 & r2 & c & s3
          & [Hc _] & [Hs1 H1] & [Hr1 _] & [Hs2 H2] & [Hr2 _] & [Hs3 H3]).
  assert (Hid : ¬ occurs [dquote] id)
    by (eapply first_occurrence_free; [|exact H1]; done).
  assert (Hname : ¬ occurs "</a>" name)
    by (eapply first_occurrence_free; [|exact H2]; done).
  assert (Hdate : ¬ occurs "</td>" date)
    by (eapply first_occurrence_free; [|exact H3]; done).
  apply first_occurrence_split in H1 as [p1 Hp1].
  apply first_occurrence_split in H2 as [p2 Hp2].
  apply first_occurrence_split in H3 as [p3 Hp3].
  split; [|split; [|split; [done|split; [done|]]]].
  - rewrite Hc, Hp1. exists a, p1. by rewrite <- !app_assoc.
  - intros Hin. apply Hid. apply list_elem_of_split in Hin as (x & y & ->).
    by exists x, y.
  - split; [|split; [|split; [|split]]].
    + exists (a ++ "?compid=" ++ id ++ q), s2.
      rewrite Hc, Hs1, Hr1. by rewrite <- !app_assoc.
    + exists (a ++ "?compid=" ++ id ++ q ++ (dquote :: ">") ++ name), p2.
      rewrite Hc, Hs1, Hr1, Hp2. by rewrite <- !app_assoc.
    + exists (a ++ "?compid=" ++ id ++ q ++ (dquote :: ">") ++ name ++ c), s3.
      rewrite Hc, Hs1, Hr1, Hs2, Hr2. by rewrite <- !app_assoc.
    + exists (a ++ "?compid=" ++ id ++ q ++ (dquote :: ">") ++ name ++ c
              ++ "<td>" ++ date), p3.
      rewrite Hc, Hs1, Hr1, Hs2, Hr2, Hp3. by rewrite <- !app_assoc.
    + exists (a ++ "?compid=" ++ id ++ q ++ (dquote :: ">") ++ name ++ c
              ++ "<td>" ++ date).
      rewrite Hc, Hs1, Hr1, Hs2, Hr2, Hs3. by rewrite <- !app_assoc.
Qed.

Lemma parseWebComps_loop_rows fuel compstr ret m :
  parseWebComps_loop fuel compstr ret = Ok m ->
  exists rows, rows_of compstr rows /\ m = listing_fold rows ret.
Proof.
  revert compstr ret. induction fuel as [|fuel IH]; intros compstr ret; [done|].
  rewrite parseWebComps_loop_turn.
  destruct (Z.eqb_spec (tokenStart compstr "?compid=") (-1)) as [Hs|Hs].
  - intros [= <-]. exists []. split; [|done].
    constructor. by apply tokenStart_none.
  - destruct (listing_entry compstr) as [[e rest]|] eqn:E; [|done].
    cbn [mbind result_bind]. intros H.
    apply IH in H as (rows & Hrows & ->).
    apply listing_entry_row in E as (id & name & date & Hrow & ->).
    exists ((id, name, date) :: rows). split; [by econstructor | done].
Qed.

Lemma rows_of_parse fuel compstr rows ret :
  rows_of compstr rows -> (length compstr < fuel)%nat ->
  parseWebComps_loop fuel compstr ret = Ok (listing_fold rows ret).
Proof.
  intros H. revert fuel ret.
  induction H as [s Hno | s id name date rest rows Hrow _ IH];
    intros [|fuel] ret Hlt; try lia; rewrite parseWebComps_loop_turn.
  - apply tokenStart_none in Hno. by rewrite Hno.
  - pose proof (row_of_shorter _ _ _ _ _ Hrow).
    destruct (Z.eqb_spec (tokenStart s "?compid=") (-1)) as [Hs|Hs].
    { apply tokenStart_none in Hs. destruct Hs.
      destruct Hrow as (a & s1 & ? & ? & ? & ? & ? & ? & [-> _] & _).
      by exists a, s1. }
    assert (E : listing_entry s = Ok (listing_item (id, name, date), rest)).
    { apply listing_entry_row. eauto. }
    rewrite E. cbn [mbind result_bind]. apply IH. lia.
Qed.

(** [parseWebComps] returns a map exactly for a text made of rows, each
    with an identifier, a name and a date between their markers, and the
    map is the one of these rows, a later row replacing an earlier one
    with the same identifier. *)
Theorem parseWebComps_rows s m :
  parseWebComps s = Ok m <->
  exists rows, rows_of s rows /\ m = listing_fold rows ∅.
Proof.
  split.
  - apply parseWebComps_loop_rows.
  - intros (rows & Hrows & ->). apply rows_of_parse; [done | lia].
Qed.

Lemma listing_fold_nonempty rows ret :
  ret <> ∅ -> listing_fold rows ret <> ∅.
Proof.
  revert ret. induction rows as [|r rows IH]; intros ret Hne; [done|].
  apply IH. apply insert_non_empty.
Qed.

(** The map returned is empty exactly when the text holds no
    [?compid=]. *)
Theorem parseWebComps_empty s :
  parseWebComps s = Ok ∅ <-> ¬ occurs "?compid=" s.
Proof.
  split.
  - intros (rows & Hrows & Hm)%parseWebComps_loop_rows.
    destruct Hrows as [s Hno|]; [done|].
    symmetry in Hm. unfold listing_fold in Hm. cbn [fold_left] in Hm.
    apply (listing_fold_nonempty rows) in Hm; [done|].
    apply insert_non_empty.
  - intros Hno. apply (rows_of_parse _ _ []); [by constructor | lia].
Qed.

Lemma parseWebComps_loop_fail fuel compstr ret f :
  parseWebComps_loop fuel compstr ret = Fail f ->
  f = RuntimePanic \/ f = OutOfFuel.
Proof.
  revert compstr ret. induction fuel as [|fuel IH]; intros compstr ret.
  { intros [= <-]. by right. }
  rewrite parseWebComps_loop_turn. destruct (_ =? -1); [done|].
  destruct (listing_entry compstr) as [[e rest]|f'] eqn:E;
    cbn [mbind result_bind]; [apply IH|].
  intros [= <-]. left. by eapply listing_entry_fail.
Qed.

(** A text with a [?compid=] in which one of the markers of a row is
    missing makes [parseWebComps] panic (a slice out of range). *)
Theorem parseWebComps_panics s :
  occurs "?compid=" s ->
  ¬ occurs (dquote :: ">") s \/ ¬ occurs "</a>" s \/
  ¬ occurs "<td>" s \/ ¬ occurs "</td>" s ->
  parseWebComps s = Fail RuntimePanic.
Proof.
  intros Hocc Hmiss.
  destruct (parseWebComps s) as [m|f] eqn:E.
  - apply parseWebComps_loop_rows in E as (rows & Hrows & _).
    destruct Hrows as [s Hno | s id name date rest rows Hrow _]; [done|].
    apply row_of_occurs in Hrow as (_ & _ & _ & _ & ? & ? & ? & ? & _).
    tauto.
  - pose proof (parseWebComps_within s) as Hw. rewrite E in Hw.
    apply parseWebComps_loop_fail in E as [-> | ->]; [done|]. by destruct Hw.
Qed.

Lemma parseWebComps_panics_witness :
  parseWebComps ("<a href=" ++ dquote :: "competition.php?compid=100" ++
                 dquote :: ">Monthly Medal</a>")
  = Fail RuntimePanic.
Proof.
  apply parseWebComps_panics.
  - by eexists ("<a href=" ++ dquote :: "competition.php" : gostring), _.
  - right. right. left. apply index_none. vm_compute. reflexivity.
Defined.

Lemma rows_of_entries s rows ret k e :
  rows_of s rows ->
  listing_fold rows ret !! k = Some e ->
  ret !! k = Some e \/
  (e = Competition.mk k (Competition.Name e) (Competition.Date e)
         (comp_url_prefix ++ k) 0 ∅ /\
   (dquote ∉ k) /\ occurs ("?compid=" ++ k ++ [dquote]) s /\
   ¬ occurs "</a>" (Competition.Name e) /\
   ¬ occurs "</td>" (Competition.Date e)).
Proof.
  intros H. revert ret.
  induction H as [s Hno | s id name date rest rows Hrow _ IH]; intros ret;
    [by left|].
  cbn [listing_fold fold_left listing_item Competition.Key].
  intros Hk. apply IH in Hk as [Hk|Hk].
  - apply row_of_occurs in Hrow as (? & ? & ? & ? & _).
    rewrite lookup_insert in Hk.
    destruct (decide (id = k)) as [<-|]; [|by left].
    injection Hk as <-. right. by cbn.
  - right. destruct Hk as (? & ? & (x & y & Hx) & ? & ?).
    repeat split; try done.
    apply row_of_occurs in Hrow as (_ & _ & _ & _ & _ & _ & _ & _ & hd & ->).
    exists (hd ++ x), y. rewrite Hx. by rewrite <- !app_assoc.
Qed.

(** Every entry of the map that [parseWebComps] returns sits under its
    own key, which is free of double quotes and stands in the text
    between a [?compid=] and a double quote; its URL is the fixed prefix
    followed by the key, it has no players and no results, and neither
    its name nor its date holds the marker that ends it. *)
Lemma parseWebComps_entries_aux s m k e :
  parseWebComps s = Ok m -> m !! k = Some e ->
  e = Competition.mk k (Competition.Name e) (Competition.Date e)
        (comp_url_prefix ++ k) 0 ∅.
Proof.
  intros (rows & Hrows & ->)%parseWebComps_loop_rows Hk.
  by destruct (rows_of_entries _ _ _ _ _ Hrows Hk) as [?|[? _]].
Qed.

Theorem parseWebComps_entries s m k e :
  parseWebComps s = Ok m -> m !! k = Some e ->
  e = Competition.mk k (Competition.Name e) (Competition.Date e)
        (comp_url_prefix ++ k) 0 ∅ /\
  (dquote ∉ k) /\ occurs ("?compid=" ++ k ++ [dquote]) s /\
  ¬ occurs "</a>" (Competition.Name e) /\
  ¬ occurs "</td>" (Competition.Date e).
Proof.
  intros (rows & Hrows & ->)%parseWebComps_loop_rows Hk.
  by destruct (rows_of_entries _ _ _ _ _ Hrows Hk) as [?|?].
Qed.

Lemma parseWebComps_rows_witness :
  exists rows,
    rows_of live_listing rows /\
    listing_fold
      [("100" : gostring, "Monthly Medal" : gostring, "Sat 2nd April" : gostring);
       ("200" : gostring, "Spring Open" : gostring, "Sun 8th May" : gostring)] ∅
    = listing_fold rows ∅.
Proof.
  apply (parseWebComps_rows live_listing). vm_compute. reflexivity.
Defined.

Lemma parseWebComps_entries_witness :
  let e := Competition.mk "200" "Spring Open" "Sun 8th May"
             (comp_url_prefix ++ "200") 0 ∅ in
  e = Competition.mk "200" (Competition.Name e) (Competition.Date e)
        (comp_url_prefix ++ "200") 0 ∅ /\
  (dquote ∉ ("200" : gostring)) /\
  occurs ("?compid=" ++ "200" ++ [dquote]) live_listing /\
  ¬ occurs "</a>" (Competition.Name e) /\
  ¬ occurs "</td>" (Competition.Date e).
Proof.
  apply (parseWebComps_entries live_listing
           (listing_fold
              [("100" : gostring, "Monthly Medal" : gostring,
                "Sat 2nd April" : gostring);
               ("200" : gostring, "Spring Open" : gostring,
                "Sun 8th May" : gostring)] ∅));
    vm_compute; reflexivity.
Defined.

(** ** Fetching the listing *)

(** A call of [fetchAllCompsPage] that returns leaves the page it
    returns in the cache file: from the cache it changes nothing and
    fetches nothing; otherwise it fetches the listing once and writes
    it.  A call that may use the cache, made afterwards, returns the same
    page without fetching. *)
Theorem fetchAllCompsPage_again year useCached w d fromCache w' :
  fetchAllCompsPage year useCached w = (Ok (d, fromCache), w') ->
  (if fromCache
   then useCached = true /\ w' = w /\
        files w !! listing_cache_name year = Some d
   else w' = fetched_listing year d w /\
        web w (listing_url year) = Some d) /\
  fetchAllCompsPage year true w' = (Ok (d, true), w').
Proof.
  intros H.
  assert (Hcase :
    (fromCache = true /\ useCached = true /\ w' = w /\
     files w !! listing_cache_name year = Some d) \/
    (fromCache = false /\ w' = fetched_listing year d w /\
     web w (listing_url year) = Some d)).
  { revert H.
    unfold fetchAllCompsPage, ReadFile, MustFetch, WriteFile, mbind, M_bind,
      mret, M_ret.
    destruct useCached.
    - destruct (files w !! listing_cache_name year) as [d1|] eqn:E.
      + intros [= <- <- <-]. by left.
      + cbn [files web fetched]. destruct (web w (listing_url year)); [|done].
        intros [= <- <- <-]. by right.
    - cbn [files web fetched]. destruct (web w (listing_url year)); [|done].
      intros [= <- <- <-]. by right. }
  destruct Hcase as [(-> & -> & -> & Hf) | (-> & -> & Hw)].
  - split; [done|]. by apply fetchAllCompsPage_cached.
  - split; [done|]. apply fetchAllCompsPage_cached.
    unfold fetched_listing. cbn [files]. by rewrite lookup_insert_eq.
Qed.

Lemma fetchAllCompsPage_again_witness :
  (fetched_listing 2016 live_listing stale_world
   = fetched_listing 2016 live_listing stale_world /\
   web stale_world (listing_url 2016) = Some live_listing) /\
  fetchAllCompsPage 2016 true (fetched_listing 2016 live_listing stale_world)
  = (Ok (live_listing, true), fetched_listing 2016 live_listing stale_world).
Proof.
  apply (fetchAllCompsPage_again 2016 false stale_world live_listing false).
  vm_compute. reflexivity.
Defined.

Lemma range_map_perm {V} (ord : range_order) (m : gmap gostring V) :
  valid_order ord -> range_map ord m ≡ₚ map_to_list m.
Proof. intros Hord. apply Hord. Qed.

(** [FetchAllCompDesc] returns every competition of the listing once:
    the keys of the descriptors returned are pairwise distinct, a
    descriptor is returned exactly if the listing holds it under its key,
    and each has the URL made of the fixed prefix and its key (without
    the [&sort=1] that [FetchCompDescriptions] appends), no players and
    no results. *)
Theorem FetchAllCompDesc_listing ord year w l w' :
  valid_order ord ->
  FetchAllCompDesc ord year w = (Ok l, w') ->
  exists d fromCache m,
    fetchAllCompsPage year true w = (Ok (d, fromCache), w') /\
    parseWebComps d = Ok m /\
    NoDup (map Competition.Key l) /\
    (forall c, c ∈ l <-> m !! Competition.Key c = Some c) /\
    length l = size m /\
    Forall (fun c => Competition.URL c = comp_url_prefix ++ Competition.Key c /\
                     Competition.NumPlayers c = 0 /\
                     Competition.Results c = ∅) l.
Proof.
  intros Hord. unfold FetchAllCompDesc. unfold mbind at 1, M_bind at 1.
  destruct (fetchAllCompsPage year true w) as [[[d fromCache]|] w1] eqn:E;
    [|done].
  unfold mbind, M_bind, lift, mret, M_ret.
  destruct (parseWebComps d) as [m|] eqn:Ep; [|done].
  intros [= <- <-]. exists d, fromCache, m. split; [done|]. split; [done|].
  pose proof (parseWebComps_keyed d m Ep) as Hkeyed.
  pose proof (range_map_perm ord m Hord) as Hperm.
  assert (Hkeys : map Competition.Key (map snd (range_map ord m))
                  = (range_map ord m).*1).
  { rewrite map_map. apply map_ext_in. intros [k e] Hin. cbn.
    apply Hkeyed. apply (range_map_lookup ord); [done|].
    by apply list_elem_of_In. }
  split; [|split; [|split]].
  - rewrite Hkeys, Hperm. apply NoDup_fst_map_to_list.
  - intros c. split.
    + intros Hin. apply list_elem_of_fmap in Hin as ([k e] & -> & Hin).
      cbn. pose proof (range_map_lookup ord m k e Hord Hin) as Hk.
      by rewrite (Hkeyed _ _ Hk).
    + intros Hc. apply list_elem_of_fmap. exists (Competition.Key c, c).
      split; [done|]. rewrite Hperm. by apply elem_of_map_to_list.
  - rewrite length_map, Hperm. apply length_map_to_list.
  - apply Forall_forall. intros c Hin.
    apply list_elem_of_fmap in Hin as ([k e] & -> & Hin). cbn.
    pose proof (range_map_lookup ord m k e Hord Hin) as Hk.
    pose proof (parseWebComps_entries_aux d m k e Ep Hk) as He.
    rewrite He. done.
Qed.

Lemma FetchAllCompDesc_listing_witness :
  let l := [Competition.mk "100" "Monthly Medal" "Sat 2nd April"
              (comp_url_prefix ++ "100") 0 ∅] in
  exists d fromCache m,
    fetchAllCompsPage 2016 true stale_world = (Ok (d, fromCache), stale_world) /\
    parseWebComps d = Ok m /\
    NoDup (map Competition.Key l) /\
    (forall c, c ∈ l <-> m !! Competition.Key c = Some c) /\
    length l = size m /\
    Forall (fun c => Competition.URL c = comp_url_prefix ++ Competition.Key c /\
                     Competition.NumPlayers c = 0 /\
                     Competition.Results c = ∅) l.
Proof.
  apply (FetchAllCompDesc_listing identity_order 2016 stale_world);
    [apply identity_order_valid | vm_compute; reflexivity].
Defined.

(** ** Loading a competition twice *)

Lemma Load_cached_file ord comp w content :
  Competition.Key comp <> [] ->
  files w !! cache_name (Competition.Key comp) = Some content ->
  Load ord comp w = (parse_cache content, w).
Proof.
  intros Hkey Hf. unfold Load, bytes_eqb.
  rewrite bool_decide_eq_false_2 by done.
  unfold readCached, ReadFile, lift, mbind, M_bind, mret, M_ret.
  rewrite Hf. by destruct (parse_cache content).
Qed.

Lemma Load_from_web ord comp w c w' :
  files w !! cache_name (Competition.Key comp) = None ->
  Load ord comp w = (Ok c, w') ->
  exists data,
    web w (Competition.URL comp) = Some data /\
    populate_from_page comp data = Ok c /\
    w' = after_save ord c (after_fetch (Competition.URL comp) w).
Proof.
  intros Hf. unfold Load. destruct (bytes_eqb _ _); [done|].
  unfold readCached, ReadFile, populateResultsFromWeb, MustFetch, saveComp,
    WriteFile, lift, mbind, M_bind, mret, M_ret.
  rewrite Hf. cbn [files web fetched].
  destruct (web w (Competition.URL comp)) as [data|]; [|done].
  destruct (populate_from_page comp data) as [c'|] eqn:E; [|done].
  intros [= <- <-]. by exists data.
Qed.

Lemma Load_key ord comp w c w' :
  Load ord comp w = (Ok c, w') -> Competition.Key comp <> [].
Proof.
  unfold Load, bytes_eqb. destruct (decide (Competition.Key comp = [])) as [->|];
    [|done].
  by rewrite bool_decide_eq_true_2.
Qed.

(** Once [Load] has returned a competition, loading any descriptor with
    the same key gives the same competition and leaves the directory and
    the record of fetches as they are: the second time nothing is fetched
    and nothing is written.  When the first call had to fetch the page,
    this needs the competition to be one that its cache file gives back:
    fields free of commas and line feeds and without white space around
    them, lines that fit the scanner. *)
Theorem Load_again ord ord' comp comp' w c w' :
  valid_order ord ->
  Load ord comp w = (Ok c, w') ->
  (files w !! cache_name (Competition.Key comp) = None ->
   cacheable c /\ lines_fit ord c) ->
  Competition.Key comp' = Competition.Key comp ->
  Load ord' comp' w' = (Ok c, w').
Proof.
  intros Hord HL Hc Hk. pose proof (Load_key _ _ _ _ _ HL) as Hkey.
  destruct (files w !! cache_name (Competition.Key comp)) as [content|] eqn:Hf.
  - rewrite (Load_cached_file ord comp w content) in HL by done.
    injection HL as HL <-.
    rewrite (Load_cached_file ord' comp' w content) by (by rewrite Hk).
    by rewrite HL.
  - destruct Hc as [Hc Hfit]; [done|].
    destruct (Load_from_web _ _ _ _ _ Hf HL) as (data & Hw & Hp & ->).
    apply populate_from_page_key in Hp as Hck.
    rewrite (Load_cached_file ord' comp' _ (cache_text ord c)).
    + by rewrite (parse_cache_describes _ c)
        by (by apply describes_cache_text).
    + by rewrite Hk.
    + unfold after_save. cbn [files]. rewrite Hk, <- Hck.
      by rewrite lookup_insert_eq.
Qed.

Lemma loaded_competition_cacheable : cacheable loaded_competition.
Proof.
  split; try (split; [compute_done | split; [compute_done | by vm_compute]]).
  - compute_done.
  - intros name p H. unfold loaded_competition in H.
    cbn [Competition.Results] in H.
    apply lookup_insert_Some in H as [[<- <-] | [_ H]].
    { repeat split; try compute_done; by vm_compute. }
    apply lookup_insert_Some in H as [[<- <-] | [_ H]].
    { repeat split; try compute_done; by vm_compute. }
    apply lookup_insert_Some in H as [[<- <-] | [_ H]].
    { repeat split; try compute_done; by vm_compute. }
    by rewrite lookup_empty in H.
Qed.

Lemma Load_again_witness :
  Load reverse_order (new_competition "5462") loaded_world
  = (Ok loaded_competition, loaded_world).
Proof.
  apply (Load_again identity_order reverse_order
           (Competition.mk "5462" [] []
              "http://club/competition.php?compid=5462" 0 ∅)
           (new_competition "5462") uncached_world).
  - apply identity_order_valid.
  - vm_compute. reflexivity.
  - intros _. split; [apply loaded_competition_cacheable | compute_done].
  - reflexivity.
Defined.

(** ** Pages without players *)

Lemma Scan_marker_absent marker input tok :
  strings_Index (take (Z.to_nat MaxScanTokenSize) input) marker = -1 ->
  input <> [] -> len input < MaxScanTokenSize ->
  Scan (marker_split marker) (scanner_at input tok)
  = (true, scanner_at [] input).
Proof.
  intros Hi Hne Hlen. unfold Scan, marker_split, scanner_at.
  cbn [sc_input sc_err sc_token].
  assert (Hw : take (Z.to_nat MaxScanTokenSize) input = input)
    by (apply take_ge; unfold len in Hlen; lia).
  rewrite Hw in *. clear Hw.
  destruct (Z.ltb_spec (len input) MaxScanTokenSize) as [_|]; [|lia].
  cbn [bool_decide orb andb]. rewrite Hi.
  replace (bool_decide (is_Some (@None scan_error))) with false
    by (symmetry; apply bool_decide_eq_false; by intros [? ?]).
  cbn [orb andb].
  assert (0 < len input) by (unfold len; destruct input; [done | cbn; lia]).
  destruct (Z.eqb_spec (len input) 0); [lia|].
  destruct (Z.leb_spec 0 (-1)); [lia|].
  destruct (Z.ltb_spec (len input) 0); [lia|].
  destruct (Z.ltb_spec (len input) (len input)); [lia|].
  unfold len. rewrite Nat2Z.id, drop_all. done.
Qed.

Lemma Scan_marker_end marker tok :
  Scan (marker_split marker) (scanner_at [] tok) = (false, scanner_at [] []).
Proof.
  unfold Scan, marker_split, scanner_at. cbn [sc_input sc_err sc_token].
  rewrite take_nil. reflexivity.
Qed.

Lemma Scan_marker_too_long marker input tok :
  strings_Index (take (Z.to_nat MaxScanTokenSize) input) marker = -1 ->
  MaxScanTokenSize <= len input ->
  fst (Scan (marker_split marker) (scanner_at input tok)) = false.
Proof.
  intros Hi Hlen. unfold Scan, marker_split, scanner_at.
  cbn [sc_input sc_err sc_token]. rewrite Hi.
  destruct (Z.ltb_spec (len input) MaxScanTokenSize) as [|_]; [lia|].
  replace (bool_decide (is_Some (@None scan_error))) with false
    by (symmetry; apply bool_decide_eq_false; by intros [? ?]).
  cbn [orb andb].
  destruct (Z.leb_spec 0 (-1)); [lia|].
  pose proof (len_nonneg (take (Z.to_nat MaxScanTokenSize) input)).
  destruct (Z.ltb_spec (len (take (Z.to_nat MaxScanTokenSize) input)) 0);
    [lia|].
  done.
Qed.

Lemma tokens_marker_absent marker data :
  strings_Index (take (Z.to_nat MaxScanTokenSize) data) marker = -1 ->
  exists toks sc,
    scan_all (marker_split marker) (NewScanner data) = Some (toks, sc) /\
    (length toks <= 1)%nat.
Proof.
  intros Hi. change (NewScanner data) with (scanner_at data []).
  unfold scan_all. cbn [sc_input scanner_at].
  destruct (Z.ltb_spec (len data) MaxScanTokenSize) as [Hlt|Hge].
  - destruct data as [|c data].
    + cbn [length scan_loop]. rewrite Scan_marker_end.
      eexists _, _. split; [done|]. cbn. lia.
    + remember (c :: data) as input eqn:Hin.
      assert (input <> []) by (by subst).
      assert (exists fuel, S (length input) = S (S fuel)) as [fuel ->]
        by (subst; cbn; eauto).
      cbn [scan_loop]. rewrite Scan_marker_absent by done.
      rewrite Scan_marker_end. eexists _, _. split; [done|]. cbn. lia.
  - cbn [scan_loop].
    pose proof (Scan_marker_too_long marker data [] Hi Hge) as Hs.
    destruct (Scan _ _) as [b sc]. cbn in Hs. subst b.
    eexists _, _. split; [done|]. cbn. lia.
Qed.

(** A page that does not hold the marker of its layout within the first
    [MaxScanTokenSize] bytes (a page without players, or a page whose
    first player comes later than the scanner's buffer reaches) gives a
    competition with no players and no results, and no error: the
    scanner's error is not looked at. *)
Theorem populate_no_marker comp data :
  ¬ occurs (page_marker data) (take (Z.to_nat MaxScanTokenSize) data) ->
  populate_from_page comp data
  = Ok (Competition.mk (Competition.Key comp) (Competition.Name comp)
          (Competition.Date comp) (Competition.URL comp) 0 ∅).
Proof.
  intros Hno. apply index_none in Hno.
  unfold populate_from_page, page_tokens, page_marker in *.
  unfold compSplitFunc, champSplitFunc.
  destruct (is_standard data);
    destruct (tokens_marker_absent _ _ Hno) as (toks & sc & -> & Hlen);
    cbn [fmap option_fmap option_map fst];
    destruct toks as [|t [|? ?]]; cbn in Hlen; try lia; reflexivity.
Qed.

Lemma populate_no_marker_witness :
  populate_from_page (new_competition "77") "<html>no results yet</html>"
  = Ok (Competition.mk "77" [] [] [] 0 ∅).
Proof.
  apply (populate_no_marker (new_competition "77")).
  apply index_none. vm_compute. reflexivity.
Defined.

(** ** Cache files that are too short *)

Lemma Scan_scanned tok ls :
  Forall fits ls ->
  snd (Scan ScanLines (scanner_at (unlines ls) tok)) = scanned ls.
Proof.
  intros Hfit. destruct Hfit as [|l ls Hl _].
  - unfold unlines. cbn [map concat]. by rewrite Scan_end.
  - by rewrite unlines_cons, Scan_line.
Qed.

Lemma Scan_scanned_next l ls :
  Forall fits ls -> snd (Scan ScanLines (scanned (l :: ls))) = scanned ls.
Proof. apply Scan_scanned. Qed.

Lemma Scan_scanned_nil : snd (Scan ScanLines (scanned [])) = scanned [].
Proof. apply (Scan_scanned [] []). constructor. Qed.

Lemma skip_comments_scanned fuel comments rest :
  Forall fits (comments ++ rest) ->
  Forall (fun l => comment_line (dropCR l)) comments ->
  skip_comments (length comments + fuel) (scanned (comments ++ rest))
  = skip_comments fuel (scanned rest).
Proof.
  induction comments as [|c0 comments IH]; intros Hfit Hc; [done|].
  cbn [length Nat.add app]. cbn [skip_comments scanned Text sc_token scanner_at].
  apply Forall_cons in Hc as [(r & ->) Hc].
  apply Forall_cons in Hfit as [_ Hfit].
  rewrite slice_head. cbn [mbind result_bind].
  unfold bytes_eqb. rewrite bool_decide_eq_true_2 by done.
  rewrite Scan_scanned by done. by apply IH.
Qed.

Lemma field_fail line i f : field line i = Fail f -> f = RuntimePanic.
Proof.
  unfold field, index_at. destruct (_ !! i); cbn; [done|]. congruence.
Qed.

Lemma field_nil : field [] 1 = Fail RuntimePanic.
Proof. reflexivity. Qed.

(** A cache file that ends before its fifth line after the comments (the
    number of players), or whose first line after the comments is empty
    however many lines follow it, makes [readCached] panic; so does an
    empty file and a file of comments only.  The loop over the comment
    lines ends in each of these cases. *)
Theorem parse_cache_short comments fields :
  Forall fits (comments ++ fields) ->
  Forall (fun l => comment_line (dropCR l)) comments ->
  (forall f rest, fields = f :: rest -> ¬ comment_line (dropCR f)) ->
  (length fields < 5)%nat \/
  (exists f rest, fields = f :: rest /\ dropCR f = []) ->
  parse_cache (unlines (comments ++ fields)) = Fail RuntimePanic.
Proof.
  intros Hfit Hc Hfirst Hcase. unfold parse_cache.
  change (NewScanner ?x) with (scanner_at x []).
  rewrite Scan_scanned by done.
  pose proof (unlines_length (comments ++ fields)) as Hl.
  rewrite length_app in Hl.
  replace (S (S (length (unlines (comments ++ fields)))))
    with (length comments
          + S (S (length (unlines (comments ++ fields)) - length comments)))%nat
    by lia.
  rewrite skip_comments_scanned by done.
  apply Forall_app in Hfit as [_ Hfit].
  cbn [skip_comments].
  destruct fields as [|f1 fields].
  { reflexivity. }
  cbn [scanned Text sc_token scanner_at].
  destruct (dropCR f1) as [|c r] eqn:E1; [reflexivity|].
  destruct Hcase as [Hlen | (f & rest & [= <- <-] & Hf)];
    [|by rewrite E1 in Hf].
  rewrite slice_head. cbn [mbind result_bind].
  unfold bytes_eqb at 1. rewrite bool_decide_eq_false_2.
  2:{ intros [= ->]. eapply Hfirst; [done|]. rewrite E1. by exists r. }
  cbn [mbind result_bind Text sc_token].
  apply Forall_cons in Hfit as [_ Hfit].
  repeat
    (match goal with
     | |- context [field ?l 1] =>
         let E := fresh "E" in
         destruct (field l 1) as [?|?] eqn:E; cbn [mbind result_bind];
         [|apply field_fail in E; by subst]
     end;
     rewrite Scan_scanned by done;
     destruct fields as [|? fields];
     [reflexivity|];
     apply Forall_cons in Hfit as [_ Hfit];
     cbn [scanned Text sc_token scanner_at]).
  cbn in Hlen. lia.
Qed.

Lemma parse_cache_short_witness :
  parse_cache
    (unlines ["# entered by hand" : gostring; "key, 5462" : gostring;
              "name, Monthly Medal" : gostring])
  = Fail RuntimePanic /\
  parse_cache
    (unlines ["# entered by hand" : gostring; "" : gostring;
              "key, 5462" : gostring; "name, Monthly Medal" : gostring;
              "date, Sat 2nd April" : gostring; "url, http://club/5462" : gostring;
              "number of players, 0" : gostring; header_row])
  = Fail RuntimePanic.
Proof.
  split.
  - apply (parse_cache_short ["# entered by hand" : gostring]
             ["key, 5462" : gostring; "name, Monthly Medal" : gostring]).
    + repeat constructor; try compute_done; by vm_compute.
    + repeat constructor. by eexists.
    + intros f rest [= <- <-] [r Hr]. vm_compute in Hr. discriminate Hr.
    + left. cbn. lia.
  - apply (parse_cache_short ["# entered by hand" : gostring]
             ["" : gostring;
              "key, 5462" : gostring; "name, Monthly Medal" : gostring;
              "date, Sat 2nd April" : gostring; "url, http://club/5462" : gostring;
              "number of players, 0" : gostring; header_row]).
    + repeat constructor; try compute_done; by vm_compute.
    + repeat constructor. by eexists.
    + intros f rest [= <- <-] [r Hr]. vm_compute in Hr. discriminate Hr.
    + right. by eexists _, _.
Defined.

(** ** Adding up the points *)

Lemma wrap_int_add a b : wrap_int (wrap_int a + b) = wrap_int (a + b).
Proof.
  unfold wrap_int. f_equal.
  replace ((a + 2 ^ 63) mod 2 ^ 64 - 2 ^ 63 + b + 2 ^ 63)
    with ((a + 2 ^ 63) mod 2 ^ 64 + b) by lia.
  rewrite Zplus_mod_idemp_l. f_equal. lia.
Qed.

Lemma wrap_int_small z : - 2 ^ 63 <= z < 2 ^ 63 -> wrap_int z = z.
Proof. intros H. unfold wrap_int. rewrite Z.mod_small; lia. Qed.


Lemma add_result_lookup compKey acc name r name' :
  add_result compKey acc (name, r) !! name'
  = if decide (name = name')
    then Some (with_result compKey name (acc !! name) r)
    else acc !! name'.
Proof.
  unfold add_result, with_result. rewrite lookup_insert.
  destruct (decide (name = name')) as [<-|]; [|done].
  by destruct (acc !! name).
Qed.

Lemma fold_add_result compKey l acc name :
  NoDup l.*1 ->
  (forall r, (name, r) ∈ l ->
     fold_left (add_result compKey) l acc !! name
     = Some (with_result compKey name (acc !! name) r)) /\
  (name ∉ l.*1 -> fold_left (add_result compKey) l acc !! name = acc !! name).
Proof.
  revert acc. induction l as [|[n r0] l IH]; intros acc Hnd.
  { split; [intros r Hr; by apply elem_of_nil in Hr | done]. }
  cbn [fmap list_fmap fst] in Hnd. apply NoDup_cons in Hnd as [Hn Hnd].
  cbn [fold_left].
  destruct (IH (add_result compKey acc (n, r0)) Hnd) as [IH1 IH2].
  split.
  - intros r Hr. apply elem_of_cons in Hr as [[= -> ->] | Hr].
    + rewrite IH2 by done. rewrite add_result_lookup.
      by destruct (decide (n = n)).
    + assert (name <> n).
      { intros ->. apply Hn. apply list_elem_of_fmap. by exists (n, r). }
      rewrite (IH1 r Hr), add_result_lookup.
      by destruct (decide (n = name)) as [->|].
  - intros Hnot. cbn [fmap list_fmap fst] in Hnot.
    apply not_elem_of_cons in Hnot as [Hne Hnot].
    rewrite IH2 by done. rewrite add_result_lookup.
    by destruct (decide (n = name)) as [->|].
Qed.

Lemma competition_fold ord comp acc name :
  valid_order ord ->
  fold_left (add_result (Competition.Key comp))
            (range_map ord (Competition.Results comp)) acc !! name
  = match Competition.Results comp !! name with
    | Some r => Some (with_result (Competition.Key comp) name (acc !! name) r)
    | None => acc !! name
    end.
Proof.
  intros Hord.
  assert (Hnd : NoDup (range_map ord (Competition.Results comp)).*1).
  { unfold range_map. rewrite (Hord _ _). apply NoDup_fst_map_to_list. }
  destruct (fold_add_result (Competition.Key comp) _ acc name Hnd) as [H1 H2].
  destruct (Competition.Results comp !! name) as [r|] eqn:E.
  - apply H1. unfold range_map. rewrite (Hord _ _).
    by apply elem_of_map_to_list.
  - apply H2. intros Hin. apply list_elem_of_fmap in Hin as ([k r] & -> & Hin).
    apply (range_map_lookup ord) in Hin; [|done]. cbn in E. congruence.
Qed.

Lemma populate_fold ord comps acc name :
  valid_order ord ->
  fold_left
    (fun OOMResults comp =>
       fold_left (add_result (Competition.Key comp))
                 (range_map ord (Competition.Results comp)) OOMResults)
    comps acc !! name
  = fold_left (fun o kr => Some (with_result (fst kr) name o (snd kr)))
              (results_of name comps) (acc !! name).
Proof.
  intros Hord. revert acc. induction comps as [|comp comps IH]; intros acc;
    [done|].
  cbn [fold_left]. rewrite IH, competition_fold by done.
  unfold results_of. cbn [omap list_omap].
  by destruct (Competition.Results comp !! name).
Qed.

Lemma sum_points_snoc rs kr :
  sum_points (rs ++ [kr]) = sum_points rs + PlayerResult.OOMPoints (snd kr).
Proof.
  induction rs as [|x rs IH]; cbn; [lia|]. unfold sum_points in IH.
  rewrite IH. lia.
Qed.

Lemma results_fold name o rs :
  rs <> [] ->
  fold_left (fun o kr => Some (with_result (fst kr) name o (snd kr))) rs o
  = Some (after_results name (default (PlayerOOM.mk name 0 0 0 ∅) o) rs).
Proof.
  induction rs as [|kr rs IH] using rev_ind; [done|]. intros _.
  rewrite fold_left_app. cbn [fold_left].
  destruct rs as [|kr0 rs0].
  - cbn [fold_left]. unfold with_result, after_results. cbn [fold_left length].
    f_equal; f_equal; try done; f_equal; cbn; lia.
  - rewrite IH by done. unfold with_result at 1.
    cbn [default from_option id].
    generalize (default (PlayerOOM.mk name 0 0 0 ∅) o) as p0. intros p0.
    unfold after_results.
    cbn [PlayerOOM.Name PlayerOOM.Rank PlayerOOM.OOMPoints
         PlayerOOM.NumCompetitions PlayerOOM.PlayerByComp].
    rewrite !wrap_int_add, sum_points_snoc, fold_left_app, length_app.
    cbn [fold_left length]. f_equal; f_equal; try done; f_equal; lia.
Qed.

Lemma by_comp_fold (name k : gostring)
    (rs : list (gostring * PlayerResult.t))
    (m : gmap gostring PlayerResult.t) :
  fold_left
    (fun m kr => <[fst kr := PlayerResult.mk name
                               (PlayerResult.OOMPoints (snd kr))
                               (PlayerResult.Rank (snd kr))
                               (PlayerResult.Result (snd kr))]> m)
    rs m !! k
  = match by_comp name k rs with
    | Some r => Some r
    | None => m !! k
    end.
Proof.
  unfold by_comp.
  induction rs as [|kr rs IH] using rev_ind; [done|].
  rewrite fold_left_app. cbn [fold_left]. rewrite lookup_insert.
  rewrite filter_app, filter_cons, filter_nil.
  destruct (decide (fst kr = k)) as [Hk|Hk].
  - by rewrite last_snoc.
  - by rewrite app_nil_r.
Qed.

Lemma populateOOM_entry ord comps name :
  valid_order ord ->
  (results_of name comps = [] ->
   populateOOMWithCompetitions ord comps !! name = None) /\
  (results_of name comps <> [] ->
   exists p,
     populateOOMWithCompetitions ord comps !! name = Some p /\
     PlayerOOM.Name p = name /\ PlayerOOM.Rank p = 0 /\
     PlayerOOM.OOMPoints p = wrap_int (sum_points (results_of name comps)) /\
     PlayerOOM.NumCompetitions p
     = wrap_int (Z.of_nat (length (results_of name comps))) /\
     forall k,
       PlayerOOM.PlayerByComp p !! k = by_comp name k (results_of name comps)).
Proof.
  intros Hord. unfold populateOOMWithCompetitions.
  rewrite populate_fold by done. rewrite lookup_empty. split.
  - by intros ->.
  - intros Hne. rewrite results_fold by done. eexists. split; [done|].
    cbn [default after_results PlayerOOM.Name PlayerOOM.Rank
         PlayerOOM.OOMPoints PlayerOOM.NumCompetitions
         PlayerOOM.PlayerByComp].
    repeat split.
    intros k. rewrite by_comp_fold, lookup_empty.
    by destruct (by_comp name k _).
Qed.

(** For every player, whatever the order in which the runtime ranges
    over the maps: a player without results has no entry; a player with
    results has one entry, under the name, whose points are the sum of
    the player's points over the competitions, whose number of
    competitions is the number of competitions that list the player
    (both as 64-bit integers), whose rank is still 0, and which holds,
    under each competition key, the player's result in the last
    competition with that key. *)
Theorem populateOOM_totals ord comps name :
  valid_order ord ->
  (results_of name comps = [] ->
   populateOOMWithCompetitions ord comps !! name = None) /\
  (results_of name comps <> [] ->
   exists p,
     populateOOMWithCompetitions ord comps !! name = Some p /\
     PlayerOOM.Name p = name /\ PlayerOOM.Rank p = 0 /\
     PlayerOOM.OOMPoints p = wrap_int (sum_points (results_of name comps)) /\
     PlayerOOM.NumCompetitions p
     = wrap_int (Z.of_nat (length (results_of name comps))) /\
     forall k,
       PlayerOOM.PlayerByComp p !! k = by_comp name k (results_of name comps)).
Proof. intros. by apply populateOOM_entry. Qed.

Lemma populateOOM_totals_witness :
  exists p,
    populateOOMWithCompetitions reverse_order season_example
      !! ("Alice" : gostring) = Some p /\
    PlayerOOM.Name p = ("Alice" : gostring) /\ PlayerOOM.Rank p = 0 /\
    PlayerOOM.OOMPoints p
    = wrap_int (sum_points (results_of "Alice" season_example)) /\
    PlayerOOM.NumCompetitions p
    = wrap_int (Z.of_nat (length (results_of "Alice" season_example))) /\
    forall k,
      PlayerOOM.PlayerByComp p !! k
      = by_comp "Alice" k (results_of "Alice" season_example).
Proof.
  apply (populateOOM_totals reverse_order season_example "Alice").
  - apply reverse_order_valid.
  - vm_compute. discriminate.
Defined.

(** Alice has 2 points in the first competition and 1 in the second. *)
Example alice_total :
  PlayerOOM.OOMPoints
    <$> populateOOMWithCompetitions identity_order season_example
          !! ("Alice" : gostring)
  = Some 3.
Proof. vm_compute. reflexivity. Qed.

(** ** Ranking the players *)

Lemma set_rank_lookup m n name name' :
  set_rank m n name !! name'
  = if decide (name = name')
    then Some (ranked (default (PlayerOOM.mk [] 0 0 0 ∅) (m !! name))
                      (1 + Z.of_nat n))
    else m !! name'.
Proof. unfold set_rank. rewrite lookup_insert. by destruct (decide _). Qed.

Lemma assign_ranks_lookup n names m name :
  NoDup names ->
  (forall i, names !! i = Some name ->
     assign_ranks n names m !! name
     = Some (ranked (default (PlayerOOM.mk [] 0 0 0 ∅) (m !! name))
                    (1 + Z.of_nat (n + i)))) /\
  (name ∉ names -> assign_ranks n names m !! name = m !! name).
Proof.
  revert n m. induction names as [|x names IH]; intros n m Hnd.
  { split; [intros i Hi; by rewrite lookup_nil in Hi | done]. }
  apply NoDup_cons in Hnd as [Hx Hnd]. cbn [assign_ranks].
  destruct (IH (S n) (set_rank m n x) Hnd) as [IH1 IH2].
  split.
  - intros [|i] Hi; cbn in Hi.
    + injection Hi as ->. rewrite IH2 by done.
      rewrite set_rank_lookup. destruct (decide (name = name)); [|done].
      do 3 f_equal. lia.
    + assert (x <> name).
      { intros ->. apply Hx. by eapply list_elem_of_lookup_2. }
      rewrite (IH1 i Hi), set_rank_lookup.
      destruct (decide (x = name)); [done|]. do 3 f_equal. lia.
  - intros Hnot. apply not_elem_of_cons in Hnot as [Hne Hnot].
    rewrite IH2 by done. rewrite set_rank_lookup.
    by destruct (decide (x = name)) as [->|].
Qed.

Lemma StronglySorted_lookup_le {A} (R : relation A) l i j x y :
  StronglySorted R l -> (i < j)%nat ->
  l !! i = Some x -> l !! j = Some y -> R x y.
Proof.
  intros Hs. revert i j. induction Hs as [|a l Hs IH Hall]; intros i j Hij Hi Hj.
  { by rewrite lookup_nil in Hi. }
  destruct j as [|j]; [lia|]. cbn in Hj.
  destruct i as [|i].
  - injection Hi as ->. rewrite Forall_forall in Hall. apply Hall.
    by eapply list_elem_of_lookup_2.
  - cbn in Hi. apply (IH i j); [lia | done..].
Qed.

Lemma calculateOOMRank_spec ord srt OOMResults :
  valid_order ord -> sorts_descending srt ->
  let '(rankedPlayers, results) := calculateOOMRank ord srt OOMResults in
  rankedPlayers ≡ₚ (map_to_list OOMResults).*1 /\
  NoDup rankedPlayers /\
  length rankedPlayers = size OOMResults /\
  (forall i name,
     rankedPlayers !! i = Some name ->
     exists p, OOMResults !! name = Some p /\
               results !! name = Some (ranked p (Z.of_nat i + 1))) /\
  (forall name, OOMResults !! name = None -> results !! name = None) /\
  (forall i j n1 n2 p1 p2,
     (i < j)%nat ->
     rankedPlayers !! i = Some n1 -> rankedPlayers !! j = Some n2 ->
     OOMResults !! n1 = Some p1 -> OOMResults !! n2 = Some p2 ->
     PlayerOOM.OOMPoints p2 <= PlayerOOM.OOMPoints p1).
Proof.
  intros Hord Hsrt. unfold calculateOOMRank.
  set (f := fun kv : gostring * PlayerOOM.t =>
              (fst kv, PlayerOOM.OOMPoints (snd kv))).
  destruct (Hsrt (map f (range_map ord OOMResults))) as [Hperm Hsorted].
  set (rs := srt (map f (range_map ord OOMResults))) in *.
  assert (Hrs : rs ≡ₚ map f (map_to_list OOMResults)).
  { rewrite Hperm. unfold range_map. by rewrite (Hord _ _). }
  assert (Hnames : map fst rs ≡ₚ (map_to_list OOMResults).*1).
  { rewrite Hrs, map_map. done. }
  assert (Hnd : NoDup (map fst rs)).
  { rewrite Hnames. apply NoDup_fst_map_to_list. }
  assert (Hin : forall name pts, (name, pts) ∈ rs ->
            exists p, OOMResults !! name = Some p /\
                      pts = PlayerOOM.OOMPoints p).
  { intros name pts H. rewrite Hrs in H.
    apply list_elem_of_fmap in H as ([k p] & [= -> ->] & H).
    apply elem_of_map_to_list in H. eauto. }
  split; [done|]. split; [done|]. split.
  { rewrite Hnames, length_fmap. apply length_map_to_list. }
  split; [|split].
  - intros i name Hi.
    destruct (assign_ranks_lookup 0 (map fst rs) OOMResults name Hnd)
      as [H1 _].
    rewrite (H1 i Hi).
    apply list_lookup_fmap_Some in Hi as ([n pts] & -> & Hi).
    apply list_elem_of_lookup_2 in Hi.
    destruct (Hin _ _ Hi) as (p & Hp & _). exists p. split; [done|].
    cbn [fst]. rewrite Hp. cbn. do 2 f_equal. lia.
  - intros name Hnone.
    destruct (assign_ranks_lookup 0 (map fst rs) OOMResults name Hnd)
      as [_ H2].
    rewrite H2; [done|]. rewrite Hnames. intros H.
    apply list_elem_of_fmap in H as ([k p] & -> & H).
    apply elem_of_map_to_list in H. cbn in Hnone. congruence.
  - intros i j n1 n2 p1 p2 Hij Hi Hj Hp1 Hp2.
    apply list_lookup_fmap_Some in Hi as ([x1 pts1] & -> & Hi).
    apply list_lookup_fmap_Some in Hj as ([x2 pts2] & -> & Hj).
    pose proof (StronglySorted_lookup_le _ _ _ _ _ _ Hsorted Hij Hi Hj) as Hle.
    apply list_elem_of_lookup_2 in Hi, Hj.
    destruct (Hin _ _ Hi) as (q1 & Hq1 & ->).
    destruct (Hin _ _ Hj) as (q2 & Hq2 & ->).
    cbn in *. congruence.
Qed.

(** With a [sort.Sort] that keeps its promise, whatever the order in
    which the runtime ranges over the map: every player is ranked
    exactly once; the player at position [i] of [RankedPlayers] gets the
    rank [i + 1] and is otherwise unchanged, so the ranks are 1, 2, ...
    without gaps and without ties; nobody else gets an entry; and a
    player ranked before another has at least as many points. *)
Theorem calculateOOMRank_ranks ord srt OOMResults :
  valid_order ord -> sorts_descending srt ->
  let '(rankedPlayers, results) := calculateOOMRank ord srt OOMResults in
  rankedPlayers ≡ₚ (map_to_list OOMResults).*1 /\
  NoDup rankedPlayers /\
  length rankedPlayers = size OOMResults /\
  (forall i name,
     rankedPlayers !! i = Some name ->
     exists p, OOMResults !! name = Some p /\
               results !! name = Some (ranked p (Z.of_nat i + 1))) /\
  (forall name, OOMResults !! name = None -> results !! name = None) /\
  (forall i j n1 n2 p1 p2,
     (i < j)%nat ->
     rankedPlayers !! i = Some n1 -> rankedPlayers !! j = Some n2 ->
     OOMResults !! n1 = Some p1 -> OOMResults !! n2 = Some p2 ->
     PlayerOOM.OOMPoints p2 <= PlayerOOM.OOMPoints p1).
Proof. intros. by apply calculateOOMRank_spec. Qed.

Lemma example_sort_descending : sorts_descending example_sort.
Proof.
  intros l. unfold example_sort. split; [apply merge_sort_Permutation|].
  apply StronglySorted_merge_sort.
  - intros a b c Hab Hbc. cbn in *. lia.
  - intros a b. cbn. lia.
Qed.

Lemma calculateOOMRank_ranks_witness :
  let '(rankedPlayers, results) :=
    calculateOOMRank identity_order example_sort three_players in
  rankedPlayers ≡ₚ (map_to_list three_players).*1 /\
  NoDup rankedPlayers /\
  length rankedPlayers = size three_players /\
  (forall i name,
     rankedPlayers !! i = Some name ->
     exists p, three_players !! name = Some p /\
               results !! name = Some (ranked p (Z.of_nat i + 1))) /\
  (forall name, three_players !! name = None -> results !! name = None) /\
  (forall i j n1 n2 p1 p2,
     (i < j)%nat ->
     rankedPlayers !! i = Some n1 -> rankedPlayers !! j = Some n2 ->
     three_players !! n1 = Some p1 -> three_players !! n2 = Some p2 ->
     PlayerOOM.OOMPoints p2 <= PlayerOOM.OOMPoints p1).
Proof.
  apply (calculateOOMRank_ranks identity_order example_sort three_players).
  - apply identity_order_valid.
  - apply example_sort_descending.
Defined.

(** Two players level on points get different ranks. *)
Example level_players_ranked :
  PlayerOOM.Rank <$> (snd (calculateOOMRank identity_order example_sort
                             three_players) !! ("Alice" : gostring))
  <> PlayerOOM.Rank <$> (snd (calculateOOMRank identity_order example_sort
                                three_players) !! ("Bob" : gostring)).
Proof. vm_compute. discriminate. Qed.

(** ** Formatting a result *)

Lemma digits_fuel_last f m :
  0 <= m -> last (digits_fuel (S f) m) = Some (digit_char (m mod 10)).
Proof.
  intros Hm. cbn [digits_fuel]. destruct (Z.ltb_spec m 10).
  - cbn. by rewrite Z.mod_small by lia.
  - by rewrite last_snoc.
Qed.

Lemma format_int_last n :
  exists body, format_int n = body ++ [digit_char (Z.abs n mod 10)].
Proof.
  assert (H : forall m, 0 <= m ->
            exists body, format_uint m = body ++ [digit_char (m mod 10)]).
  { intros m Hm. unfold format_uint.
    pose proof (digits_fuel_last (Z.to_nat (Z.log2 m)) m Hm) as Hl.
    destruct (digits_fuel _ m) as [|c r] using rev_ind; [done|].
    rewrite last_snoc in Hl. injection Hl as ->. eauto. }
  unfold format_int. destruct (Z.ltb_spec n 0).
  - destruct (H (- n)) as [body Hb]; [lia|]. rewrite Hb.
    exists ("-"%char :: body). replace (Z.abs n) with (- n) by lia. done.
  - destruct (H n) as [body Hb]; [lia|]. rewrite Hb.
    exists body. replace (Z.abs n) with n by lia. done.
Qed.

Lemma digit_char_eqb d (k : Z) :
  0 <= d < 10 -> 0 <= k < 10 ->
  bytes_eqb [digit_char d] [digit_char k] = (d =? k).
Proof.
  intros Hd Hk.
  assert (d = 0 \/ d = 1 \/ d = 2 \/ d = 3 \/ d = 4 \/ d = 5 \/ d = 6 \/
          d = 7 \/ d = 8 \/ d = 9) as H by lia.
  assert (k = 0 \/ k = 1 \/ k = 2 \/ k = 3 \/ k = 4 \/ k = 5 \/ k = 6 \/
          k = 7 \/ k = 8 \/ k = 9) as H' by lia.
  repeat destruct H as [-> | H]; try subst d;
    repeat destruct H' as [-> | H']; try subst k; by vm_compute.
Qed.

Lemma formatPlayerResult_ok flagDetail p :
  formatPlayerResult flagDetail p = Ok (formatted flagDetail p).
Proof.
  unfold formatPlayerResult, formatted. destruct flagDetail; [|done].
  rewrite bool_decide_eq_false_2 by done.
  destruct (format_int_last (PlayerResult.Rank p)) as [body Hb].
  set (d := Z.abs (PlayerResult.Rank p) mod 10) in *.
  assert (Hd : 0 <= d < 10) by (apply Z.mod_pos_bound; lia).
  rewrite Hb at 1 2.
  replace (len (body ++ [digit_char d]) - 1) with (len body)
    by (rewrite len_app; unfold len; cbn; lia).
  rewrite slice_from_app. cbn [mbind result_bind].
  change (list_ascii_of_string "1") with [digit_char 1].
  change (list_ascii_of_string "2") with [digit_char 2].
  change (list_ascii_of_string "3") with [digit_char 3].
  rewrite !digit_char_eqb by lia.
  unfold rank_ending. fold d.
  destruct ((10 <? PlayerResult.Rank p) && (PlayerResult.Rank p <? 20));
    [done|].
  destruct (Z.eqb_spec d 1) as [->|]; [done|].
  destruct (Z.eqb_spec d 2) as [->|]; [done|].
  by destruct (Z.eqb_spec d 3) as [->|].
Qed.

(** [formatPlayerResult] never panics.  Without [-detail] it prints the
    points.  With [-detail] it prints the points, then in brackets the
    rank with its ending and the result; the ending goes by the last
    digit of the rank ([st], [nd], [rd] for 1, 2, 3, otherwise [th]),
    except that the ranks 11 to 19 get [th]; the ranks 111, 112 and 113
    are outside that exception and get [st], [nd] and [rd]. *)
Theorem formatPlayerResult_detail flagDetail p :
  formatPlayerResult flagDetail p
  = Ok (if flagDetail
        then format_int (PlayerResult.OOMPoints p) ++ " (" ++
             format_int (PlayerResult.Rank p) ++
             rank_ending (PlayerResult.Rank p) ++ " " ++
             PlayerResult.Result p ++ ")"
        else format_int (PlayerResult.OOMPoints p)).
Proof. apply formatPlayerResult_ok. Qed.

Example rank_endings :
  map rank_ending [1; 2; 3; 4; 11; 12; 13; 21; 22; 101; 111; 112]
  = [ "st" : gostring; "nd" : gostring; "rd" : gostring; "th" : gostring;
      "th" : gostring; "th" : gostring; "th" : gostring; "st" : gostring;
      "nd" : gostring; "st" : gostring; "st" : gostring; "nd" : gostring ].
Proof. vm_compute. reflexivity. Qed.

(** ** Writing [out.csv] *)

Lemma prints_Fprint fname s : prints fname (Fprint fname s) s.
Proof. intros w t Hf. unfold Fprint. by rewrite Hf. Qed.

Lemma prints_bind fname (m1 : M unit) (m2 : M unit) s1 s2 :
  prints fname m1 s1 -> prints fname m2 s2 ->
  prints fname (_ ← m1; m2) (s1 ++ s2).
Proof.
  intros H1 H2 w t Hf. unfold mbind, M_bind. rewrite (H1 w t Hf).
  rewrite (H2 _ (t ++ s1)).
  - cbn [files web fetched]. by rewrite insert_insert_eq, app_assoc.
  - cbn [files]. by rewrite lookup_insert_eq.
Qed.

Lemma prints_for_each {A} fname (l : list A) body (g : A -> gostring) :
  (forall a, prints fname (body a) (g a)) ->
  prints fname (for_each l body) (concat (map g l)).
Proof.
  intros Hb. induction l as [|a l IH]; cbn [for_each map concat].
  - intros w t Hf. unfold mret, M_ret. rewrite app_nil_r.
    rewrite insert_id by done. by destruct w.
  - by apply prints_bind.
Qed.

Lemma prints_cell flagDetail p comp :
  prints out_csv
    match PlayerOOM.PlayerByComp p !! Competition.Key comp with
    | Some playerResult =>
        s ← lift (formatPlayerResult flagDetail playerResult);
        Fprint out_csv ("," ++ s)
    | None => Fprint out_csv ","
    end
    ("," ++ cell flagDetail p comp).
Proof.
  unfold cell.
  destruct (PlayerOOM.PlayerByComp p !! Competition.Key comp) as [r|].
  - intros w t Hf. unfold mbind, M_bind, lift.
    rewrite formatPlayerResult_ok. by apply prints_Fprint.
  - apply prints_Fprint.
Qed.

Lemma prints_player flagDetail theOOM player :
  prints out_csv
    (let p := default (PlayerOOM.mk [] 0 0 0 ∅)
                      (OOM.OOMResults theOOM !! player) in
     _ ← Fprint out_csv
           (format_int (PlayerOOM.Rank p) ++ "," ++ PlayerOOM.Name p ++ "," ++
            format_int (PlayerOOM.OOMPoints p) ++ "," ++
            format_int (PlayerOOM.NumCompetitions p));
     _ ← for_each (OOM.Competitions theOOM)
           (fun comp =>
              match PlayerOOM.PlayerByComp p !! Competition.Key comp with
              | Some playerResult =>
                  s ← lift (formatPlayerResult flagDetail playerResult);
                  Fprint out_csv ("," ++ s)
              | None => Fprint out_csv ","
              end);
     Fprint out_csv [LF])
    (player_row flagDetail theOOM player ++ [LF]).
Proof.
  cbn zeta. unfold player_row, player_entry.
  set (p := default (PlayerOOM.mk [] 0 0 0 ∅) (OOM.OOMResults theOOM !! player)).
  replace ((format_int (PlayerOOM.Rank p) ++ "," ++ PlayerOOM.Name p ++ "," ++
            format_int (PlayerOOM.OOMPoints p) ++ "," ++
            format_int (PlayerOOM.NumCompetitions p) ++
            concat (map (fun comp => "," ++ cell flagDetail p comp)
                        (OOM.Competitions theOOM))) ++ [LF])
    with ((format_int (PlayerOOM.Rank p) ++ "," ++ PlayerOOM.Name p ++ "," ++
           format_int (PlayerOOM.OOMPoints p) ++ "," ++
           format_int (PlayerOOM.NumCompetitions p)) ++
          concat (map (fun comp => "," ++ cell flagDetail p comp)
                      (OOM.Competitions theOOM)) ++ [LF])
    by (by rewrite <- !app_assoc).
  apply prints_bind; [apply prints_Fprint|].
  apply prints_bind; [|apply prints_Fprint].
  apply prints_for_each. intros comp. apply prints_cell.
Qed.

Lemma prints_heading (lead : gostring) f theOOM :
  prints out_csv
    (_ ← Fprint out_csv lead;
     _ ← for_each (OOM.Competitions theOOM)
           (fun comp => Fprint out_csv (f comp ++ ","));
     Fprint out_csv [LF])
    (heading lead f theOOM ++ [LF]).
Proof.
  unfold heading. rewrite <- app_assoc.
  apply prints_bind; [apply prints_Fprint|].
  apply prints_bind; [|apply prints_Fprint].
  apply prints_for_each. intros comp. apply prints_Fprint.
Qed.

Lemma prints_then fname (m1 m2 : M unit) s1 s2 s :
  prints fname m1 s1 -> prints fname m2 s2 -> s = s1 ++ s2 ->
  prints fname (_ ← m1; m2) s.
Proof. intros H1 H2 ->. by apply prints_bind. Qed.

Ltac prints_step lem :=
  eapply prints_then;
  [ lem | | rewrite <- ?app_assoc; reflexivity ].

Lemma printOOM_lines flagDetail theOOM w :
  printOOM flagDetail theOOM w
  = (Ok tt, {| files := <[out_csv := unlines (csv_lines flagDetail theOOM)]>
                          (files w);
               web := web w; fetched := fetched w |}).
Proof.
  unfold printOOM. unfold mbind at 1, M_bind at 1, Create, WriteFile.
  match goal with
  | |- ?m ?w' = _ =>
      assert (H : prints out_csv m (unlines (csv_lines flagDetail theOOM)))
  end.
  { unfold csv_lines, unlines, heading. cbn [map concat app].
    rewrite map_map.
    prints_step ltac:(apply prints_Fprint).
    prints_step ltac:(apply prints_Fprint).
    prints_step ltac:(apply prints_for_each; intros ?; apply prints_Fprint).
    prints_step ltac:(apply prints_Fprint).
    prints_step ltac:(apply prints_Fprint).
    prints_step ltac:(apply prints_for_each; intros ?; apply prints_Fprint).
    prints_step ltac:(apply prints_Fprint).
    prints_step ltac:(apply prints_Fprint).
    prints_step ltac:(apply prints_for_each; intros ?; apply prints_Fprint).
    prints_step ltac:(apply prints_Fprint).
    apply (prints_for_each out_csv _ _
             (fun player => player_row flagDetail theOOM player ++ [LF])).
    intros player. apply prints_player. }
  rewrite (H _ []); cbn [files web fetched].
  - by rewrite insert_insert_eq.
  - by rewrite lookup_insert_eq.
Qed.

Lemma split_cells (f0 : gostring) (cells : list gostring) :
  COMMA ∉ f0 -> Forall (fun c => COMMA ∉ c) cells ->
  strings_Split (f0 ++ concat (map (fun c => "," ++ c) cells)) ","
  = f0 :: cells.
Proof.
  intros Hf Hc. revert f0 Hf.
  induction Hc as [|c cells Hc _ IH]; intros f0 Hf; cbn [map concat].
  - rewrite app_nil_r. by apply strings_Split_none.
  - rewrite <- app_assoc. change ("," ++ ?x) with (COMMA :: x).
    rewrite strings_Split_app by done. f_equal. by apply IH.
Qed.

Lemma split_heading (fs : list gostring) :
  Forall (fun c => COMMA ∉ c) fs ->
  strings_Split (concat (map (fun c => c ++ ",") fs)) "," = fs ++ [[]].
Proof.
  induction 1 as [|c fs Hc _ IH]; cbn [map concat app]; [done|].
  rewrite <- app_assoc. change ("," ++ ?x) with (COMMA :: x).
  rewrite strings_Split_app by done. by f_equal.
Qed.

Lemma cell_plain p comp : COMMA ∉ cell false p comp.
Proof.
  unfold cell, formatted.
  destruct (PlayerOOM.PlayerByComp p !! Competition.Key comp).
  - apply format_int_plain.
  - apply not_elem_of_nil.
Qed.

(** [printOOM] writes [out.csv] and touches nothing else.  The file has
    four heading lines and then one line per ranked player, in rank
    order.  When no competition key holds a comma, the fields of the
    second line are four empty ones, the keys of the competitions in
    order, and an empty one.  In the line of a player whose name holds
    no comma (and, with [-detail], whose cells hold none) the fields are
    the rank, the name, the points, the number of competitions and then,
    competition by competition in the same order, the player's result
    there or nothing: the results stand under the key of their
    competition. *)
Theorem printOOM_csv flagDetail theOOM w :
  printOOM flagDetail theOOM w
  = (Ok tt, {| files := <[out_csv := unlines (csv_lines flagDetail theOOM)]>
                          (files w);
               web := web w; fetched := fetched w |}) /\
  length (csv_lines flagDetail theOOM)
  = (4 + length (OOM.RankedPlayers theOOM))%nat /\
  (Forall (fun comp => COMMA ∉ Competition.Key comp)
          (OOM.Competitions theOOM) ->
   exists keys,
     csv_lines flagDetail theOOM !! 1%nat = Some keys /\
     strings_Split keys ","
     = [[]; []; []; []] ++ map Competition.Key (OOM.Competitions theOOM)
       ++ [[]]) /\
  (forall i player,
     OOM.RankedPlayers theOOM !! i = Some player ->
     COMMA ∉ PlayerOOM.Name (player_entry theOOM player) ->
     (flagDetail = true ->
      Forall (fun comp => COMMA ∉ cell true (player_entry theOOM player) comp)
             (OOM.Competitions theOOM)) ->
     exists row,
       csv_lines flagDetail theOOM !! (4 + i)%nat = Some row /\
       strings_Split row ","
       = [ format_int (PlayerOOM.Rank (player_entry theOOM player));
           PlayerOOM.Name (player_entry theOOM player);
           format_int (PlayerOOM.OOMPoints (player_entry theOOM player));
           format_int (PlayerOOM.NumCompetitions (player_entry theOOM player)) ]
         ++ map (cell flagDetail (player_entry theOOM player))
                (OOM.Competitions theOOM)).
Proof.
  split; [apply printOOM_lines|]. split.
  { unfold csv_lines. rewrite length_app, length_map. done. }
  split.
  - intros Hk. eexists. split; [reflexivity|]. unfold heading.
    replace (",,,," ++
             concat (map (fun comp => Competition.Key comp ++ ",")
                         (OOM.Competitions theOOM)))
      with (concat (map (fun c : gostring => c ++ ",")
                        ([[]; []; []; []]
                         ++ map Competition.Key (OOM.Competitions theOOM))))
      by (rewrite map_app, concat_app, map_map; reflexivity).
    rewrite split_heading; [by rewrite <- app_assoc|].
    apply Forall_app. split; [repeat constructor; apply not_elem_of_nil|].
    by apply Forall_fmap.
  - intros i player Hi Hname Hcells.
    exists (player_row flagDetail theOOM player). split.
    { unfold csv_lines. rewrite lookup_app_r by (cbn; lia).
      cbn [length]. replace (4 + i - 4)%nat with i by lia.
      by rewrite list_lookup_fmap, Hi. }
    unfold player_row.
    set (p := player_entry theOOM player) in *.
    replace (format_int (PlayerOOM.Rank p) ++ "," ++ PlayerOOM.Name p ++ "," ++
             format_int (PlayerOOM.OOMPoints p) ++ "," ++
             format_int (PlayerOOM.NumCompetitions p) ++
             concat (map (fun comp => "," ++ cell flagDetail p comp)
                         (OOM.Competitions theOOM)))
      with (format_int (PlayerOOM.Rank p) ++
            concat (map (fun c => "," ++ c)
                        ([PlayerOOM.Name p; format_int (PlayerOOM.OOMPoints p);
                          format_int (PlayerOOM.NumCompetitions p)]
                         ++ map (cell flagDetail p) (OOM.Competitions theOOM)))).
    2:{ rewrite map_app, concat_app, map_map. cbn [map concat].
        rewrite <- !app_assoc. reflexivity. }
    rewrite split_cells; [done | apply format_int_plain|].
    apply Forall_app. split.
    + repeat constructor; try done; apply format_int_plain.
    + apply Forall_fmap. destruct flagDetail.
      * by apply Hcells.
      * apply Forall_forall. intros comp _. apply cell_plain.
Qed.

Lemma printOOM_csv_witness :
  exists row,
    csv_lines false season_oom !! (4 + 0)%nat = Some row /\
    strings_Split row ","
    = [ format_int (PlayerOOM.Rank (player_entry season_oom "Alice"));
        PlayerOOM.Name (player_entry season_oom "Alice");
        format_int (PlayerOOM.OOMPoints (player_entry season_oom "Alice"));
        format_int (PlayerOOM.NumCompetitions (player_entry season_oom "Alice")) ]
      ++ map (cell false (player_entry season_oom "Alice"))
             (OOM.Competitions season_oom).
Proof.
  destruct (printOOM_csv false season_oom cached_world) as (_ & _ & _ & H).
  apply (H 0%nat ("Alice" : gostring)); [reflexivity | compute_done | done].
Defined.

(** The file for a season of one competition and two players. *)
Example out_csv_example :
  files (snd (printOOM false season_oom cached_world)) !! out_csv
  = Some (unlines [ "Year 2016" : gostring;
                    ",,,,5462," : gostring;
                    ",,,,Sat 2nd April," : gostring;
                    "rank, name, oomPts, #Comp,Monthly Medal," : gostring;
                    "1,Alice,2,1,2" : gostring;
                    "2,Bob,1,1,1" : gostring ]).
Proof. vm_compute. reflexivity. Qed.

(** ** The standard layout *)

Lemma playerDetail_ok (pre nm seg score rest : gostring) :
  ">"%char ∉ pre ->
  first_occurrence "</a>" (pre ++ ">" ++ nm)
    (pre ++ ">" ++ nm ++ seg ++ "</a></td>" ++ rest) ->
  first_occurrence "</a></td>" seg (seg ++ "</a></td>" ++ rest) ->
  after_last_gt seg score ->
  playerDetail (pre ++ ">" ++ nm ++ seg ++ "</a></td>" ++ rest)
  = Ok (nm, score).
Proof.
  intros Hpre Ha Hend [Hres Hlast]. unfold playerDetail.
  rewrite (index_first _ _ _ Ha).
  change (list_ascii_of_string ">") with [">"%char]. cbn [app].
  rewrite (index_byte pre _ ">"%char) by done.
  assert (E1 : slice (pre ++ ">"%char :: nm ++ seg ++ "</a></td>" ++ rest)
                 (len pre + 1) (len (pre ++ ">"%char :: nm)) = Ok nm).
  { rewrite (cons_middle _ pre), (app_assoc pre [">"%char]).
    apply slice_mid.
    - rewrite len_app. reflexivity.
    - rewrite (cons_middle _ pre nm), !len_app. lia. }
  rewrite E1. cbn [mbind result_bind].
  assert (E2 : slice_from (pre ++ ">"%char :: nm ++ seg ++ "</a></td>" ++ rest)
                 (len (pre ++ ">"%char :: nm))
               = Ok (seg ++ "</a></td>" ++ rest)).
  { rewrite (app_comm_cons nm), (app_assoc pre). apply slice_from_app. }
  rewrite E2. cbn [mbind result_bind].
  rewrite (index_first _ _ _ Hend), slice_to_app. cbn [mbind result_bind].
  assert (E5 : slice_from seg (strings_LastIndex seg [">"%char] + 1) = Ok score).
  { destruct Hlast as [-> | [body ->]].
    - rewrite (last_index_byte_none ">"%char) by done.
      change (-1 + 1) with (len []). apply (slice_from_app [] score).
    - change (list_ascii_of_string ">") with [">"%char]. cbn [app].
      rewrite (last_index_byte ">"%char) by done.
      replace (len body + 1) with (len (body ++ [">"%char]))
        by (rewrite len_app; reflexivity).
      rewrite (cons_middle _ body score), (app_assoc body).
      apply slice_from_app. }
  by rewrite E5.
Qed.

(** In a fragment [pre > nm seg </a></td> rest] where [pre] is free of
    [>], the first [</a>] comes right after [nm], and [seg] ends where
    [</a></td>] first occurs from there on, [playerDetail] returns [nm]
    as the name and, as the result, what follows the last [>] of
    [seg]. *)
Theorem playerDetail_fragment (pre nm seg score rest : gostring) :
  ">"%char ∉ pre ->
  first_occurrence "</a>" (pre ++ ">" ++ nm)
    (pre ++ ">" ++ nm ++ seg ++ "</a></td>" ++ rest) ->
  first_occurrence "</a></td>" seg (seg ++ "</a></td>" ++ rest) ->
  after_last_gt seg score ->
  playerDetail (pre ++ ">" ++ nm ++ seg ++ "</a></td>" ++ rest)
  = Ok (nm, score).
Proof. apply playerDetail_ok. Qed.

Lemma playerDetail_fragment_witness :
  playerDetail player_fragment_example
  = Ok ("Jo Mager" : gostring, "24" : gostring).
Proof.
  apply (playerDetail_fragment ("playerid=76041" ++ [dquote]) "Jo Mager"
           "</a>(16)</td><td><a href=x>24" "24" "<td></td></tr>").
  - compute_done.
  - apply first_occurrence_index; vm_compute; reflexivity.
  - apply first_occurrence_index; vm_compute; reflexivity.
  - split; [compute_done|]. right.
    by exists ("</a>(16)</td><td><a href=x" : gostring).
Defined.

(** ** Cutting a page at its markers *)

Lemma first_occurrence_take marker tok s n :
  first_occurrence marker tok s -> (length (tok ++ marker) <= n)%nat ->
  first_occurrence marker tok (take n s).
Proof.
  intros Hf Hn. pose proof Hf as (Hp & Ht & Hno).
  destruct (first_occurrence_split _ _ _ Hf) as [post Hs].
  rewrite length_app in Hn.
  assert (Htake : take n s = tok ++ marker ++ take (n - length (tok ++ marker)) post).
  { rewrite Hs, !app_assoc. rewrite (take_app _ post).
    rewrite take_ge by (rewrite length_app; lia). done. }
  split; [|split].
  - rewrite Htake, drop_app_length. apply has_prefix_app.
  - by rewrite Htake, take_app_length.
  - intros k Hk. apply not_true_is_false. intros Htrue.
    specialize (Hno k Hk). apply not_true_iff_false in Hno. apply Hno.
    apply has_prefix_iff in Htrue as [r Hr]. apply has_prefix_iff.
    exists (r ++ drop n s).
    rewrite <- (take_drop n s) at 1.
    rewrite drop_app_le by (rewrite Htake, length_app; lia).
    by rewrite Hr, <- app_assoc.
Qed.

Lemma Scan_marker_token marker tok rest t0 :
  marker <> [] ->
  first_occurrence marker tok (tok ++ marker ++ rest) ->
  len (tok ++ marker) <= MaxScanTokenSize ->
  Scan (marker_split marker) (scanner_at (tok ++ marker ++ rest) t0)
  = (true, scanner_at (tail marker ++ rest) tok).
Proof.
  intros Hne Hf Hlen. unfold Scan, marker_split, scanner_at.
  cbn [sc_input sc_err sc_token].
  assert (Hn : (length (tok ++ marker) <= Z.to_nat MaxScanTokenSize)%nat)
    by (unfold len in Hlen; lia).
  pose proof (first_occurrence_take _ _ _ _ Hf Hn) as Hw.
  pose proof (index_first _ _ _ Hw) as Hi.
  assert (Hwl : len (tok ++ marker)
                <= len (take (Z.to_nat MaxScanTokenSize) (tok ++ marker ++ rest))).
  { unfold len. rewrite length_take, !length_app in *. lia. }
  assert (Htok : take (length tok)
                   (take (Z.to_nat MaxScanTokenSize) (tok ++ marker ++ rest))
                 = tok) by apply Hw.
  revert Hi Hwl Htok.
  generalize (take (Z.to_nat MaxScanTokenSize) (tok ++ marker ++ rest))
    as window.
  generalize (bool_decide (is_Some (@None scan_error))
              || (len (tok ++ marker ++ rest) <? MaxScanTokenSize)) as atEOF.
  intros atEOF window Hi Hwl Htok. rewrite Hi.
  assert (0 < len marker)
    by (unfold len; destruct marker; [done | cbn; lia]).
  rewrite len_app in Hwl. pose proof (len_nonneg tok).
  destruct (Z.eqb_spec (len window) 0); [lia|].
  rewrite andb_false_r.
  destruct (Z.leb_spec 0 (len tok)); [|lia].
  destruct (Z.ltb_spec (len tok + 1) 0); [lia|].
  destruct (Z.ltb_spec (len window) (len tok + 1)); [lia|].
  unfold len. rewrite Nat2Z.id, Htok.
  replace (Z.to_nat (Z.of_nat (length tok) + 1)) with (S (length tok)) by lia.
  do 3 f_equal. destruct marker as [|m marker]; [done|].
  change ((m :: marker) ++ rest) with ([m] ++ marker ++ rest).
  rewrite (app_assoc tok).
  replace (S (length tok)) with (length (tok ++ [m]))
    by (rewrite length_app; cbn; lia).
  by rewrite drop_app_length.
Qed.

Lemma scan_loop_fragments marker fuel s toks t0 :
  marker <> [] -> fragments marker s toks -> (length s < fuel)%nat ->
  scan_loop fuel (marker_split marker) (scanner_at s t0)
  = Some (toks, scanner_at [] []).
Proof.
  intros Hne Hfr. revert fuel t0.
  induction Hfr as [|s Hs Hno Hlen|tok rest toks Hf Hlen _ IH];
    intros [|fuel] t0 Hfuel; try (cbn in Hfuel; lia); cbn [scan_loop].
  - by rewrite Scan_marker_end.
  - destruct fuel as [|fuel]; [destruct s; [done | cbn in Hfuel; lia]|].
    rewrite Scan_marker_absent; [|rewrite take_ge | done..].
    + cbn [scan_loop]. by rewrite Scan_marker_end.
    + by apply index_none.
    + unfold len in Hlen. lia.
  - rewrite Scan_marker_token by done.
    rewrite IH; [done|].
    rewrite !length_app in *. destruct marker; [done|]. cbn in *. lia.
Qed.

Lemma fragments_exist marker s :
  marker <> [] -> len s < MaxScanTokenSize ->
  exists toks, fragments marker s toks.
Proof.
  intros Hne. remember (length s) as n eqn:Hn. revert s Hn.
  induction n as [n IH] using lt_wf_ind. intros s Hn Hlen.
  destruct s as [|c s']; [exists []; constructor|].
  remember (c :: s') as s eqn:Es.
  destruct (Z.eqb_spec (strings_Index s marker) (-1)) as [Hi|Hi].
  - exists [s]. apply fragments_last; [by subst | by apply index_none | done].
  - destruct (index_found s marker Hi) as (pre & post & Hs & _ & Hf).
    destruct marker as [|m marker]; [done|].
    destruct (IH (length (tail (m :: marker) ++ post))
                ltac:(rewrite Hn, Hs, !length_app; cbn; lia)
                (tail (m :: marker) ++ post) eq_refl) as [toks Ht].
    { rewrite Hs in Hlen. unfold len in *. rewrite !length_app in *.
      cbn in *. lia. }
    exists (pre :: toks). rewrite Hs. apply fragments_cons; [by rewrite <- Hs| |done].
    rewrite Hs in Hlen. unfold len in *. rewrite !length_app in *. lia.
Qed.

Lemma page_marker_nonempty data : page_marker data <> [].
Proof. unfold page_marker. by destruct (is_standard data). Qed.

Lemma page_tokens_marker data :
  page_tokens data
  = fst <$> scan_all (marker_split (page_marker data)) (NewScanner data).
Proof.
  unfold page_tokens, page_marker, compSplitFunc, champSplitFunc.
  by destruct (is_standard data).
Qed.

(** The fragments that [populateResultsFromWeb] scans are the texts
    between the markers of the layout: when the page is cut at its
    markers into pieces that fit the scanner's buffer, the scanner
    returns these pieces, each but the first starting with the marker
    less its first byte.  For a page shorter than the buffer there is
    such a cut, and the scanner returns nothing else. *)
Theorem page_tokens_fragments data :
  (forall toks,
     fragments (page_marker data) data toks -> page_tokens data = Some toks) /\
  (len data < MaxScanTokenSize ->
   forall toks,
     page_tokens data = Some toks -> fragments (page_marker data) data toks).
Proof.
  assert (H : forall toks, fragments (page_marker data) data toks ->
                           page_tokens data = Some toks).
  { intros toks Hfr. rewrite page_tokens_marker. unfold scan_all.
    change (NewScanner data) with (scanner_at data []).
    rewrite (scan_loop_fragments _ _ _ toks);
      [done | apply page_marker_nonempty | done | cbn; lia]. }
  split; [done|]. intros Hlen toks Ht.
  destruct (fragments_exist (page_marker data) data
              (page_marker_nonempty data) Hlen) as [toks' Hfr].
  rewrite (H _ Hfr) in Ht. by injection Ht as <-.
Qed.

Lemma page_tokens_fragments_witness :
  page_tokens repeated_name_page
  = Some [ "<table>" : gostring;
           "playerid=1>Ann</a><a>70</a></td>" : gostring;
           "playerid=2>Ann</a><a>71</a></td>" : gostring ].
Proof.
  destruct (page_tokens_fragments repeated_name_page) as [H _].
  apply H. change (page_marker repeated_name_page) with ("?playerid=" : gostring).
  apply (fragments_cons "?playerid=" "<table>"
           "1>Ann</a><a>70</a></td>?playerid=2>Ann</a><a>71</a></td>");
    [apply first_occurrence_index; vm_compute; reflexivity
    | vm_compute; discriminate |].
  apply (fragments_cons "?playerid=" "playerid=1>Ann</a><a>70</a></td>"
           "2>Ann</a><a>71</a></td>");
    [apply first_occurrence_index; vm_compute; reflexivity
    | vm_compute; discriminate |].
  apply fragments_last;
    [done | apply index_none; vm_compute; reflexivity | reflexivity].
Defined.

(** ** From the competitions to the file *)

Lemma filter_results_absent (name k : gostring) comps :
  k ∉ map Competition.Key comps ->
  filter (fun kr : gostring * PlayerResult.t => fst kr = k)
         (results_of name comps) = [].
Proof.
  induction comps as [|c comps IH]; intros Hk; [done|].
  cbn [map] in Hk. apply not_elem_of_cons in Hk as [Hne Hk].
  unfold results_of. cbn [omap list_omap].
  destruct (Competition.Results c !! name) as [r|]; cbn [fmap option_fmap option_map].
  - rewrite filter_cons. cbn [fst].
    destruct (decide (Competition.Key c = k)); [congruence|]. by apply IH.
  - by apply IH.
Qed.

Lemma filter_results_of (name : gostring) comps comp :
  NoDup (map Competition.Key comps) -> comp ∈ comps ->
  filter (fun kr : gostring * PlayerResult.t => fst kr = Competition.Key comp)
         (results_of name comps)
  = match Competition.Results comp !! name with
    | Some r => [(Competition.Key comp, r)]
    | None => []
    end.
Proof.
  induction comps as [|c comps IH]; intros Hnd Hin;
    [by apply elem_of_nil in Hin|].
  cbn [map] in Hnd. apply NoDup_cons in Hnd as [Hc Hnd].
  unfold results_of. cbn [omap list_omap]. fold (results_of name comps).
  apply elem_of_cons in Hin as [->|Hin].
  - destruct (Competition.Results c !! name) as [r|];
      cbn [fmap option_fmap option_map].
    + rewrite filter_cons. cbn [fst].
      destruct (decide (Competition.Key c = Competition.Key c)); [|done].
      by rewrite filter_results_absent.
    + by rewrite filter_results_absent.
  - assert (Competition.Key c <> Competition.Key comp).
    { intros Heq. apply Hc. rewrite Heq. apply list_elem_of_fmap. eauto. }
    destruct (Competition.Results c !! name) as [r|];
      cbn [fmap option_fmap option_map].
    + rewrite filter_cons. cbn [fst].
      destruct (decide (Competition.Key c = Competition.Key comp));
        [done | by apply IH].
    + by apply IH.
Qed.

Lemma player_row_fields flagDetail theOOM player :
  COMMA ∉ PlayerOOM.Name (player_entry theOOM player) ->
  Forall (fun comp => COMMA ∉ cell flagDetail (player_entry theOOM player) comp)
         (OOM.Competitions theOOM) ->
  strings_Split (player_row flagDetail theOOM player) ","
  = [ format_int (PlayerOOM.Rank (player_entry theOOM player));
      PlayerOOM.Name (player_entry theOOM player);
      format_int (PlayerOOM.OOMPoints (player_entry theOOM player));
      format_int (PlayerOOM.NumCompetitions (player_entry theOOM player)) ]
    ++ map (cell flagDetail (player_entry theOOM player))
           (OOM.Competitions theOOM).
Proof.
  intros Hname Hcells. unfold player_row.
  set (p := player_entry theOOM player) in *.
  replace (format_int (PlayerOOM.Rank p) ++ "," ++ PlayerOOM.Name p ++ "," ++
           format_int (PlayerOOM.OOMPoints p) ++ "," ++
           format_int (PlayerOOM.NumCompetitions p) ++
           concat (map (fun comp => "," ++ cell flagDetail p comp)
                       (OOM.Competitions theOOM)))
    with (format_int (PlayerOOM.Rank p) ++
          concat (map (fun c => "," ++ c)
                      ([PlayerOOM.Name p; format_int (PlayerOOM.OOMPoints p);
                        format_int (PlayerOOM.NumCompetitions p)]
                       ++ map (cell flagDetail p) (OOM.Competitions theOOM)))).
  2:{ rewrite map_app, concat_app, map_map. cbn [map concat].
      rewrite <- !app_assoc. reflexivity. }
  rewrite split_cells; [done | apply format_int_plain|].
  apply Forall_app. split.
  - repeat constructor; try done; apply format_int_plain.
  - by apply Forall_fmap.
Qed.

Lemma rank_ending_plain rank : COMMA ∉ rank_ending rank.
Proof.
  unfold rank_ending.
  repeat match goal with
         | |- context [if ?b then _ else _] => destruct b
         end; compute_done.
Qed.

Lemma formatted_plain flagDetail r :
  (flagDetail = true -> COMMA ∉ PlayerResult.Result r) ->
  COMMA ∉ formatted flagDetail r.
Proof.
  intros Hr. unfold formatted. destruct flagDetail; [|apply format_int_plain].
  rewrite !not_elem_of_app. repeat split;
    try apply format_int_plain; try apply rank_ending_plain;
    try compute_done.
  by apply Hr.
Qed.

(** The file that the program writes, from the competitions loaded,
    without and with [-detail].  With a [sort.Sort] that keeps its
    promise and competitions with pairwise distinct keys, whatever the
    orders in which the runtime ranges over the maps: [out.csv] has four
    heading lines and one line for each player who has a result in some
    competition; the players stand in the order of their ranks, nobody
    before a player with more points in total; and the line of a player
    whose name holds no comma (and, with [-detail], whose results hold
    none) has the fields rank (the position, from 1), name, the sum of
    the player's points, the number of competitions played, and then,
    competition by competition, the player's cell there or nothing: the
    points without [-detail], and with it the points followed by the
    rank with its ending and the result in brackets. *)
Theorem report_rows ord ord' srt flagDetail year comps w :
  valid_order ord -> valid_order ord' -> sorts_descending srt ->
  NoDup (map Competition.Key comps) ->
  exists players lines,
    report ord ord' srt flagDetail year comps w
    = (Ok tt, {| files := <[out_csv := unlines lines]> (files w);
                 web := web w; fetched := fetched w |}) /\
    length lines = (4 + length players)%nat /\
    NoDup players /\
    (forall name, name ∈ players <-> results_of name comps <> []) /\
    (forall i name,
       players !! i = Some name -> COMMA ∉ name ->
       (flagDetail = true ->
        forall comp r,
          comp ∈ comps -> Competition.Results comp !! name = Some r ->
          COMMA ∉ PlayerResult.Result r) ->
       exists row,
         lines !! (4 + i)%nat = Some row /\
         strings_Split row ","
         = [ format_int (Z.of_nat i + 1); name;
             format_int (total_points name comps);
             format_int (wrap_int (Z.of_nat (length (results_of name comps)))) ]
           ++ map (result_cell flagDetail name) comps) /\
    (forall i j n1 n2,
       (i < j)%nat -> players !! i = Some n1 -> players !! j = Some n2 ->
       total_points n2 comps <= total_points n1 comps).
Proof.
  intros Hord Hord' Hsrt Hkeys. unfold report.
  set (results := populateOOMWithCompetitions ord comps).
  pose proof (calculateOOMRank_spec ord' srt results Hord' Hsrt) as Hrank.
  destruct (calculateOOMRank ord' srt results) as [players results'].
  destruct Hrank as (Hperm & Hnd & Hlen & Hpos & Hnone & Hmono).
  assert (Hentry : forall name p, results !! name = Some p ->
            results_of name comps <> [] /\
            PlayerOOM.Name p = name /\
            PlayerOOM.OOMPoints p = total_points name comps /\
            PlayerOOM.NumCompetitions p
            = wrap_int (Z.of_nat (length (results_of name comps))) /\
            forall k, PlayerOOM.PlayerByComp p !! k
                      = by_comp name k (results_of name comps)).
  { intros name p Hp.
    destruct (populateOOM_entry ord comps name Hord) as [H0 H1].
    destruct (decide (results_of name comps = [])) as [He|Hne].
    { unfold results in Hp. rewrite (H0 He) in Hp. done. }
    destruct (H1 Hne) as (p' & Hp' & ? & ? & ? & ? & ?).
    unfold results in Hp. rewrite Hp' in Hp. injection Hp as <-. done. }
  exists players,
    (csv_lines flagDetail (OOM.mk year comps players results')).
  split; [apply printOOM_lines|]. split.
  { unfold csv_lines. rewrite length_app, length_map. done. }
  split; [done|]. split; [|split].
  - intros name. rewrite Hperm. split.
    + intros Hin. apply list_elem_of_fmap in Hin as ([k p] & -> & Hin).
      apply elem_of_map_to_list in Hin. by apply (Hentry _ _ Hin).
    + intros Hne.
      destruct (populateOOM_entry ord comps name Hord) as [_ H1].
      destruct (H1 Hne) as (p & Hp & _).
      apply list_elem_of_fmap. exists (name, p). split; [done|].
      by apply elem_of_map_to_list.
  - intros i name Hi Hcomma Hres.
    destruct (Hpos i name Hi) as (p & Hp & Hp').
    destruct (Hentry name p Hp) as (_ & Hn & Hpts & Hnum & Hby).
    set (theOOM := OOM.mk year comps players results').
    assert (He : player_entry theOOM name = ranked p (Z.of_nat i + 1)).
    { unfold player_entry, theOOM. cbn [OOM.OOMResults]. by rewrite Hp'. }
    assert (Hcell : forall comp, comp ∈ comps ->
              cell flagDetail (ranked p (Z.of_nat i + 1)) comp
              = result_cell flagDetail name comp).
    { intros comp Hin. unfold cell, result_cell, ranked.
      cbn [PlayerOOM.PlayerByComp].
      rewrite Hby. unfold by_comp.
      rewrite (filter_results_of name comps comp Hkeys Hin).
      by destruct (Competition.Results comp !! name). }
    exists (player_row flagDetail theOOM name). split.
    { unfold csv_lines. rewrite lookup_app_r by (cbn; lia).
      cbn [length]. replace (4 + i - 4)%nat with i by lia.
      cbn [OOM.RankedPlayers theOOM]. by rewrite list_lookup_fmap, Hi. }
    rewrite player_row_fields.
    + rewrite He. unfold ranked at 1 2 3 4.
      cbn [PlayerOOM.Rank PlayerOOM.Name PlayerOOM.OOMPoints
           PlayerOOM.NumCompetitions OOM.Competitions theOOM].
      rewrite Hn, Hpts, Hnum. f_equal.
      apply map_ext_in. intros comp Hin. apply list_elem_of_In in Hin.
      by apply Hcell.
    + rewrite He. unfold ranked. cbn [PlayerOOM.Name].
      by rewrite Hn.
    + rewrite He. cbn [OOM.Competitions theOOM].
      apply Forall_forall. intros comp Hin. rewrite Hcell by done.
      unfold result_cell.
      destruct (Competition.Results comp !! name) as [r|] eqn:Er;
        [|apply not_elem_of_nil].
      apply formatted_plain. intros Hd. by eapply Hres.
  - intros i j n1 n2 Hij Hi Hj.
    destruct (Hpos i n1 Hi) as (p1 & Hp1 & _).
    destruct (Hpos j n2 Hj) as (p2 & Hp2 & _).
    pose proof (Hmono i j n1 n2 p1 p2 Hij Hi Hj Hp1 Hp2) as Hle.
    destruct (Hentry n1 p1 Hp1) as (_ & _ & <- & _).
    destruct (Hentry n2 p2 Hp2) as (_ & _ & <- & _). done.
Qed.

Lemma report_rows_witness :
  exists players lines,
    report identity_order reverse_order example_sort true 2016
      season_example cached_world
    = (Ok tt, {| files := <[out_csv := unlines lines]> (files cached_world);
                 web := web cached_world; fetched := fetched cached_world |}) /\
    length lines = (4 + length players)%nat /\
    NoDup players /\
    (forall name, name ∈ players <-> results_of name season_example <> []) /\
    (forall i name,
       players !! i = Some name -> COMMA ∉ name ->
       (true = true ->
        forall comp r,
          comp ∈ season_example ->
          Competition.Results comp !! name = Some r ->
          COMMA ∉ PlayerResult.Result r) ->
       exists row,
         lines !! (4 + i)%nat = Some row /\
         strings_Split row ","
         = [ format_int (Z.of_nat i + 1); name;
             format_int (total_points name season_example);
             format_int (wrap_int (Z.of_nat
                                     (length (results_of name season_example)))) ]
           ++ map (result_cell true name) season_example) /\
    (forall i j n1 n2,
       (i < j)%nat -> players !! i = Some n1 -> players !! j = Some n2 ->
       total_points n2 season_example <= total_points n1 season_example).
Proof.
  apply (report_rows identity_order reverse_order example_sort true 2016
           season_example cached_world).
  - apply identity_order_valid.
  - apply reverse_order_valid.
  - apply example_sort_descending.
  - compute_done.
Defined.

(** The file for the two competitions of the example: Alice has played
    both, Bob the first and Carol the second. *)
Example season_file :
  files (snd (report identity_order identity_order example_sort false 2016
                season_example cached_world)) !! out_csv
  = Some (unlines
            [ "Year 2016" : gostring;
              ",,,,5462,5470," : gostring;
              ",,,,Sat 2nd April,Sun 8th May," : gostring;
              "rank, name, oomPts, #Comp,Monthly Medal,Spring Open," : gostring;
              "1,Alice,3,2,2,1" : gostring;
              "2,Carol,2,1,,2" : gostring;
              "3,Bob,1,1,1," : gostring ]).
Proof. vm_compute. reflexivity. Qed.

(** The same file with [-detail]. *)
Example season_file_detail :
  files (snd (report identity_order identity_order example_sort true 2016
                season_example cached_world)) !! out_csv
  = Some (unlines
            [ "Year 2016" : gostring;
              ",,,,5462,5470," : gostring;
              ",,,,Sat 2nd April,Sun 8th May," : gostring;
              "rank, name, oomPts, #Comp,Monthly Medal,Spring Open," : gostring;
              "1,Alice,3,2,2 (1st 72),1 (2nd 74)" : gostring;
              "2,Carol,2,1,,2 (1st 70)" : gostring;
              "3,Bob,1,1,1 (2nd 75)," : gostring ]).
Proof. vm_compute. reflexivity. Qed.

(** ** Loads of different competitions do not interfere *)

Lemma cache_name_inj k1 k2 : cache_name k1 = cache_name k2 -> k1 = k2.
Proof. unfold cache_name. apply app_inv_tail. Qed.

Lemma Load_ok_cases ord comp w c w' :
  Load ord comp w = (Ok c, w') ->
  (exists content,
     files w !! cache_name (Competition.Key comp) = Some content /\
     parse_cache content = Ok c /\ w' = w) \/
  (files w !! cache_name (Competition.Key comp) = None /\
   exists data,
     web w (Competition.URL comp) = Some data /\
     populate_from_page comp data = Ok c /\
     w' = after_save ord c (after_fetch (Competition.URL comp) w)).
Proof.
  intros H. pose proof (Load_key _ _ _ _ _ H) as Hkey.
  destruct (files w !! cache_name (Competition.Key comp)) as [content|] eqn:Hf.
  - left. rewrite (Load_cached_file ord comp w content) in H by done.
    injection H as H <-. eauto.
  - right. split; [done|]. by apply Load_from_web.
Qed.

Lemma Load_web_ok ord comp w data c :
  Competition.Key comp <> [] ->
  files w !! cache_name (Competition.Key comp) = None ->
  web w (Competition.URL comp) = Some data ->
  populate_from_page comp data = Ok c ->
  Load ord comp w
  = (Ok c, after_save ord c (after_fetch (Competition.URL comp) w)).
Proof.
  intros Hkey Hf Hw Hp. unfold Load, bytes_eqb.
  rewrite bool_decide_eq_false_2 by done.
  unfold readCached, ReadFile, populateResultsFromWeb, MustFetch, saveComp,
    WriteFile, lift, mbind, M_bind, mret, M_ret.
  rewrite Hf. cbn [files web fetched]. by rewrite Hw, Hp.
Qed.

(** Two competitions with different keys can be loaded in either order:
    when loading the first and then the second succeeds, so does loading
    the second and then the first, with the same two competitions as
    results, the same files afterwards, and the same pages fetched, in
    the other order. *)
Theorem Load_commute ord1 ord2 comp1 comp2 w c1 w1 c2 w12 :
  Competition.Key comp1 <> Competition.Key comp2 ->
  Load ord1 comp1 w = (Ok c1, w1) ->
  Load ord2 comp2 w1 = (Ok c2, w12) ->
  exists w2 w21,
    Load ord2 comp2 w = (Ok c2, w2) /\
    Load ord1 comp1 w2 = (Ok c1, w21) /\
    files w21 = files w12 /\ web w21 = web w12 /\
    fetched w21 ≡ₚ fetched w12.
Proof.
  intros Hne H1 H2.
  pose proof (Load_key _ _ _ _ _ H1) as Hk1.
  pose proof (Load_key _ _ _ _ _ H2) as Hk2.
  assert (Hn : cache_name (Competition.Key comp1)
               <> cache_name (Competition.Key comp2))
    by (intros ?%cache_name_inj; done).
  apply Load_ok_cases in H1 as
    [(t1 & Hf1 & Hp1 & ->) | (Hf1 & d1 & Hw1 & Hp1 & ->)];
  apply Load_ok_cases in H2 as
    [(t2 & Hf2 & Hp2 & ->) | (Hf2 & d2 & Hw2 & Hp2 & ->)].
  - exists w, w. rewrite (Load_cached_file ord2 comp2 w t2 Hk2 Hf2).
    rewrite (Load_cached_file ord1 comp1 w t1 Hk1 Hf1).
    by rewrite Hp1, Hp2.
  - eexists _, _. rewrite (Load_web_ok _ _ _ d2 c2) by done.
    split; [done|].
    apply populate_from_page_key in Hp2 as Hc2.
    assert (Hf1' : files (after_save ord2 c2
                            (after_fetch (Competition.URL comp2) w))
                   !! cache_name (Competition.Key comp1) = Some t1).
    { unfold after_save. cbn [files]. rewrite Hc2.
      by rewrite lookup_insert_ne. }
    rewrite (Load_cached_file ord1 comp1 _ t1 Hk1 Hf1'). by rewrite Hp1.
  - apply populate_from_page_key in Hp1 as Hc1.
    unfold after_save, after_fetch in Hf2. cbn [files] in Hf2.
    rewrite Hc1, lookup_insert_ne in Hf2 by done.
    exists w. eexists. rewrite (Load_cached_file ord2 comp2 w t2 Hk2 Hf2).
    rewrite Hp2. split; [done|].
    rewrite (Load_web_ok ord1 comp1 w d1 c1 Hk1 Hf1 Hw1 Hp1). done.
  - apply populate_from_page_key in Hp1 as Hc1.
    apply populate_from_page_key in Hp2 as Hc2.
    unfold after_save, after_fetch in Hf2, Hw2. cbn [files web] in Hf2, Hw2.
    rewrite Hc1, lookup_insert_ne in Hf2 by done.
    eexists _, _. rewrite (Load_web_ok ord2 comp2 w d2 c2 Hk2 Hf2 Hw2 Hp2).
    split; [done|].
    assert (Hf1' : files (after_save ord2 c2
                            (after_fetch (Competition.URL comp2) w))
                   !! cache_name (Competition.Key comp1) = None).
    { unfold after_save. cbn [files]. rewrite Hc2.
      by rewrite lookup_insert_ne. }
    rewrite (Load_web_ok ord1 comp1 _ d1 c1 Hk1 Hf1' Hw1 Hp1).
    split; [done|]. unfold after_save, after_fetch. cbn [files web fetched].
    split; [|split; [done|apply perm_swap]].
    rewrite Hc1, Hc2. by apply insert_insert_ne.
Qed.

Lemma Load_commute_witness :
  exists w2 w21,
    Load identity_order (new_competition "5462") one_cached_world
    = (Ok cached_competition, w2) /\
    Load reverse_order
      (Competition.mk "1" [] [] "http://club/competition.php?compid=1" 0 ∅) w2
    = (Ok ann_competition, w21) /\
    files w21 = files both_loaded_world /\
    web w21 = web both_loaded_world /\
    fetched w21 ≡ₚ fetched both_loaded_world.
Proof.
  apply (Load_commute reverse_order identity_order
           (Competition.mk "1" [] [] "http://club/competition.php?compid=1" 0 ∅)
           (new_competition "5462") one_cached_world
           ann_competition both_loaded_world
           cached_competition both_loaded_world).
  - done.
  - vm_compute. reflexivity.
  - vm_compute. reflexivity.
Defined.

(** ** Resolving the descriptors a second time *)

Lemma FetchCompDescriptions_world ord url_Parse year fname w descs w' :
  FetchCompDescriptions ord url_Parse year fname w = (Ok descs, w') ->
  exists requested page listing,
    parseKeysFromFile url_Parse fname w = (Ok requested, w) /\
    parseWebComps page = Ok listing /\
    all_listed requested listing /\
    descs = update_descs ord listing requested /\
    ((w' = w /\ files w !! listing_cache_name year = Some page) \/
     w' = fetched_listing year page w).
Proof.
  intros H.
  destruct (parseKeysFromFile url_Parse fname w) as [[requested|f] w1] eqn:Hk.
  2:{ unfold FetchCompDescriptions, mbind at 1, M_bind at 1 in H.
      by rewrite Hk in H. }
  apply parseKeysFromFile_world in Hk as Hw1. subst w1.
  exists requested.
  destruct (files w !! listing_cache_name year) as [d|] eqn:Hf.
  - destruct (parseWebComps d) as [m|] eqn:Hp.
    2:{ unfold FetchCompDescriptions in H.
        unfold mbind at 1, M_bind at 1 in H. rewrite Hk in H.
        unfold mbind at 1, M_bind at 1 in H.
        rewrite (fetchAllCompsPage_cached _ _ _ Hf) in H.
        unfold mbind at 1, M_bind at 1, lift at 1 in H. by rewrite Hp in H. }
    destruct (decide (all_listed requested m)) as [Hall|Hmiss].
    + rewrite (resolve_cached ord url_Parse year fname w requested d m) in H
        by done.
      injection H as <- <-. exists d, m. eauto 10.
    + destruct (web w (listing_url year)) as [d'|] eqn:Hw.
      2:{ unfold FetchCompDescriptions in H.
          unfold mbind at 1, M_bind at 1 in H. rewrite Hk in H.
          unfold mbind at 1, M_bind at 1 in H.
          rewrite (fetchAllCompsPage_cached _ _ _ Hf) in H.
          unfold mbind at 1, M_bind at 1, lift at 1 in H. rewrite Hp in H.
          destruct (firstMissingKey_some _ _ Hmiss) as (k & Hfm & _ & _).
          rewrite Hfm in H. cbn [andb negb] in H.
          unfold mbind at 1, M_bind at 1 in H.
          unfold mbind at 1, M_bind at 1 in H.
          unfold fetchAllCompsPage, mbind at 1, M_bind at 1, mret, M_ret in H.
          unfold mbind at 1, M_bind at 1, MustFetch in H.
          by rewrite Hw in H. }
      destruct (parseWebComps d') as [m'|] eqn:Hp'.
      2:{ unfold FetchCompDescriptions in H.
          unfold mbind at 1, M_bind at 1 in H. rewrite Hk in H.
          unfold mbind at 1, M_bind at 1 in H.
          rewrite (fetchAllCompsPage_cached _ _ _ Hf) in H.
          unfold mbind at 1, M_bind at 1, lift at 1 in H. rewrite Hp in H.
          destruct (firstMissingKey_some _ _ Hmiss) as (k & Hfm & _ & _).
          rewrite Hfm in H. cbn [andb negb] in H.
          unfold mbind at 1, M_bind at 1 in H.
          unfold mbind at 1, M_bind at 1 in H.
          rewrite (fetchAllCompsPage_live year false w d') in H by done.
          unfold mbind at 1, M_bind at 1, lift at 1 in H.
          by rewrite Hp' in H. }
      rewrite (resolve_refetch ord url_Parse year fname w requested d m d' m')
        in H by done.
      destruct (firstMissingKey requested m') as [[] k] eqn:Hfm; [done|].
      injection H as <- <-. exists d', m'.
      eauto 10 using firstMissingKey_false.
  - destruct (web w (listing_url year)) as [d|] eqn:Hw.
    2:{ unfold FetchCompDescriptions in H.
        unfold mbind at 1, M_bind at 1 in H. rewrite Hk in H.
        unfold mbind at 1, M_bind at 1 in H.
        unfold fetchAllCompsPage, ReadFile, mbind at 1, M_bind at 1 in H.
        rewrite Hf in H.
        unfold mbind at 1, M_bind at 1, MustFetch in H.
        by rewrite Hw in H. }
    destruct (parseWebComps d) as [m|] eqn:Hp.
    2:{ unfold FetchCompDescriptions in H.
        unfold mbind at 1, M_bind at 1 in H. rewrite Hk in H.
        unfold mbind at 1, M_bind at 1 in H.
        rewrite (fetchAllCompsPage_live year true w d) in H by done.
        unfold mbind at 1, M_bind at 1, lift at 1 in H. by rewrite Hp in H. }
    rewrite (resolve_uncached ord url_Parse year fname w requested d m) in H
      by done.
    destruct (firstMissingKey requested m) as [[] k] eqn:Hfm; [done|].
    injection H as <- <-. exists d, m.
    eauto 10 using firstMissingKey_false.
Qed.

Lemma parseKeysFromFile_file url_Parse fname w v :
  files w !! fname = files v !! fname ->
  fst (parseKeysFromFile url_Parse fname w)
  = fst (parseKeysFromFile url_Parse fname v).
Proof.
  intros H. unfold parseKeysFromFile, ReadFile, lift, mbind, M_bind.
  rewrite H. by destruct (files v !! fname).
Qed.

Lemma resolved_unique (m : gmap gostring Competition.t) requested l1 l2 :
  Forall2 (fun d r => exists e, m !! Competition.Key d = Some e /\
                                r = resolved d e) requested l1 ->
  Forall2 (fun d r => exists e, m !! Competition.Key d = Some e /\
                                r = resolved d e) requested l2 ->
  l1 = l2.
Proof.
  intros H1. revert l2. induction H1 as [|d r requested l1 (e & He & ->) _ IH];
    intros l2 H2; inversion H2 as [|? r' ? l2' (e' & He' & ->) H2']; subst;
    [done|].
  rewrite He in He'. injection He' as <-. f_equal. by apply IH.
Qed.

(** A run can be repeated off line.  After [FetchCompDescriptions] has
    returned, calling it again (the configuration file not being the
    cache file of the listing) returns the same descriptors and changes
    nothing: every key asked for is in the cached listing by then, so
    nothing is fetched. *)
Theorem FetchCompDescriptions_again ord ord' url_Parse year fname w descs w' :
  valid_order ord -> valid_order ord' ->
  fname <> listing_cache_name year ->
  FetchCompDescriptions ord url_Parse year fname w = (Ok descs, w') ->
  FetchCompDescriptions ord' url_Parse year fname w' = (Ok descs, w').
Proof.
  intros Hord Hord' Hfname H.
  apply FetchCompDescriptions_world in H
    as (requested & page & listing & Hk & Hp & Hall & -> & Hw).
  assert (Hfile : files w' !! listing_cache_name year = Some page).
  { destruct Hw as [[-> Hf] | ->]; [done|].
    unfold fetched_listing. cbn [files]. by rewrite lookup_insert_eq. }
  assert (Hk' : parseKeysFromFile url_Parse fname w' = (Ok requested, w')).
  { destruct (parseKeysFromFile url_Parse fname w') as [r w1] eqn:E.
    apply parseKeysFromFile_world in E as Hw1. subst w1. f_equal.
    change r with (fst (r, w')). rewrite <- E.
    rewrite (parseKeysFromFile_file url_Parse fname w' w); [by rewrite Hk|].
    destruct Hw as [[-> _] | ->]; [done|].
    unfold fetched_listing. cbn [files]. by rewrite lookup_insert_ne. }
  rewrite (resolve_cached ord' url_Parse year fname w' requested page listing)
    by done.
  do 2 f_equal. pose proof (parseWebComps_keyed _ _ Hp) as Hkeyed.
  eapply resolved_unique; by apply update_descs_spec.
Qed.

Lemma FetchCompDescriptions_again_witness :
  FetchCompDescriptions reverse_order example_url_Parse 2016 "oom.conf"
    (fetched_listing 2016 live_listing stale_world)
  = (Ok [ Competition.mk "100" "Monthly Medal" "Sat 2nd April"
            "http://www.colchestergolfclub.com/competition.php?compid=100&sort=1"
            0 ∅;
          Competition.mk "200" "Spring Open" "Sun 8th May"
            "http://www.colchestergolfclub.com/competition.php?compid=200&sort=0"
            0 ∅ ],
     fetched_listing 2016 live_listing stale_world).
Proof.
  apply (FetchCompDescriptions_again identity_order reverse_order
           example_url_Parse 2016 "oom.conf" stale_world).
  - apply identity_order_valid.
  - apply reverse_order_valid.
  - done.
  - vm_compute. reflexivity.
Defined.

(** ** A page of the standard layout, from the text to the results *)

Lemma page_tokens_of_fragments data toks :
  fragments (page_marker data) data toks -> page_tokens data = Some toks.
Proof.
  intros Hfr. rewrite page_tokens_marker. unfold scan_all.
  change (NewScanner data) with (scanner_at data []).
  rewrite (scan_loop_fragments _ _ _ toks);
    [done | apply page_marker_nonempty | done | cbn; lia].
Qed.

Lemma fragments_standard data header frag frags :
  fragments "?playerid=" data (header :: frag :: frags) ->
  is_standard data = true.
Proof.
  intros H. inversion H as [| |tok rest toks Hf _ _]; subst.
  unfold is_standard. apply negb_true_iff, Z.eqb_neq.
  rewrite index_none. intros Hno. apply Hno. by exists header, rest.
Qed.

(** A page cut by [?playerid=] into a header and rows, each row with a
    name and a result where [playerDetail] looks for them, and no name
    twice: the page is scored; the number of players is the number of
    rows; the player of row [i] (from 0) is stored under the name with
    rank [i + 1], the result as text, and as points the number of
    players less [i], or 0 when the result is not an integer; nobody
    else is stored; the descriptor's key, name, date and URL are
    kept. *)
Theorem standard_page comp data header frags
    (players : list (gostring * gostring)) :
  frags <> [] ->
  fragments "?playerid=" data (header :: frags) ->
  Forall2 (fun frag p => standard_row frag (fst p) (snd p)) frags players ->
  NoDup players.*1 ->
  exists c,
    populate_from_page comp data = Ok c /\
    Competition.Key c = Competition.Key comp /\
    Competition.Name c = Competition.Name comp /\
    Competition.Date c = Competition.Date comp /\
    Competition.URL c = Competition.URL comp /\
    Competition.NumPlayers c = Z.of_nat (length players) /\
    (forall i name score,
       players !! i = Some (name, score) ->
       Competition.Results c !! name
       = Some (entry_at (length players) i name score)) /\
    (forall name, name ∉ players.*1 -> Competition.Results c !! name = None).
Proof.
  intros Hne Hfr Hrows Hnd.
  destruct frags as [|frag frags]; [done|].
  pose proof (fragments_standard _ _ _ _ Hfr) as Hstd.
  assert (Hmarker : page_marker data = "?playerid=")
    by (unfold page_marker; by rewrite Hstd).
  assert (Hdetail : page_detail data = playerDetail)
    by (unfold page_detail; by rewrite Hstd).
  assert (Htoks : page_tokens data = Some (header :: frag :: frags))
    by (apply page_tokens_of_fragments; by rewrite Hmarker).
  assert (Hok : Forall2 (fun frag p => page_detail data frag = Ok p)
                        (tail (header :: frag :: frags)) players).
  { rewrite Hdetail. cbn [tail]. eapply Forall2_impl; [exact Hrows|].
    intros f [name score] (pre & seg & rest & -> & Hp & Ha & He & Hl).
    by apply playerDetail_ok. }
  destruct (populate_from_page_ok comp data _ players Htoks Hok) as [c Hc].
  destruct (populate_entries comp data _ c Htoks Hc)
    as (es & Hlen & Hnum & Hes & Hstore).
  apply Forall2_length in Hok as Hl. cbn [tail] in Hl, Hlen, Hes, Hok.
  assert (Hentry : forall i e, es !! i = Some e ->
            exists name score,
              players !! i = Some (name, score) /\
              e = entry_at (length players) i name score).
  { intros i e He.
    destruct ((frag :: frags) !! i) as [f|] eqn:Ef.
    2:{ apply lookup_ge_None in Ef. apply lookup_lt_Some in He. lia. }
    destruct (Hes i f e Ef He) as (Hd & Hr & Hpts).
    rewrite Forall2_lookup in Hok. specialize (Hok i). rewrite Ef in Hok.
    destruct (players !! i) as [[name score]|] eqn:Ep; [|by inversion Hok].
    assert (Hd' : page_detail data f = Ok (name, score)) by (by inversion Hok).
    rewrite Hd in Hd'. injection Hd' as Hname Hscore.
    exists name, score. split; [done|]. unfold entry_at.
    destruct e as [en ep er esc].
    cbn [PlayerResult.Name PlayerResult.Result PlayerResult.Rank
         PlayerResult.OOMPoints] in Hname, Hscore, Hr, Hpts.
    rewrite Hr, Hpts, Hname, Hscore, Hnum, Hlen, Hl. done. }
  exists c. split; [done|].
  pose proof (populate_from_page_inv comp data c Hc)
    as (toks' & st & _ & _ & Hceq).
  split; [by rewrite Hceq|]. split; [by rewrite Hceq|].
  split; [by rewrite Hceq|]. split; [by rewrite Hceq|].
  split; [lia|]. split.
  - intros i name score Hi. rewrite Hstore.
    destruct (es !! i) as [e|] eqn:Ee.
    2:{ apply lookup_ge_None in Ee. apply lookup_lt_Some in Hi. lia. }
    destruct (Hentry i e Ee) as (name' & score' & Hi' & ->).
    rewrite Hi in Hi'. injection Hi' as <- <-.
    destruct (last_named name es) as [e'|] eqn:El.
    + apply last_named_Some in El as (Hn' & j & Hj & _).
      destruct (Hentry j e' Hj) as (name2 & score2 & Hj2 & ->).
      cbn [entry_at PlayerResult.Name] in Hn'. subst name2.
      assert (i = j) as <-.
      { eapply NoDup_lookup; [exact Hnd| |];
          rewrite list_lookup_fmap; [by rewrite Hi | by rewrite Hj2]. }
      rewrite Hi in Hj2. by injection Hj2 as <-.
    + exfalso. eapply last_named_None; [exact El| |].
      * by eapply list_elem_of_lookup_2.
      * done.
  - intros name Hnot. rewrite Hstore.
    destruct (last_named name es) as [e'|] eqn:El; [|done].
    apply last_named_Some in El as (Hn' & j & Hj & _).
    destruct (Hentry j e' Hj) as (name2 & score2 & Hj2 & ->).
    cbn [entry_at PlayerResult.Name] in Hn'. subst name2. destruct Hnot.
    apply list_elem_of_fmap. exists (name, score2). split; [done|].
    by eapply list_elem_of_lookup_2.
Qed.

Lemma standard_page_witness :
  exists c,
    populate_from_page (new_competition "5462") standard_page_example = Ok c /\
    Competition.Key c = Competition.Key (new_competition "5462") /\
    Competition.Name c = Competition.Name (new_competition "5462") /\
    Competition.Date c = Competition.Date (new_competition "5462") /\
    Competition.URL c = Competition.URL (new_competition "5462") /\
    Competition.NumPlayers c
    = Z.of_nat (length [("Alice" : gostring, "72" : gostring);
                        ("Bob" : gostring, "75" : gostring);
                        ("Carol" : gostring, "DQ" : gostring)]) /\
    (forall i name score,
       [("Alice" : gostring, "72" : gostring);
        ("Bob" : gostring, "75" : gostring);
        ("Carol" : gostring, "DQ" : gostring)] !! i = Some (name, score) ->
       Competition.Results c !! name = Some (entry_at 3 i name score)) /\
    (forall name,
       name ∉ [("Alice" : gostring, "72" : gostring);
               ("Bob" : gostring, "75" : gostring);
               ("Carol" : gostring, "DQ" : gostring)].*1 ->
       Competition.Results c !! name = None).
Proof.
  assert (Hex : exists toks,
            fragments "?playerid=" standard_page_example toks)
    by (apply fragments_exist; [done | reflexivity]).
  destruct Hex as [toks Hfr].
  pose proof (page_tokens_of_fragments standard_page_example toks Hfr) as Ht.
  vm_compute in Ht. injection Ht as <-.
  eapply (standard_page (new_competition "5462") standard_page_example);
    [| exact Hfr | | compute_done]; [done|].
  constructor; [|constructor; [|constructor; [|constructor]]]; cbn [fst snd].
  - exists ("playerid=1" ++ [dquote]), "</a>(16)</td><td><a href=x>72",
      ("<td></td></tr><tr><td><a href=" ++ dquote :: "viewplayer.php").
    split; [reflexivity|]. split; [compute_done|].
    split; [apply first_occurrence_index; vm_compute; reflexivity|].
    split; [apply first_occurrence_index; vm_compute; reflexivity|].
    split; [compute_done|]. right.
    by exists ("</a>(16)</td><td><a href=x" : gostring).
  - exists ("playerid=2" ++ [dquote]), "</a>(9)</td><td><a href=x>75",
      ("<td></td></tr><tr><td><a href=" ++ dquote :: "viewplayer.php").
    split; [reflexivity|]. split; [compute_done|].
    split; [apply first_occurrence_index; vm_compute; reflexivity|].
    split; [apply first_occurrence_index; vm_compute; reflexivity|].
    split; [compute_done|]. right.
    by exists ("</a>(9)</td><td><a href=x" : gostring).
  - exists ("playerid=3" ++ [dquote]), "</a>(20)</td><td><a href=x>DQ",
      "<td></td></tr>".
    split; [reflexivity|]. split; [compute_done|].
    split; [apply first_occurrence_index; vm_compute; reflexivity|].
    split; [apply first_occurrence_index; vm_compute; reflexivity|].
    split; [compute_done|]. right.
    by exists ("</a>(20)</td><td><a href=x" : gostring).
Defined.

(** ** What a load leaves alone *)

(** Whatever its outcome, [Load] leaves every file but [<key>.txt] as
    it is and fetches at most the page at the descriptor's URL, and
    that only when [<key>.txt] does not exist; a load that ends in a
    panic or a fatal error writes no file at all. *)
Theorem Load_frame ord comp w r w' :
  Load ord comp w = (r, w') ->
  web w' = web w /\
  (fetched w' = fetched w \/
   (fetched w' = Competition.URL comp :: fetched w /\
    files w !! cache_name (Competition.Key comp) = None)) /\
  (forall f, f <> cache_name (Competition.Key comp) ->
             files w' !! f = files w !! f) /\
  (forall fault, r = Fail fault -> files w' = files w).
Proof.
  unfold Load. destruct (bytes_eqb (Competition.Key comp) "").
  { intros [= <- <-]. repeat split; auto. }
  unfold readCached, ReadFile, populateResultsFromWeb, MustFetch, saveComp,
    WriteFile, lift, mbind, M_bind, mret, M_ret.
  destruct (files w !! cache_name (Competition.Key comp)) as [content|] eqn:Hf.
  { destruct (parse_cache content); intros [= <- <-]; repeat split; auto. }
  cbn [files web fetched].
  destruct (web w (Competition.URL comp)) as [data|].
  2:{ intros [= <- <-]. cbn [files web fetched]. repeat split; auto. }
  destruct (populate_from_page comp data) as [c|f] eqn:Hp.
  2:{ intros [= <- <-]. cbn [files web fetched]. repeat split; auto. }
  intros [= <- <-]. cbn [files web fetched].
  apply populate_from_page_key in Hp.
  split; [done|]. split; [by right|]. split; [|done].
  intros f Hne. rewrite Hp. by rewrite lookup_insert_ne.
Qed.

Lemma Load_frame_witness :
  web loaded_world = web uncached_world /\
  (fetched loaded_world = fetched uncached_world \/
   (fetched loaded_world
    = ("http://club/competition.php?compid=5462" : gostring)
      :: fetched uncached_world /\
    files uncached_world !! cache_name "5462" = None)) /\
  (forall f, f <> cache_name "5462" ->
             files loaded_world !! f = files uncached_world !! f) /\
  (forall fault, Ok loaded_competition = Fail fault ->
                 files loaded_world = files uncached_world).
Proof.
  apply (Load_frame identity_order
           (Competition.mk "5462" [] []
              "http://club/competition.php?compid=5462" 0 ∅)
           uncached_world (Ok loaded_competition) loaded_world).
  vm_compute. reflexivity.
Defined.
